(** * buildcache: the MSVC wrapper pipeline and the cache-entry codec

    A shallow embedding of [msvc_wrapper.cpp] (command-line parser,
    direct-mode dependency protocol) and of [cache/cache_entry.cpp]
    (versioned binary codec), with the properties of the design document
    stated and settled against the embedded code; and, further on, of
    [base/string_utils.hpp], of [version_t] and the tool version of
    [wrappers/msvc_wrapper.hpp], of the wrapper's checks and command
    lines, and of the tracking log of [sys/filetracker.cpp], with
    properties read off that code.

    Conventions.
    - [std::string] is [string] (a sequence of 8-bit characters);
      [string_list_t] and [std::vector<std::string>] are [list string].
    - A C++ exception is the [Throw] outcome of the [result] monad; a read
      outside a buffer (undefined behaviour in C++) is [Undefined].
    - [std::map<std::string, V>] is [gmap string V]; wherever the code
      iterates over such a map the embedding iterates in ascending key
      order ([map_items]), which is the iteration order of [std::map]. *)

From Stdlib Require Import ZArith Ascii String List Lia.
From Stdlib Require DecimalString DecimalN.
From stdpp Require Import base tactics option list sorting vector gmap strings.

Local Open Scope Z_scope.
Local Open Scope stdpp_scope.

(** ** Outcomes of fallible code *)

Inductive result (A : Type) : Type :=
  | Ok (a : A)
  | Throw (what : string)
  | Undefined.
Arguments Ok {A} a.
Arguments Throw {A} what.
Arguments Undefined {A}.

#[global] Instance result_bind : MBind result := λ A B k r,
  match r with
  | Ok a => k a
  | Throw w => Throw w
  | Undefined => Undefined
  end.
#[global] Instance result_ret : MRet result := λ A a, Ok a.

#[global] Instance Ok_inj {A} : Inj (=) (=) (@Ok A).
Proof. by intros ?? [=]. Qed.

(** ** [base/string_utils.hpp] and the string primitives the code uses *)

Module StringUtils.

(** [s.substr(pos)]: the characters from [pos] to the end.  Every call
    site of the embedded code guards [pos <= s.size()]. *)
Fixpoint substr_from (s : string) (pos : nat) {struct pos} : string :=
  match pos with
  | O => s
  | S p =>
      match s with
      | String _ s' => substr_from s' p
      | EmptyString => EmptyString
      end
  end.

(** [s.substr(pos, n)]. *)
Definition substr (s : string) (pos n : nat) : string :=
  String.substring pos n s.

(** [starts_with]: [str.substr(0, sub_str.size()) == sub_str]. *)
Definition starts_with (str sub_str : string) : bool :=
  String.eqb (substr str 0 (String.length sub_str)) sub_str.

(** [split(str, delimiter)]: the pieces between delimiters, empty pieces
    kept; the result is never the empty list. *)
Fixpoint split_go (cur : string) (str : string) (delimiter : ascii)
    : list string :=
  match str with
  | EmptyString => [String.rev cur]
  | String c rest =>
      if Ascii.eqb c delimiter
      then String.rev cur :: split_go EmptyString rest delimiter
      else split_go (String c cur) rest delimiter
  end.
Definition split (str : string) (delimiter : ascii) : list string :=
  split_go EmptyString str delimiter.

(** Modelled from the spec: [lower_case] and [upper_case] of
    [base/string_utils], whose definitions are outside the embedded
    sources.  The design document only says "lower-cased" and "upper-case
    the first character"; the model folds the 26 ASCII letters and leaves
    every other byte alone. *)
Definition lower_char (c : ascii) : ascii :=
  let n := N_of_ascii c in
  if ((65 <=? n) && (n <=? 90))%N then ascii_of_N (n + 32) else c.
Definition upper_char (c : ascii) : ascii :=
  let n := N_of_ascii c in
  if ((97 <=? n) && (n <=? 122))%N then ascii_of_N (n - 32) else c.
Fixpoint map_chars (f : ascii → ascii) (s : string) : string :=
  match s with
  | EmptyString => EmptyString
  | String c s' => String (f c) (map_chars f s')
  end.
Definition lower_case : string → string := map_chars lower_char.
Definition upper_case : string → string := map_chars upper_char.

(** Modelled from the spec: [string_list_t::join] ([base/string_list.hpp],
    outside the embedded sources), "the joined argument string": the
    elements with the separator between them. *)
Definition join (sep : string) (l : list string) : string :=
  String.concat sep l.

End StringUtils.
Import StringUtils.

(** ** The command-line parser of [msvc_wrapper.cpp] *)

Inductive InputType := kUnknown | kObject | kC | kCpp.

Record InputFile := mkInputFile { name : string; type : InputType }.

Inductive DebugFormat :=
  kNone | kObjectFile | kSeparateFile | kSeparateFileEditAndContinue.

Inductive MergeMode :=
  kAll | kSkipCoveredByPreprocess | kDirectModeCommonArgs | kSkipInputs.

Record flag_option_t := mkFlag { enabled : bool; value : string }.

Record pch_config_t := mkPch {
  create : flag_option_t;
  use : flag_option_t;
  path : string;
  ignore : bool }.

(** [cmdline_parser_t].  The counter [m_command_file_depth] is not a field
    of the record: it is the recursion budget of [parse_loop] below
    (budget = 100 - depth), and the code restores it after every
    response file. *)
Record cmdline_parser_t := mkParser {
  m_compile_only : bool;
  m_default_input_type : InputType;
  m_debug_format : DebugFormat;
  m_includes : list string;
  m_defines : list string;
  m_options : list string;
  m_pdb_path : string;
  m_object_path : string;
  m_pch_config : pch_config_t;
  m_input_files : list InputFile }.

#[global] Instance InputType_eq_dec : EqDecision InputType.
Proof. solve_decision. Defined.
#[global] Instance DebugFormat_eq_dec : EqDecision DebugFormat.
Proof. solve_decision. Defined.
#[global] Instance MergeMode_eq_dec : EqDecision MergeMode.
Proof. solve_decision. Defined.

(** The default-constructed parser. *)
Definition new_parser : cmdline_parser_t :=
  {| m_compile_only := false;
     m_default_input_type := kObject;
     m_debug_format := kNone;
     m_includes := [];
     m_defines := [];
     m_options := [];
     m_pdb_path := "";
     m_object_path := "";
     m_pch_config := {| create := mkFlag false ""; use := mkFlag false "";
                        path := ""; ignore := false |};
     m_input_files := [] |}.

(** Modelled from the spec: [file::get_extension] of [base/file_utils],
    which is outside the embedded sources.  The design document infers
    the type "from the extension ([.c], [.cpp], ...)": the model returns the
    part of the last path component that starts at its last dot, or the
    empty string when that component has no dot. *)
Fixpoint get_extension_go (ext : option string) (s : string) : string :=
  match s with
  | EmptyString => default EmptyString ext
  | String c rest =>
      if Ascii.eqb c "/" || Ascii.eqb c "\" then get_extension_go None rest
      else if Ascii.eqb c "." then get_extension_go (Some s) rest
      else get_extension_go ext rest
  end.
Definition get_extension (path : string) : string :=
  get_extension_go None path.

Definition filename_to_type (name : string) : InputType :=
  let ext := lower_case (get_extension name) in
  if String.eqb ext ".c" then kC
  else if String.eqb ext ".cpp" || String.eqb ext ".cxx" || String.eqb ext ".cc"
       then kCpp
  else kObject.

Definition drop_leading_colon (s : string) : string :=
  match s with
  | String ":" s' => s'
  | _ => s
  end.

Definition get_option (item : string) : option string :=
  match item with
  | EmptyString => None
  | String c _ =>
      if Ascii.eqb c "/" || Ascii.eqb c "-" then Some (substr_from item 1)
      else None
  end.

Definition append_file (p : cmdline_parser_t) (n : string) (t : InputType)
    : cmdline_parser_t :=
  {| m_compile_only := m_compile_only p;
     m_default_input_type := m_default_input_type p;
     m_debug_format := m_debug_format p;
     m_includes := m_includes p;
     m_defines := m_defines p;
     m_options := m_options p;
     m_pdb_path := m_pdb_path p;
     m_object_path := m_object_path p;
     m_pch_config := m_pch_config p;
     m_input_files := m_input_files p ++ [mkInputFile n t] |}.

(** Field updates of the handlers of [parse_list]. *)
Definition set_compile_only (p : cmdline_parser_t) : cmdline_parser_t :=
  mkParser true (m_default_input_type p) (m_debug_format p) (m_includes p)
    (m_defines p) (m_options p) (m_pdb_path p) (m_object_path p)
    (m_pch_config p) (m_input_files p).
Definition set_default_input_type (p : cmdline_parser_t) (t : InputType) :=
  mkParser (m_compile_only p) t (m_debug_format p) (m_includes p)
    (m_defines p) (m_options p) (m_pdb_path p) (m_object_path p)
    (m_pch_config p) (m_input_files p).
Definition set_debug_format (p : cmdline_parser_t) (d : DebugFormat) :=
  mkParser (m_compile_only p) (m_default_input_type p) d (m_includes p)
    (m_defines p) (m_options p) (m_pdb_path p) (m_object_path p)
    (m_pch_config p) (m_input_files p).
Definition add_include (p : cmdline_parser_t) (x : string) :=
  mkParser (m_compile_only p) (m_default_input_type p) (m_debug_format p)
    (m_includes p ++ [x]) (m_defines p) (m_options p) (m_pdb_path p)
    (m_object_path p) (m_pch_config p) (m_input_files p).
Definition add_define (p : cmdline_parser_t) (x : string) :=
  mkParser (m_compile_only p) (m_default_input_type p) (m_debug_format p)
    (m_includes p) (m_defines p ++ [x]) (m_options p) (m_pdb_path p)
    (m_object_path p) (m_pch_config p) (m_input_files p).
Definition add_option (p : cmdline_parser_t) (x : string) :=
  mkParser (m_compile_only p) (m_default_input_type p) (m_debug_format p)
    (m_includes p) (m_defines p) (m_options p ++ [x]) (m_pdb_path p)
    (m_object_path p) (m_pch_config p) (m_input_files p).
Definition set_pdb_path (p : cmdline_parser_t) (x : string) :=
  mkParser (m_compile_only p) (m_default_input_type p) (m_debug_format p)
    (m_includes p) (m_defines p) (m_options p) x (m_object_path p)
    (m_pch_config p) (m_input_files p).
Definition set_object_path (p : cmdline_parser_t) (x : string) :=
  mkParser (m_compile_only p) (m_default_input_type p) (m_debug_format p)
    (m_includes p) (m_defines p) (m_options p) (m_pdb_path p) x
    (m_pch_config p) (m_input_files p).
Definition set_pch_config (p : cmdline_parser_t) (c : pch_config_t) :=
  mkParser (m_compile_only p) (m_default_input_type p) (m_debug_format p)
    (m_includes p) (m_defines p) (m_options p) (m_pdb_path p)
    (m_object_path p) c (m_input_files p).

(** The lambda [sanitize_path] of [parse_list]. *)
Definition sanitize_path (path : string) : string :=
  match path with
  | String c0 (String c1 rest) =>
      if (2 <? String.length path)%nat && Ascii.eqb c1 ":"
      then upper_case (substr path 0 1) +:+ substr_from path 1
      else path
  | _ => path
  end.

(** The lambdas [next_item] and [retrieve_arg] of [parse_list].  The
    iterator is modelled by the token that follows the current one
    ([nxt], [None] at the end of the list); the boolean of the result tells
    whether the iterator was advanced onto that token. *)
Definition next_item (nxt : option string) : result (string * bool) :=
  match nxt with
  | None => Throw "Expected another item."
  | Some x => Ok (x, true)
  end.

Definition retrieve_arg (item : string) (uses_colon : bool)
    (nxt : option string) : result (string * bool) :=
  let arg := if uses_colon then drop_leading_colon item else item in
  if negb (String.eqb arg "") then Ok (arg, false)
  else if uses_colon then Throw "Expected another item."
  else next_item nxt.

(** What one iteration of the [while] loop of [parse_list] does. *)
Inductive step :=
  | Break                                    (* [break] at [/link] *)
  | Continue (p : cmdline_parser_t) (advanced : bool).

(** The body of the [while] loop of [parse_list] for the token [item];
    [parse_file] is the member function of that name, passed in because it
    calls back into [parse_list]. *)
Definition parse_item
    (parse_file : string → cmdline_parser_t → result cmdline_parser_t)
    (p : cmdline_parser_t) (item : string) (nxt : option string)
    : result step :=
  match get_option item with
  | Some option =>
      if String.eqb option "link" then Ok Break
      else if String.eqb option "c" then Ok (Continue (set_compile_only p) false)
      else if starts_with option "D" then
        '(arg, adv) ← retrieve_arg (substr_from option 1) false nxt;
        Ok (Continue (add_define p arg) adv)
      else if starts_with option "Fd" then
        '(arg, adv) ← retrieve_arg (substr_from option 2) true nxt;
        Ok (Continue (set_pdb_path p (sanitize_path arg)) adv)
      else if starts_with option "Fo" then
        '(arg, adv) ← retrieve_arg (substr_from option 2) true nxt;
        Ok (Continue (set_object_path p (sanitize_path arg)) adv)
      else if starts_with option "Fp" then
        '(arg, adv) ← retrieve_arg (substr_from option 2) true nxt;
        let c := m_pch_config p in
        Ok (Continue (set_pch_config p
              (mkPch (create c) (use c) (sanitize_path arg) (ignore c))) adv)
      else if starts_with option "I" then
        '(arg, adv) ← retrieve_arg (substr_from option 1) false nxt;
        Ok (Continue (add_include p (sanitize_path arg)) adv)
      else if String.eqb option "TC" then
        Ok (Continue (set_default_input_type p kC) false)
      else if String.eqb option "TP" then
        Ok (Continue (set_default_input_type p kCpp) false)
      else if starts_with option "Tc" || starts_with option "Tp" then
        let file_type := if starts_with option "Tc" then kC else kCpp in
        '(arg, adv) ← retrieve_arg (substr_from option 2) false nxt;
        Ok (Continue (append_file p (sanitize_path arg) file_type) adv)
      else if String.eqb option "Y-" then
        let c := m_pch_config p in
        Ok (Continue (set_pch_config p
              (mkPch (create c) (use c) (path c) true)) false)
      else if starts_with option "Yc" then
        let c := m_pch_config p in
        Ok (Continue (set_pch_config p
              (mkPch (mkFlag true (sanitize_path (substr_from option 2)))
                     (use c) (path c) (ignore c))) false)
      else if starts_with option "Yu" then
        let c := m_pch_config p in
        Ok (Continue (set_pch_config p
              (mkPch (create c)
                     (mkFlag true (sanitize_path (substr_from option 2)))
                     (path c) (ignore c))) false)
      else if String.eqb option "Z7" then
        Ok (Continue (set_debug_format p kObjectFile) false)
      else if String.eqb option "Zi" then
        Ok (Continue (set_debug_format p kSeparateFile) false)
      else if String.eqb option "ZI" then
        Ok (Continue (set_debug_format p kSeparateFileEditAndContinue) false)
      else Ok (Continue (add_option p option) false)
  | None =>
      if starts_with item "@" then
        p' ← parse_file (substr_from item 1) p;
        Ok (Continue p' false)
      else Ok (Continue (append_file p item kUnknown) false)
  end.

(** How the [while] loop of [parse_list] was left. *)
Inductive loop_exit := ReachedEnd | BrokeAtLink.

(** The [while] loop of [parse_list] over the tokens from the iterator on. *)
Fixpoint parse_tokens
    (parse_file : string → cmdline_parser_t → result cmdline_parser_t)
    (p : cmdline_parser_t) (list : list string)
    : result (loop_exit * cmdline_parser_t) :=
  match list with
  | [] => Ok (ReachedEnd, p)
  | item :: rest =>
      s ← parse_item parse_file p item (head rest);
      match s with
      | Break => Ok (BrokeAtLink, p)
      | Continue p' advanced =>
          parse_tokens parse_file p'
            (if advanced then match rest with _ :: r => r | [] => rest end
             else rest)
      end
  end.

Section Parser.
(** [string_list_t::split_args] ([base/string_list.hpp]), the tokenizer
    of a command line; its definition is outside the embedded sources. *)
Variable split_args : string → list string.
(** The file system as [file::read] sees it: the bytes of a file, or an
    exception. *)
Variable file_read : string → result string.
(** [ucs2_to_utf8] ([base/unicode_utils.hpp]) applied to the bytes that
    follow a UTF-16LE byte-order mark, and
    [sizeof(std::wstring::value_type)]. *)
Variable ucs2_to_utf8 : string → string.
Variable wchar_len : nat.

(** The stream of [std::getline] calls on a [std::stringstream]: the
    lines between line feeds; a non-empty tail without line feed is a
    last line, and an empty tail is none. *)
Fixpoint getlines_go (cur : string) (s : string) : list string :=
  match s with
  | EmptyString =>
      match cur with EmptyString => [] | _ => [String.rev cur] end
  | String c rest =>
      if Ascii.eqb c "010" then String.rev cur :: getlines_go EmptyString rest
      else getlines_go (String c cur) rest
  end.
Definition getlines (s : string) : list string := getlines_go EmptyString s.

(** [line.back()]: the last character; reading it from an empty string
    is outside the string. *)
Definition back (line : string) : result ascii :=
  match String.rev line with
  | EmptyString => Undefined
  | String c _ => Ok c
  end.
Definition pop_back (line : string) : string :=
  substr line 0 (String.length line - 1).

(** The byte-order-mark handling at the head of [read_lines]. *)
Definition decode_file_buf (file_buf : string) : string :=
  let size := String.length file_buf in
  if (2 <? size)%nat && (size mod wchar_len =? 0)%nat
     && String.eqb (substr file_buf 0 2) (String "255" (String "254" ""))
  then ucs2_to_utf8 (substr_from file_buf 2)
  else if (3 <? size)%nat
     && String.eqb (substr file_buf 0 3)
          (String "239" (String "187" (String "191" "")))
  then substr_from file_buf 3
  else file_buf.

(** The [while (std::getline ...)] loop of [read_lines]; the callback
    threads the state [S] it mutates. *)
Fixpoint read_lines_loop {S : Type} (lines : list string)
    (callback : string → S → result S) (st : S) : result S :=
  match lines with
  | [] => Ok st
  | line :: more =>
      c ← back line;
      let line := if Ascii.eqb c "013" then pop_back line else line in
      st' ← callback line st;
      read_lines_loop more callback st'
  end.

Definition read_lines {S : Type} (path : string)
    (callback : string → S → result S) (st : S) : result S :=
  file_buf ← file_read path;
  read_lines_loop (getlines (decode_file_buf file_buf)) callback st.

(** [parse_list], with the way its loop was left.  [budget] is
    [100 - m_command_file_depth]: [parse_file] fails when the incremented
    depth exceeds 100, that is when the budget is used up. *)
Fixpoint parse_loop (budget : nat) (p : cmdline_parser_t)
    (list : list string) : result (loop_exit * cmdline_parser_t) :=
  parse_tokens
    (λ name p,
       match budget with
       | O => Throw "Command file nesting too deep."
       | S budget' =>
           read_lines name
             (λ line p, r ← parse_loop budget' p (split_args line); Ok r.2)
             p
       end)
    p list.

Definition parse_list (budget : nat) (p : cmdline_parser_t)
    (list : list string) : result cmdline_parser_t :=
  r ← parse_loop budget p list; Ok r.2.

Definition parse_line (budget : nat) (p : cmdline_parser_t)
    (line : string) : result cmdline_parser_t :=
  parse_list budget p (split_args line).

Definition parse_file (budget : nat) (name : string)
    (p : cmdline_parser_t) : result cmdline_parser_t :=
  match budget with
  | O => Throw "Command file nesting too deep."
  | S budget' => read_lines name (λ line p, parse_line budget' p line) p
  end.

(** [cmdline_parser_t::parse]; [getenv] is [std::getenv], [None] for an
    unset variable. *)
Definition parse (getenv : string → option string) (argv : list string)
    (p : cmdline_parser_t) : result cmdline_parser_t :=
  p ← match getenv "CL" with
      | Some env_var => parse_line 100 p env_var
      | None => Ok p
      end;
  p ← (if (1 <? length argv)%nat then parse_list 100 p (tail argv)
       else Ok p);
  match getenv "_CL_" with
  | Some env_var => parse_line 100 p env_var
  | None => Ok p
  end.
End Parser.

(** [InputFile::as_arg]. *)
Definition as_arg (f : InputFile) : string :=
  match type f with
  | kC => "/Tc" +:+ name f
  | kCpp => "/Tp" +:+ name f
  | _ => name f
  end.

Definition effective_file_type (p : cmdline_parser_t) (file : InputFile)
    : InputType :=
  if decide (type file ≠ kUnknown) then type file
  else match m_default_input_type p with
       | kC | kCpp => m_default_input_type p
       | _ => filename_to_type (name file)
       end.

(** [cmdline_parser_t::merge]. *)
Definition merge (p : cmdline_parser_t) (mode : MergeMode) : list string :=
  (if m_compile_only p then ["/c"] else [])
  ++ (if decide (mode ≠ kDirectModeCommonArgs) then
        match m_default_input_type p with
        | kC => ["/TC"]
        | kCpp => ["/TP"]
        | _ => []
        end
      else [])
  ++ match m_debug_format p with
     | kObjectFile => ["/Z7"]
     | kSeparateFile => ["/Zi"]
     | kSeparateFileEditAndContinue => ["/ZI"]
     | kNone => []
     end
  ++ ((λ option, "/" +:+ option) <$> m_options p)
  ++ (if negb (String.eqb (m_pdb_path p) "") then ["/Fd:" +:+ m_pdb_path p]
      else [])
  ++ (if decide (mode ≠ kSkipCoveredByPreprocess) then
        ((λ option, "/I" +:+ option) <$> m_includes p)
        ++ ((λ option, "/D " +:+ option) <$> m_defines p)
        ++ (if negb (String.eqb (m_object_path p) "")
            then ["/Fo:" +:+ m_object_path p] else [])
      else [])
  ++ (if enabled (create (m_pch_config p))
      then ["/Yc" +:+ value (create (m_pch_config p))] else [])
  ++ (if enabled (use (m_pch_config p))
      then ["/Yu" +:+ value (use (m_pch_config p))] else [])
  ++ (if ignore (m_pch_config p) then ["/Y-"] else [])
  ++ (if negb (String.eqb (path (m_pch_config p)) "")
      then ["/Fp:" +:+ path (m_pch_config p)] else [])
  ++ (if decide (mode = kAll) then as_arg <$> m_input_files p else []).

Definition obj_path_is_dir (p : cmdline_parser_t) : bool :=
  if String.eqb (m_object_path p) "" then true
  else match String.rev (m_object_path p) with
       | String last _ => Ascii.eqb last "\" || Ascii.eqb last "/"
       | EmptyString => false
       end.

(** ** Iteration over a [std::map] with string keys *)

(** The (key, value) pairs of a map in ascending key order; [std::string]
    compares byte-wise, which is [String.le]. *)
Definition key_le {V : Type} : relation (string * V) :=
  λ a b, String.le a.1 b.1.
#[global] Instance key_le_dec {V} : RelDecision (@key_le V).
Proof. intros a b. unfold key_le. apply _. Defined.
#[global] Instance key_le_total {V} : Total (@key_le V).
Proof. intros a b. unfold key_le. apply (total String.le). Qed.
#[global] Instance key_le_trans {V} : Transitive (@key_le V).
Proof. intros a b c. unfold key_le. apply transitivity. Qed.

Definition map_items {V : Type} (m : gmap string V) : list (string * V) :=
  merge_sort key_le (map_to_list m).

(** ** [base/serializer_utils]: the primitives of the binary format *)

Module serialize.

(** [static_cast<int32_t>]: reduction to the signed 32-bit range. *)
Definition wrap32 (z : Z) : Z := (z + 2^31) mod 2^32 - 2^31.

Definition byte_of (z : Z) : ascii := ascii_of_N (Z.to_N (z mod 256)).

Definition byte_at (data : string) (i : nat) : Z :=
  match String.get i data with
  | Some c => Z.of_N (N_of_ascii c)
  | None => 0
  end.

(** Modelled from the spec: [serialize::from_int] and [serialize::to_int]
    of [base/serializer_utils], which is outside the embedded sources.
    "All lengths are 32-bit signed, little-endian": four bytes, least
    significant first; reading past the end of the data is the error of
    a truncated blob. *)
Definition from_int (x : Z) : string :=
  let u := x mod 2^32 in
  String (byte_of u) (String (byte_of (u / 2^8))
    (String (byte_of (u / 2^16)) (String (byte_of (u / 2^24)) ""))).

Definition to_int (data : string) (pos : nat) : result (Z * nat) :=
  if (String.length data <? pos + 4)%nat
  then Throw "Premature end of serialized data stream."
  else Ok (wrap32 (byte_at data pos + 2^8 * byte_at data (pos + 1)
                   + 2^16 * byte_at data (pos + 2)
                   + 2^24 * byte_at data (pos + 3)),
           (pos + 4)%nat).

(** Modelled from the spec: [serialize::from_string] and
    [serialize::to_string].  "Strings are length-prefixed byte
    sequences": the 32-bit length, then the bytes.  A length that is
    negative or reaches past the end of the data is the error of a
    truncated blob. *)
Definition from_string (x : string) : string :=
  from_int (wrap32 (Z.of_nat (String.length x))) +:+ x.

Definition to_string (data : string) (pos : nat) : result (string * nat) :=
  '(size, pos) ← to_int data pos;
  if (size <? 0) || (String.length data <? pos + Z.to_nat size)%nat
  then Throw "Premature end of serialized data stream."
  else Ok (substr data pos (Z.to_nat size), (pos + Z.to_nat size)%nat).

(** Modelled from the spec: [serialize::from_vector] and
    [serialize::to_vector], "vector<string>": the 32-bit element count,
    then the strings in order. *)
Definition from_vector (x : list string) : string :=
  from_int (wrap32 (Z.of_nat (length x)))
  +:+ foldr (λ e acc, from_string e +:+ acc) "" x.

Fixpoint to_vector_loop (n : nat) (data : string) (pos : nat)
    (result_ : list string) : result (list string * nat) :=
  match n with
  | O => Ok (result_, pos)
  | S n' =>
      '(e, pos) ← to_string data pos;
      to_vector_loop n' data pos (result_ ++ [e])
  end.
Definition to_vector (data : string) (pos : nat)
    : result (list string * nat) :=
  '(size, pos) ← to_int data pos;
  to_vector_loop (Z.to_nat size) data pos [].

(** Modelled from the spec: [serialize::from_map] and
    [serialize::to_map], "a string→string map encoded as pairs": the
    32-bit pair count, then key and value of each pair.  The reader
    stores each pair with [result[key] = value] into a [std::map], as
    the parameter type of [v2_files_to_vector] shows. *)
Definition from_pairs (x : list (string * string)) : string :=
  from_int (wrap32 (Z.of_nat (length x)))
  +:+ foldr (λ e acc, from_string e.1 +:+ from_string e.2 +:+ acc) "" x.
Definition from_map (x : gmap string string) : string :=
  from_pairs (map_items x).

Fixpoint to_map_loop (n : nat) (data : string) (pos : nat)
    (result_ : gmap string string) : result (gmap string string * nat) :=
  match n with
  | O => Ok (result_, pos)
  | S n' =>
      '(key, pos) ← to_string data pos;
      '(value, pos) ← to_string data pos;
      to_map_loop n' data pos (<[key := value]> result_)
  end.
Definition to_map (data : string) (pos : nat)
    : result (gmap string string * nat) :=
  '(size, pos) ← to_int data pos;
  to_map_loop (Z.to_nat size) data pos ∅.

End serialize.

(** ** [cache/cache_entry.cpp] *)

(** [comp_mode_t], an enumeration over [int]: [NONE] is 0 and [ALL] is 1
    ("0 = None, 1 = All"); the casts between the enumeration and [int] keep
    the value. *)
Definition comp_mode_t := Z.
Definition NONE : comp_mode_t := 0.
Definition ALL : comp_mode_t := 1.

Definition ENTRY_DATA_FORMAT_VERSION : Z := 4.

(** [hasher_t::hash_t]: [SIZE] raw bytes, where [SIZE] is
    [hasher_t::hash_t::SIZE] ([base/hasher.hpp], outside the embedded
    sources), the fixed number of bytes of a digest.  [dependency_records_t]
    maps paths to digests. *)
Abbreviation hash_t SIZE := (vec ascii SIZE).
Abbreviation dependency_records_t SIZE := (gmap string (hash_t SIZE)).

Section CacheEntry.
Variable SIZE : nat.
(** [comp::compress] and [comp::decompress] ([base/compressor.hpp]). *)
Variable compress : string → string.
Variable decompress : string → result string.

Abbreviation hash_t := (hash_t SIZE).
Abbreviation dependency_records_t := (dependency_records_t SIZE).

(** The data members of [cache_entry_t] that its six-argument
    constructor takes.  ([m_valid], which that constructor sets, is not
    part of the serialized state.) *)
Record cache_entry_t := mkEntry {
  m_file_ids : list string;
  m_dependency_records : dependency_records_t;
  m_compression_mode : comp_mode_t;
  m_std_out : string;
  m_std_err : string;
  m_return_code : Z }.

Definition v2_files_to_vector (files : gmap string string) : list string :=
  (map_items files).*1.

(** [from_string(const hasher_t::hash_t&)]. *)
Definition from_string (x : hash_t) : string :=
  string_of_list_ascii (vec_to_list x).

(** [to_string(data, pos)], which returns a [hash_t]: [memcpy] of [SIZE]
    bytes from [&data[pos]]. *)
Definition to_string (data : string) (pos : nat) : result (hash_t * nat) :=
  if (String.length data <? pos + SIZE)%nat
  then Throw "Premature end of serialized data stream."
  else Ok (fun_to_vec (λ i : fin SIZE,
                         default "000"%char
                           (String.get (pos + fin_to_nat i) data)),
           (pos + SIZE)%nat).

(** [from_map(const dependency_records_t&)]. *)
Definition from_map (x : dependency_records_t) : string :=
  serialize.from_int (serialize.wrap32 (Z.of_nat (size x)))
  +:+ foldr (λ element acc,
               (serialize.from_string element.1 +:+ from_string element.2)
               +:+ acc) "" (map_items x).

(** [to_map(data, pos)], which returns a [dependency_records_t]. *)
Fixpoint to_map_loop (n : nat) (data : string) (pos : nat)
    (result_ : dependency_records_t)
    : result (dependency_records_t * nat) :=
  match n with
  | O => Ok (result_, pos)
  | S n' =>
      '(key, pos) ← serialize.to_string data pos;
      '(value, pos) ← to_string data pos;
      to_map_loop n' data pos (<[key := value]> result_)
  end.
Definition to_map (data : string) (pos : nat)
    : result (dependency_records_t * nat) :=
  '(size, pos) ← serialize.to_int data pos;
  to_map_loop (Z.to_nat size) data pos ∅.

(** [cache_entry_t::serialize]. *)
Definition serialize (e : cache_entry_t) : string :=
  serialize.from_int ENTRY_DATA_FORMAT_VERSION
  +:+ serialize.from_int (m_compression_mode e)
  +:+ serialize.from_vector (m_file_ids e)
  +:+ (if decide (m_compression_mode e = ALL)
       then serialize.from_string (compress (m_std_out e))
            +:+ serialize.from_string (compress (m_std_err e))
       else serialize.from_string (m_std_out e)
            +:+ serialize.from_string (m_std_err e))
  +:+ serialize.from_int (serialize.wrap32 (m_return_code e))
  +:+ from_map (m_dependency_records e).

(** [cache_entry_t::deserialize]. *)
Definition deserialize (data : string) : result cache_entry_t :=
  let pos := O in
  '(format_version, pos) ← serialize.to_int data pos;
  if ENTRY_DATA_FORMAT_VERSION <? format_version
  then Throw "Unsupported serialization format version."
  else
    '(compression_mode, pos) ←
       (if 2 <=? format_version then serialize.to_int data pos
        else Ok (NONE, pos));
    '(file_ids, pos) ←
       (if 3 <=? format_version then serialize.to_vector data pos
        else '(files, pos) ← serialize.to_map data pos;
             Ok (v2_files_to_vector files, pos));
    '(std_out, pos) ← serialize.to_string data pos;
    '(std_err, pos) ← serialize.to_string data pos;
    '(return_code, pos) ← serialize.to_int data pos;
    '(dependencies, pos) ←
       (if 4 <=? format_version then to_map data pos
        else Ok ((∅ : dependency_records_t), pos));
    if decide (compression_mode = ALL) then
      std_out ← decompress std_out;
      std_err ← decompress std_err;
      Ok (mkEntry file_ids dependencies compression_mode std_out std_err
            return_code)
    else
      Ok (mkEntry file_ids dependencies compression_mode std_out std_err
            return_code).
End CacheEntry.

Arguments mkEntry {SIZE}.
Arguments m_file_ids {SIZE}.
Arguments m_dependency_records {SIZE}.
Arguments m_compression_mode {SIZE}.
Arguments m_std_out {SIZE}.
Arguments m_std_err {SIZE}.
Arguments m_return_code {SIZE}.

(** ** The direct-mode dependency protocol of [msvc_wrapper.cpp] *)

Section Wrapper.
Variable SIZE : nat.
Abbreviation hash_t := (hash_t SIZE).
Abbreviation dependency_records_t := (dependency_records_t SIZE).
Abbreviation cache_entry_t := (cache_entry_t SIZE).

(** [hasher_t::update_from_file] followed by [final]: the digest of the
    file at a path, or [None] when hashing throws (for instance because
    the file is absent). *)
Variable hash_file : string → option hash_t.

(** [get_dependency_digest] and [set_dependency_digest] on the ledger
    [m_dependencies]. *)
Definition get_dependency_digest (m_dependencies : dependency_records_t)
    (path : string) : option hash_t := m_dependencies !! path.
Definition set_dependency_digest (m_dependencies : dependency_records_t)
    (path : string) (digest : hash_t) : dependency_records_t :=
  <[path := digest]> m_dependencies.

(** The loop of [filter_cache_hit] over the dependency record; the
    ledger is threaded through and returned with the verdict. *)
Fixpoint filter_cache_hit_loop (records : list (string * hash_t))
    (m_dependencies : dependency_records_t)
    : bool * dependency_records_t :=
  match records with
  | [] => (true, m_dependencies)
  | (include, cached) :: more =>
      match get_dependency_digest m_dependencies include with
      | Some digest =>
          if decide (digest ≠ cached) then (false, m_dependencies)
          else filter_cache_hit_loop more m_dependencies
      | None =>
          match hash_file include with
          | Some digest =>
              let m_dependencies :=
                set_dependency_digest m_dependencies include digest in
              if decide (digest ≠ cached) then (false, m_dependencies)
              else filter_cache_hit_loop more m_dependencies
          | None => (false, m_dependencies)     (* [catch (...)] *)
          end
      end
  end.

Definition filter_cache_hit (entry : cache_entry_t)
    (m_dependencies : dependency_records_t)
    : bool * dependency_records_t :=
  filter_cache_hit_loop (map_items (m_dependency_records entry))
    m_dependencies.

(** [m_env_include_paths], as the constructor of [msvc_wrapper_t] fills
    it from the value of [INCLUDE]. *)
Definition env_include_paths (INCLUDE : string) : list string :=
  lower_case <$> filter (λ path, path ≠ "") (split INCLUDE ";").

(** [is_system_include]. *)
Fixpoint is_system_include (m_env_include_paths : list string)
    (path : string) : bool :=
  match m_env_include_paths with
  | [] => false
  | include_path :: more =>
      if starts_with path include_path then true
      else is_system_include more path
  end.

(** The loop of [run_for_miss] over the dependencies the compiler
    reported for one input file.  Hashing is not guarded here: an
    exception leaves [run_for_miss]. *)
Fixpoint collect_dependencies (m_env_include_paths : list string)
    (src_deps : list string)
    (dependencies m_dependencies : dependency_records_t)
    : result (dependency_records_t * dependency_records_t) :=
  match src_deps with
  | [] => Ok (dependencies, m_dependencies)
  | include :: more =>
      match get_dependency_digest m_dependencies include with
      | Some digest =>
          collect_dependencies m_env_include_paths more
            (<[include := digest]> dependencies) m_dependencies
      | None =>
          if is_system_include m_env_include_paths include then
            collect_dependencies m_env_include_paths more dependencies
              m_dependencies
          else
            match hash_file include with
            | None => Throw "hasher_t::update_from_file"
            | Some digest =>
                collect_dependencies m_env_include_paths more
                  (<[include := digest]> dependencies)
                  (set_dependency_digest m_dependencies include digest)
            end
      end
  end.

(** The part of [run_for_miss] that reads and processes the dependency
    information: for every missed input file, in order, the record built
    from the compiler's report.  [get_source_dependencies] stands for the
    function of that name applied to the report of the given input. *)
Variable get_source_dependencies : string → result (list string).

Fixpoint run_for_miss_records (m_env_include_paths : list string)
    (miss_infos : list string) (m_dependencies : dependency_records_t)
    : result (list (string * dependency_records_t) * dependency_records_t) :=
  match miss_infos with
  | [] => Ok ([], m_dependencies)
  | file_name :: more =>
      src_deps ← get_source_dependencies file_name;
      '(dependencies, m_dependencies) ←
         collect_dependencies m_env_include_paths src_deps ∅ m_dependencies;
      '(records, m_dependencies) ←
         run_for_miss_records m_env_include_paths more m_dependencies;
      Ok ((file_name, dependencies) :: records, m_dependencies)
  end.
End Wrapper.

(** ** The statements of the design document about the parser *)

(** The canonical form [All] in the words of the design document: [/c],
    the type flag, the debug-format flag, the other options, [/Fd:], the
    includes, the defines, [/Fo:], the precompiled-header flags, and the
    input files, each rendered by the type [type_of] gives it. *)
Definition type_flag (t : InputType) : list string :=
  match t with kC => ["/TC"] | kCpp => ["/TP"] | _ => [] end.
Definition debug_flag (d : DebugFormat) : list string :=
  match d with
  | kNone => []
  | kObjectFile => ["/Z7"]
  | kSeparateFile => ["/Zi"]
  | kSeparateFileEditAndContinue => ["/ZI"]
  end.
Definition flag_if_set (flag v : string) : list string :=
  if decide (v = "") then [] else [flag +:+ v].
Definition render_input (t : InputType) (n : string) : string :=
  match t with kC => "/Tc" +:+ n | kCpp => "/Tp" +:+ n | _ => n end.
Definition canonical_all (type_of : InputFile → InputType)
    (p : cmdline_parser_t) : list string :=
  (if m_compile_only p then ["/c"] else [])
  ++ type_flag (m_default_input_type p)
  ++ debug_flag (m_debug_format p)
  ++ (String.append "/" <$> m_options p)
  ++ flag_if_set "/Fd:" (m_pdb_path p)
  ++ (String.append "/I" <$> m_includes p)
  ++ (String.append "/D " <$> m_defines p)
  ++ flag_if_set "/Fo:" (m_object_path p)
  ++ (if enabled (create (m_pch_config p))
      then ["/Yc" +:+ value (create (m_pch_config p))] else [])
  ++ (if enabled (use (m_pch_config p))
      then ["/Yu" +:+ value (use (m_pch_config p))] else [])
  ++ (if ignore (m_pch_config p) then ["/Y-"] else [])
  ++ flag_if_set "/Fp:" (path (m_pch_config p))
  ++ ((λ f, render_input (type_of f) (name f)) <$> m_input_files p).

(** Scenario S1 of the design document. *)
Definition argv_S1 : list string :=
  ["cl"; "/c"; "/I"; "C:\inc"; "foo.cpp"; "/Fofoo.obj"].

(** The environment with [CL] and [_CL_] set, and the one with none. *)
Definition env_cl (a b : string) : string → option string :=
  λ var, if String.eqb var "CL" then Some a
         else if String.eqb var "_CL_" then Some b
         else None.
Definition env_unset : string → option string := λ _, None.

(** A tokenizer for the examples: [split_args] on a line without quotes or
    escapes cuts at white space.  A file system without files. *)
Definition words_tokenizer : string → list string := String.words.
Definition no_files : string → result string :=
  λ _, Throw "file not found".

(** An option body that [parse_list] does not handle specially: it fails
    every test of the chain and is appended to [m_options]. *)
Definition unhandled (option : string) : bool :=
  negb (String.eqb option "link") && negb (String.eqb option "c")
  && negb (starts_with option "D") && negb (starts_with option "Fd")
  && negb (starts_with option "Fo") && negb (starts_with option "Fp")
  && negb (starts_with option "I") && negb (String.eqb option "TC")
  && negb (String.eqb option "TP")
  && negb (starts_with option "Tc" || starts_with option "Tp")
  && negb (String.eqb option "Y-") && negb (starts_with option "Yc")
  && negb (starts_with option "Yu") && negb (String.eqb option "Z7")
  && negb (String.eqb option "Zi") && negb (String.eqb option "ZI").

(** What every parser state that [parse_list] can reach satisfies. *)
Definition input_ok (f : InputFile) : Prop :=
  match type f with
  | kUnknown => get_option (name f) = None ∧ starts_with (name f) "@" = false
  | kC | kCpp => sanitize_path (name f) = name f
  | kObject => False
  end.
Definition flag_ok (f : flag_option_t) : Prop :=
  sanitize_path (value f) = value f ∧ (enabled f = false → value f = "").

Record canonical (p : cmdline_parser_t) : Prop := mkCanonical {
  can_type : m_default_input_type p ≠ kUnknown;
  can_includes : Forall (λ i, sanitize_path i = i) (m_includes p);
  can_options : Forall (λ o, unhandled o = true) (m_options p);
  can_pdb : sanitize_path (m_pdb_path p) = m_pdb_path p;
  can_obj : sanitize_path (m_object_path p) = m_object_path p;
  can_create : flag_ok (create (m_pch_config p));
  can_use : flag_ok (use (m_pch_config p));
  can_pch_path : sanitize_path (path (m_pch_config p)) = path (m_pch_config p);
  can_inputs : Forall input_ok (m_input_files p) }.

(** The parsed models whose re-emission parses back to themselves: no
    define (a define is emitted as the single token [/D <value>], whose
    value part starts with a space), and no empty include or typed input
    name (an empty suffix makes the parser look at the next token). *)
Definition reemittable (p : cmdline_parser_t) : Prop :=
  m_defines p = []
  ∧ Forall (λ i, i ≠ "") (m_includes p)
  ∧ Forall (λ f, type f ≠ kUnknown → name f ≠ "") (m_input_files p).

(** ** The statements of the design document about the codec *)

(** The values of [int32_t], and the sizes a 32-bit signed length can
    hold. *)
Definition in_int32 (z : Z) : Prop := -2^31 ≤ z < 2^31.
Definition fits_int32 (n : nat) : Prop := Z.of_nat n < 2^31.

(** The reader stands at [pos] in [data], in front of the bytes [x]. *)
Definition at_pos (data : string) (pos : nat) (x : string) : Prop :=
  (pos ≤ String.length data)%nat ∧ substr_from data pos = x.

(** The map that [serialize::to_map] builds from the pairs of a stream:
    [result[key] = value] for each pair in turn. *)
Definition pairs_to_map {V : Type} (pairs : list (string * V))
    : gmap string V :=
  foldl (λ acc e, <[e.1 := e.2]> acc) ∅ pairs.

(** The bodies of [from_vector] and [from_pairs] behind their counts. *)
Definition enc_strings (l : list string) : string :=
  foldr (λ e acc, serialize.from_string e +:+ acc) "" l.
Definition enc_pairs (l : list (string * string)) : string :=
  foldr (λ e acc,
           serialize.from_string e.1 +:+ serialize.from_string e.2 +:+ acc)
    "" l.

(** The body of [from_map] (dependency records) behind its count. *)
Definition enc_deps {SIZE : nat} (l : list (string * hash_t SIZE)) : string :=
  foldr (λ element acc,
           (serialize.from_string element.1 +:+ from_string SIZE element.2)
           +:+ acc) "" l.

Section CodecStatements.
Variable SIZE : nat.
Variable compress : string → string.

(** The stored form of a captured output. *)
Definition stored (mode : comp_mode_t) (s : string) : string :=
  if decide (mode = ALL) then compress s else s.

(** Every length and count of an entry fits a signed 32-bit integer, and
    its two [int] members are in range. *)
Record entry_fits (e : cache_entry_t SIZE) : Prop := mkFits {
  fits_mode : in_int32 (m_compression_mode e);
  fits_code : in_int32 (m_return_code e);
  fits_ids : fits_int32 (length (m_file_ids e));
  fits_id : Forall (λ x, fits_int32 (String.length x)) (m_file_ids e);
  fits_out :
    fits_int32 (String.length (stored (m_compression_mode e) (m_std_out e)));
  fits_err :
    fits_int32 (String.length (stored (m_compression_mode e) (m_std_err e)));
  fits_deps : fits_int32 (size (m_dependency_records e));
  fits_dep : ∀ k h, m_dependency_records e !! k = Some h →
                    fits_int32 (String.length k) }.

Definition pairs_fit (pairs : list (string * string)) : Prop :=
  fits_int32 (length pairs)
  ∧ Forall (λ e, fits_int32 (String.length e.1)
                 ∧ fits_int32 (String.length e.2)) pairs.

(** The layout of format version [v], section 4.4 of the design
    document: the version; the compression mode (from version 2 on); the
    file identifiers, a vector from version 3 on and a string→string map
    written as [pairs] before; the two captured outputs; the return code;
    the dependency record (from version 4 on). *)
Definition layout (v : Z) (e : cache_entry_t SIZE)
    (pairs : list (string * string)) : string :=
  serialize.from_int v
  +:+ (if 2 <=? v then serialize.from_int (m_compression_mode e) else "")
  +:+ (if 3 <=? v then serialize.from_vector (m_file_ids e)
       else serialize.from_pairs pairs)
  +:+ serialize.from_string (stored (m_compression_mode e) (m_std_out e))
  +:+ serialize.from_string (stored (m_compression_mode e) (m_std_err e))
  +:+ serialize.from_int (serialize.wrap32 (m_return_code e))
  +:+ (if 4 <=? v then from_map SIZE (m_dependency_records e) else "").

(** What the reader makes of that layout. *)
Definition layout_entry (v : Z) (e : cache_entry_t SIZE)
    (pairs : list (string * string)) : cache_entry_t SIZE :=
  mkEntry
    (if 3 <=? v then m_file_ids e
     else v2_files_to_vector (pairs_to_map pairs))
    (if 4 <=? v then m_dependency_records e else ∅)
    (m_compression_mode e) (m_std_out e) (m_std_err e) (m_return_code e).
End CodecStatements.

(** Concrete data for the examples of the codec: a two-byte digest, a
    compressor that puts one byte in front, entries and blobs. *)
Definition digest_ab : hash_t 2 := [# "a"%char; "b"%char].
Definition digest_cd : hash_t 2 := [# "c"%char; "d"%char].
Definition toy_compress (s : string) : string := String "Z" s.
Definition toy_decompress (s : string) : result string := Ok (substr_from s 1).

Definition entry_small : cache_entry_t 2 :=
  mkEntry ["obj"; "pch"] {[ "d:\src\x.h" := digest_ab ]} ALL
    "out" "warning" (-3).

Definition entry_legacy : cache_entry_t 2 := mkEntry [] ∅ NONE "out" "" 1.

Definition pairs_ba : list (string * string) := [("b", "1"); ("a", "2")].

(** A blob in the layout that precedes version 2. *)
Definition blob_v1 : string :=
  serialize.from_int 1 +:+ serialize.from_pairs pairs_ba
  +:+ serialize.from_string "out" +:+ serialize.from_string ""
  +:+ serialize.from_int 1.

(** A blob of version 2 whose map section holds the pairs [b] then [a]. *)
Definition blob_v2 : string :=
  serialize.from_int 2 +:+ serialize.from_int NONE
  +:+ serialize.from_pairs pairs_ba
  +:+ serialize.from_string "out" +:+ serialize.from_string ""
  +:+ serialize.from_int 1.

(** A string of [n] bytes, and an entry whose captured output has 2^31
    bytes. *)
Fixpoint filler (n : nat) : string :=
  match n with O => "" | S n' => String "a" (filler n') end.
Definition entry_oversized : cache_entry_t 2 :=
  mkEntry [] ∅ NONE (filler (Z.to_nat (2^31))) "" 0.

(** ** The statements of the design document about the wrapper *)

(** The current digest of an include: the ledger's when it has one, else
    the hash of the file on disk ([None] when hashing throws). *)
Definition current_digest {SIZE : nat} (hash_file : string → option (hash_t SIZE))
    (m_dependencies : dependency_records_t SIZE) (include : string)
    : option (hash_t SIZE) :=
  match m_dependencies !! include with
  | Some digest => Some digest
  | None => hash_file include
  end.

(** An include that the loop of [filter_cache_hit] looks at: it is in the
    record, and the pairs in front of it, in the order of iteration, all
    have the cached digest as current digest [cur]. *)
Definition looked_at {SIZE : nat} (records : list (string * hash_t SIZE))
    (cur : string → option (hash_t SIZE)) (include : string) : Prop :=
  ∃ front cached rest,
    records = front ++ (include, cached) :: rest
    ∧ Forall (λ e, cur e.1 = Some e.2) front.

(** A path begins with the lower-cased form of a non-empty entry of
    [INCLUDE]. *)
Definition under_include (INCLUDE : string) (path : string) : Prop :=
  ∃ e, e ∈ split INCLUDE ";" ∧ e ≠ "" ∧ starts_with path (lower_case e) = true.

(** In the words of the design document: a path "begins
    (case-insensitively, by string prefix on the lower-cased path) with"
    a directory of [INCLUDE], the directories being its non-empty
    entries. *)
Definition begins_with_include (INCLUDE : string) (path : string) : Prop :=
  ∃ e, e ∈ split INCLUDE ";" ∧ e ≠ ""
       ∧ starts_with (lower_case path) (lower_case e) = true.

(** Concrete data for the examples of the wrapper. *)
Definition hash_any : string → option (hash_t 2) := λ _, Some digest_ab.
Definition report_lower : string → result (list string) :=
  λ _, Ok ["c:\sys\stdio.h"; "d:\src\x.h"].
Definition report_mixed : string → result (list string) :=
  λ _, Ok ["C:\Sys\stdio.h"].

(** A response file with an empty second line. *)
Definition resp_files : string → result string :=
  λ path, if String.eqb path "resp.txt"
          then Ok ("/DFOO=1" +:+ String "010" (String "010" "bar.c"))
          else Throw "file not found".

(** ** Further functions of the embedded sources *)

(** Occurrences of a character in a string. *)
Fixpoint count_char (c : ascii) (s : string) : nat :=
  match s with
  | EmptyString => O
  | String x rest => (if Ascii.eqb x c then 1 else 0) + count_char c rest
  end.

(** *** [version_t] of [wrappers/msvc_wrapper.hpp] *)

(** [static_cast<uint16_t>]. *)
Definition uint16 (z : Z) : Z := z mod 2^16.

(** Four [uint16_t] members. *)
Record version_t := mkVersion {
  m_major : Z;
  m_minor : Z;
  m_build : Z;
  m_qfe : Z }.

(** The values the members can hold. *)
Definition version_ok (v : version_t) : Prop :=
  0 ≤ m_major v < 2^16 ∧ 0 ≤ m_minor v < 2^16
  ∧ 0 ≤ m_build v < 2^16 ∧ 0 ≤ m_qfe v < 2^16.

(** [version_t(uint64_t rhs)]. *)
Definition version_of_uint64 (rhs : Z) : version_t :=
  mkVersion (uint16 (Z.shiftr rhs 48)) (uint16 (Z.shiftr rhs 32))
    (uint16 (Z.shiftr rhs 16)) (uint16 rhs).

(** [operator uint64_t()]. *)
Definition version_to_uint64 (v : version_t) : Z :=
  Z.lor (Z.lor (Z.lor (Z.shiftl (m_major v) 48) (Z.shiftl (m_minor v) 32))
           (Z.shiftl (m_build v) 16))
    (m_qfe v).

(** [operator<], [operator<=] and [operator==]; [>], [>=] and [!=] are
    these with the operands swapped or negated. *)
Definition version_lt (v w : version_t) : bool :=
  version_to_uint64 v <? version_to_uint64 w.
Definition version_le (v w : version_t) : bool :=
  version_to_uint64 v <=? version_to_uint64 w.
Definition version_eq (v w : version_t) : bool :=
  version_to_uint64 v =? version_to_uint64 w.

(** [ss << srcs[i]] for a [uint16_t]: the decimal numeral, without leading
    zeros. *)
Definition print_decimal (z : Z) : string :=
  DecimalString.NilZero.string_of_uint (N.to_uint (Z.to_N z)).

(** [std::atoi] on the bytes of a string: leading white space, an optional
    sign, then decimal digits up to the first other character.  The result
    is an [int]: for a numeral whose value is not an [int] value the
    behaviour of [atoi] is undefined. *)
Definition digit_value (c : ascii) : option Z :=
  let n := N_of_ascii c in
  if ((48 <=? n) && (n <=? 57))%N then Some (Z.of_N n - 48) else None.
Fixpoint atoi_digits (s : string) (acc : Z) : Z :=
  match s with
  | EmptyString => acc
  | String c rest =>
      match digit_value c with
      | Some d => atoi_digits rest (10 * acc + d)
      | None => acc
      end
  end.
Fixpoint skip_space (s : string) : string :=
  match s with
  | String c rest => if Ascii.is_space c then skip_space rest else s
  | EmptyString => s
  end.
Definition numeral_value (s : string) : Z :=
  match skip_space s with
  | String "-" rest => - atoi_digits rest 0
  | String "+" rest => atoi_digits rest 0
  | s' => atoi_digits s' 0
  end.
Definition atoi (s : string) : result Z :=
  let value := numeral_value s in
  if (-2^31 <=? value) && (value <? 2^31) then Ok value else Undefined.

(** [as_string(num_components)]: the first [min(4, num_components)]
    members, with a dot before every member but the first. *)
Definition as_string (v : version_t) (num_components : nat) : string :=
  let srcs := [m_major v; m_minor v; m_build v; m_qfe v] in
  let count := Nat.min (length srcs) num_components in
  String.concat "." (print_decimal <$> take count srcs).

(** [version_t(const std::string& rhs)]: all members zero, then member [i]
    from [vals[i]] for [i < min(4, vals.size())], in this order. *)
Definition version_of_string (rhs : string) : result version_t :=
  let vals := split rhs "." in
  let member i : result Z :=
    match vals !! i with
    | Some val => z ← atoi val; Ok (uint16 z)
    | None => Ok 0
    end in
  major ← member 0%nat;
  minor ← member 1%nat;
  build ← member 2%nat;
  qfe ← member 3%nat;
  Ok (mkVersion major minor build qfe).

Record tool_version_t := mkToolVersion {
  host_arch : string;
  target_arch : string;
  vc_version : version_t }.

(** [get_tool_version].  [getenv] gives the value of a defined environment
    variable ([env_var_t] converts to [true] for a defined variable);
    [path_split[i]] is only evaluated under a test of [path_num_parts]. *)
Definition get_tool_version (getenv : string → option string)
    (compiler_path : string) : result tool_version_t :=
  let path_split := split compiler_path "\" in
  let path_num_parts := length path_split in
  let part i := default "" (path_split !! i) in
  let '(host_arch, path_valid) :=
    match getenv "VSCMD_ARG_HOST_ARCH" with
    | Some x => (x, false)
    | None =>
        if (3 <=? path_num_parts)%nat
           && starts_with (part (path_num_parts - 3)%nat) "Host"
        then (substr_from (part (path_num_parts - 3)%nat) 4, true)
        else ("", false)
    end in
  let target_arch :=
    match getenv "VSCMD_ARG_TGT_ARCH" with
    | Some x => x
    | None => if path_valid then part (path_num_parts - 2)%nat else ""
    end in
  if String.eqb host_arch "" || String.eqb target_arch "" then
    Throw "Failed to get compiler host/target architecture."
  else
    match getenv "VCToolsVersion" with
    | Some x =>
        version ← version_of_string x;
        Ok (mkToolVersion host_arch target_arch version)
    | None =>
        if (5 <=? path_num_parts)%nat && path_valid then
          version ← version_of_string (part (path_num_parts - 5)%nat);
          Ok (mkToolVersion host_arch target_arch version)
        else Throw "Failed to get VC version."
    end.

(** [get_program_id]. *)
Definition get_program_id (m_tool_version : tool_version_t) : string :=
  "1" +:+ host_arch m_tool_version +:+ target_arch m_tool_version
  +:+ as_string (vc_version m_tool_version) 4.

(** *** More of the wrapper in [msvc_wrapper.cpp] *)

(** The checks of [resolve_args] on the parsed command line and the tool
    version. *)
Definition check_args (m_parser : cmdline_parser_t)
    (m_tool_version : tool_version_t) : result unit :=
  if negb (m_compile_only m_parser) then
    Throw "Cannot handle invocation with chained link."
  else if (1 <? length (m_input_files m_parser))%nat
          && negb (obj_path_is_dir m_parser) then
    Throw "Single object file path specified for multiple inputs."
  else if bool_decide (m_debug_format m_parser = kSeparateFile)
          || bool_decide (m_debug_format m_parser
                          = kSeparateFileEditAndContinue) then
    Throw "Cannot handle invocation with shared pdb file. Use /Z7 instead."
  else if version_lt (vc_version m_tool_version) (mkVersion 14 27 0 0) then
    Throw "VC Tools >= 14.27 is required for /sourceDependencies support."
  else Ok tt.

(** [resolve_args]: a fresh parser parses [m_args], then the checks. *)
Definition resolve_args (split_args : string → list string)
    (file_read : string → result string) (ucs2_to_utf8 : string → string)
    (wchar_len : nat) (getenv : string → option string)
    (m_args : list string) (m_tool_version : tool_version_t)
    : result cmdline_parser_t :=
  m_parser ← parse split_args file_read ucs2_to_utf8 wchar_len getenv m_args
               new_parser;
  _ ← check_args m_parser m_tool_version;
  Ok m_parser.

(** [get_relevant_arguments]. *)
Definition get_relevant_arguments (m_parser : cmdline_parser_t)
    : list string :=
  merge m_parser kDirectModeCommonArgs.

(** The label of the effective type in [preprocess_source], and the
    payload for a file of that type with the given content. *)
Definition type_name (file_type : InputType) : string :=
  match file_type with
  | kC => "c"
  | kCpp => "cpp"
  | kObject => "object"
  | kUnknown => "unknown"
  end.
Definition payload (file_type : InputType) (content : string) : string :=
  type_name file_type +:+ content.

(** [preprocess_source] (direct mode): for every input file in turn,
    [emplace] of the file name with the payload; [emplace] keeps the entry
    of a name that is already present, and an exception of [file::read]
    leaves the function. *)
Fixpoint preprocess_loop (file_read : string → result string)
    (m_parser : cmdline_parser_t) (files : list InputFile)
    (preprocessed : gmap string string) : result (gmap string string) :=
  match files with
  | [] => Ok preprocessed
  | file :: more =>
      content ← file_read (name file);
      let source := payload (effective_file_type m_parser file) content in
      preprocess_loop file_read m_parser more
        (match preprocessed !! name file with
         | Some _ => preprocessed
         | None => <[name file := source]> preprocessed
         end)
  end.
Definition preprocess_source (file_read : string → result string)
    (m_parser : cmdline_parser_t) : result (gmap string string) :=
  preprocess_loop file_read m_parser (m_input_files m_parser) ∅.

(** [input_file_by_name]: the first input file of that name. *)
Fixpoint input_file_by_name (files : list InputFile) (n : string)
    : result InputFile :=
  match files with
  | [] => Throw ("Failed to lookup " +:+ n)
  | file :: more =>
      if String.eqb (name file) n then Ok file
      else input_file_by_name more n
  end.

(** The argument list that [run_for_miss] builds for the missed inputs
    [miss_infos] (their names) and the directory [preproc_dir] of the
    dependency reports. *)
Fixpoint miss_args (files : list InputFile) (miss_infos : list string)
    : result (list string) :=
  match miss_infos with
  | [] => Ok []
  | file_name :: more =>
      input_file ← input_file_by_name files file_name;
      args ← miss_args files more;
      Ok (as_arg input_file :: args)
  end.
Definition run_for_miss_args (m_parser : cmdline_parser_t)
    (miss_infos : list string) (preproc_dir : string)
    : result (list string) :=
  args ← miss_args (m_input_files m_parser) miss_infos;
  Ok (merge m_parser kSkipInputs ++ args
      ++ ["/sourceDependencies " +:+ preproc_dir]).

(** A parser state that has everything of an earlier one: the lists are
    extended at their end and the flags that are set stay set. *)
Record extends (p q : cmdline_parser_t) : Prop := mkExtends {
  ext_compile_only : m_compile_only p = true → m_compile_only q = true;
  ext_includes : m_includes p `prefix_of` m_includes q;
  ext_defines : m_defines p `prefix_of` m_defines q;
  ext_options : m_options p `prefix_of` m_options q;
  ext_inputs : m_input_files p `prefix_of` m_input_files q;
  ext_ignore : ignore (m_pch_config p) = true → ignore (m_pch_config q) = true;
  ext_create : enabled (create (m_pch_config p)) = true →
               enabled (create (m_pch_config q)) = true;
  ext_use : enabled (use (m_pch_config p)) = true →
            enabled (use (m_pch_config q)) = true }.

(** [pch_config_t::is_create]. *)
Definition is_create (c : pch_config_t) : bool :=
  if ignore c then false else enabled (create c).

(** Concrete data for the examples of response files: a file that names
    itself, and a file with one line of options. *)
Definition self_including : string → result string :=
  λ path, if String.eqb path "a.rsp" then Ok "@a.rsp"
          else Throw "file not found".
Definition one_line_file : string → result string :=
  λ path, if String.eqb path "resp.txt" then Ok "/D FOO=1 bar.c"
          else Throw "file not found".

(** Concrete data for the examples of the tool version: an environment
    that only defines the host architecture, and the parts of a compiler
    path. *)
Definition env_host_only : string → option string :=
  λ var, if String.eqb var "VSCMD_ARG_HOST_ARCH" then Some "x64" else None.
Definition msvc_root : list string := ["C:"; "VS"; "VC"; "Tools"; "MSVC"].
Definition tool_14_29 : tool_version_t :=
  mkToolVersion "x64" "x86" (mkVersion 14 29 30133 0).

(** Concrete data for the examples of the wrapper's checks: the parsed
    model of [cl /c a.cpp], and one with two inputs of which one is typed. *)
Definition parsed_c_a : cmdline_parser_t :=
  append_file (set_compile_only new_parser) "a.cpp" kUnknown.
Definition parsed_two : cmdline_parser_t :=
  append_file (append_file (set_compile_only new_parser) "a.c" kUnknown)
    "b.x" kCpp.

(** A file system with the one source file [a.cpp]. *)
Definition one_source : string → result string :=
  λ path, if String.eqb path "a.cpp" then Ok "int x;"
          else Throw "file not found".

(** The text of a file whose lines all end in carriage return and line
    feed, or in line feed alone; and the calls [callback(line)] for the
    lines of a list in turn. *)
Definition crlf_text (lines : list string) : string :=
  foldr (λ line acc, line +:+ String "013" (String "010" acc)) "" lines.
Definition lf_text (lines : list string) : string :=
  foldr (λ line acc, line +:+ String "010" acc) "" lines.
Fixpoint feed {S : Type} (callback : string → S → result S)
    (lines : list string) (st : S) : result S :=
  match lines with
  | [] => Ok st
  | line :: more => st' ← callback line st; feed callback more st'
  end.

(** The content starts with no byte-order mark. *)
Definition no_bom (content : string) : Prop :=
  starts_with content (String "255" (String "254" "")) = false
  ∧ starts_with content (String "239" (String "187" (String "191" "")))
    = false.

(** A response file in the CRLF convention with an empty second line. *)
Definition resp_crlf : string → result string :=
  λ path, if String.eqb path "resp.txt"
          then Ok (crlf_text ["/DFOO=1"; ""; "bar.c"])
          else Throw "file not found".

(** ** [sys/filetracker.cpp] *)

(** [expected_file_t] ([wrappers/program_wrapper.hpp]) as the braces
    [{path, true}] build it, and [build_files_t], a [std::map] from the
    identifier of a build file to it. *)
Record expected_file_t := mkExpected {
  expected_path : string;
  required : bool }.
Abbreviation build_files_t := (gmap string expected_file_t).

(** [build_files.at(key)]. *)
Definition at_key (build_files : build_files_t) (key : string)
    : result expected_file_t :=
  match build_files !! key with
  | Some file => Ok file
  | None => Throw "std::out_of_range"
  end.

(** [std::replace(begin, end, from, to)] on a string. *)
Definition replace_char (from to : ascii) (s : string) : string :=
  map_chars (λ c, if Ascii.eqb c from then to else c) s.

Module filetracker.

(** The data members of [tracking_log_t]. *)
Record tracking_log_t := mkLog {
  m_enabled : bool;
  m_intermediate_dir : string;
  m_toolchain : string;
  m_sources : list string;
  m_root : string }.

Section TrackingLog.
(** [file::resolve_path], [file::get_file_part] (with the extension) and
    [file::append_path] of [base/file_utils], outside the embedded
    sources. *)
Variable resolve_path : string → string.
Variable get_file_part : string → string.
Variable append_path : string → string → string.

(** The constructor; [enabled] is [env_var_t("TRACKER_ENABLED").as_bool()]
    and [get_env] reads a variable of the environment. *)
Definition new_tracking_log (enabled : bool) (get_env : string → string)
    : tracking_log_t :=
  if negb enabled then mkLog false "" "" [] ""
  else mkLog true (get_env "TRACKER_INTERMEDIATE")
         (get_env "TRACKER_TOOLCHAIN") [] "".

Definition fullpath (path : string) : string :=
  upper_case (resolve_path path).

Definition get_build_files (t : tracking_log_t) (filename : string)
    : build_files_t :=
  if negb (m_enabled t) then ∅
  else
    let basename := replace_char "." "_" (get_file_part filename) in
    let tlog_name_read :=
      m_toolchain t +:+ "." +:+ basename +:+ ".read.1.tlog" in
    let tlog_name_write :=
      m_toolchain t +:+ "." +:+ basename +:+ ".write.1.tlog" in
    <["tlog_w" :=
        mkExpected (append_path (m_intermediate_dir t) tlog_name_write) true]>
      (<["tlog_r" :=
           mkExpected (append_path (m_intermediate_dir t) tlog_name_read)
             true]> ∅).

Definition add_source (t : tracking_log_t) (path : string)
    : tracking_log_t :=
  if negb (m_enabled t) then t
  else mkLog (m_enabled t) (m_intermediate_dir t) (m_toolchain t)
         (m_sources t ++ [fullpath path]) (m_root t).

(** [std::sort] on strings gives the ascending arrangement, which is
    unique; [merge_sort] computes it. *)
Definition finalize_sources (t : tracking_log_t) : tracking_log_t :=
  if negb (m_enabled t) then t
  else
    let sorted := merge_sort String.le (m_sources t) in
    mkLog (m_enabled t) (m_intermediate_dir t) (m_toolchain t) sorted
      ("^" +:+ join "|" sorted).

(** [write_logs]: the calls of [file::write] it makes, each as the pair
    of the content and the path, in order.  Both lookups of the first
    block precede its write. *)
Definition write_logs (t : tracking_log_t) (source : string)
    (build_files : build_files_t) (dependencies : list string)
    : result (list (string * string)) :=
  if negb (m_enabled t) then Ok []
  else
    object ← at_key build_files "object";
    let object_path := fullpath (expected_path object) in
    let crlf := String "013" (String "010" "") in
    tlog_r ← at_key build_files "tlog_r";
    let read_log :=
      [m_root t] ++ [fullpath source] ++ dependencies ++ [object_path] in
    let pch :=
      match build_files !! "pch" with
      | Some file => [expected_path file]
      | None => []
      end in
    let write_log := [m_root t] ++ pch ++ [object_path] in
    tlog_w ← at_key build_files "tlog_w";
    Ok [(upper_case (join crlf read_log), expected_path tlog_r);
        (join crlf write_log, expected_path tlog_w)].
End TrackingLog.
End filetracker.

(** [msvc_wrapper_t::get_build_files] and [pch_config_t::output_path] of
    [msvc_wrapper.cpp]. *)
Section BuildFiles.
(** [file::get_file_part(path, false)], [file::change_extension] and
    [file::append_path] of [base/file_utils], and the [get_build_files]
    of the tracking log [m_tlog]. *)
Variable get_file_part_no_ext : string → string.
Variable change_extension : string → string → string.
Variable append_path : string → string → string.
Variable tlog_get_build_files : string → build_files_t.

Definition output_path (c : pch_config_t) (input_file default_name : string)
    : string :=
  if String.eqb (path c) "" then change_extension input_file ".pch"
  else
    match String.rev (path c) with
    | String last _ =>
        if Ascii.eqb last "\" || Ascii.eqb last "/"
        then append_path (path c) default_name
        else change_extension (path c) ".pch"
    | EmptyString => change_extension (path c) ".pch"
    end.

(** [files.insert(first, last)] keeps the entries that are present, as
    the union of maps does for its left operand. *)
Definition get_build_files (m_parser : cmdline_parser_t)
    (m_tool_version : tool_version_t) (key : string) : build_files_t :=
  let object_path :=
    if negb (obj_path_is_dir m_parser) then
      if String.eqb (get_extension (m_object_path m_parser)) ""
      then m_object_path m_parser +:+ ".obj"
      else m_object_path m_parser
    else m_object_path m_parser +:+ get_file_part_no_ext key +:+ ".obj" in
  let files : build_files_t := <["object" := mkExpected object_path true]> ∅ in
  let files :=
    if is_create (m_pch_config m_parser) then
      let default_name :=
        "vc" +:+ as_string (vc_version m_tool_version) 1 +:+ "0.pch" in
      <["pch" :=
          mkExpected (output_path (m_pch_config m_parser) key default_name)
            true]> files
    else files in
  files ∪ tlog_get_build_files key.
End BuildFiles.

(** A tracking log that is enabled, for the examples. *)
Definition log_on : filetracker.tracking_log_t :=
  filetracker.mkLog true "obj" "cl" [] "".

(** ** Properties of the command-line parser *)

(** *** The embedding on the scenarios of the design document *)

Example split_keeps_empty_pieces :
  split "C:\sys;;D:\inc;" ";" = ["C:\sys"; ""; "D:\inc"; ""]
  ∧ split "" ";" = [""].
Proof. split; reflexivity. Qed.

Example getlines_of_stream :
  getlines ("a" +:+ String "010" (String "010" "b")) = ["a"; ""; "b"]
  ∧ getlines ("a" +:+ String "010" "") = ["a"]
  ∧ getlines "" = [].
Proof. repeat split; reflexivity. Qed.

Example sanitize_path_drive_letter :
  sanitize_path "c:\inc" = "C:\inc" ∧ sanitize_path "c:" = "c:"
  ∧ sanitize_path "inc" = "inc".
Proof. repeat split; reflexivity. Qed.

(** Scenario S2: [cl -c @resp.txt] with [/D FOO=1 bar.c] in the file. *)
Example scenario_S2 :
  ∃ p,
    parse words_tokenizer
      (λ path, if String.eqb path "resp.txt" then Ok "/D FOO=1 bar.c"
               else Throw "file not found")
      id 2 env_unset ["cl"; "-c"; "@resp.txt"] new_parser = Ok p
    ∧ m_compile_only p = true ∧ m_defines p = ["FOO=1"]
    ∧ m_input_files p = [mkInputFile "bar.c" kUnknown]
    ∧ effective_file_type p (mkInputFile "bar.c" kUnknown) = kC.
Proof. eexists. split; [vm_compute; reflexivity|]. repeat split. Qed.

(** Scenario S6: [CL=/W4], [cl /c foo.c], [_CL_=/DX=1]. *)
Example scenario_S6 :
  ∃ p,
    parse words_tokenizer no_files id 2 (env_cl "/W4" "/DX=1")
      ["cl"; "/c"; "foo.c"] new_parser = Ok p
    ∧ m_options p = ["W4"] ∧ m_defines p = ["X=1"]
    ∧ m_input_files p = [mkInputFile "foo.c" kUnknown].
Proof. eexists. split; [vm_compute; reflexivity|]. repeat split. Qed.

(** *** Tokens and lists of tokens *)


Lemma app_String (c : ascii) (s t : string) :
  String c s +:+ t = String c (s +:+ t).
Proof. reflexivity. Qed.
Lemma app_empty (t : string) : "" +:+ t = t.
Proof. reflexivity. Qed.

Lemma substr_from_0 (s : string) : substr_from s 0 = s.
Proof. by destruct s. Qed.
Lemma substr_from_S (c : ascii) (s : string) (n : nat) :
  substr_from (String c s) (S n) = substr_from s n.
Proof. reflexivity. Qed.
Lemma starts_with_empty (s : string) : starts_with s "" = true.
Proof. by destruct s. Qed.
Lemma starts_with_cons (c c' : ascii) (s p : string) :
  starts_with (String c s) (String c' p) = Ascii.eqb c c' && starts_with s p.
Proof. reflexivity. Qed.
Lemma eqb_cons (c c' : ascii) (s s' : string) :
  String.eqb (String c s) (String c' s') = Ascii.eqb c c' && String.eqb s s'.
Proof. cbn. by destruct (Ascii.eqb c c'). Qed.

Ltac norm_str :=
  rewrite ?app_String, ?app_empty, ?substr_from_S, ?substr_from_0,
    ?starts_with_cons, ?starts_with_empty, ?eqb_cons.

Lemma upper_char_idemp (c : ascii) : upper_char (upper_char c) = upper_char c.
Proof. destruct c as [[] [] [] [] [] [] [] []]; reflexivity. Qed.

Lemma sanitize_path_idemp (x : string) :
  sanitize_path (sanitize_path x) = sanitize_path x.
Proof.
  destruct x as [|c0 [|c1 rest]]; try reflexivity.
  unfold sanitize_path at 2.
  destruct ((2 <? String.length (String c0 (String c1 rest)))%nat
            && Ascii.eqb c1 ":") eqn:E; [|reflexivity].
  cbn [substr String.substring upper_case map_chars substr_from].
  norm_str. unfold sanitize_path.
  cbn [String.length] in *. rewrite E.
  cbn [substr String.substring upper_case map_chars substr_from].
  norm_str. by rewrite upper_char_idemp.
Qed.

Lemma retrieve_arg_no_next item uses_colon arg adv :
  retrieve_arg item uses_colon None = Ok (arg, adv) →
  adv = false ∧ ∀ nxt, retrieve_arg item uses_colon nxt = Ok (arg, false).
Proof.
  unfold retrieve_arg, next_item. intros H.
  destruct (negb _); [|destruct uses_colon]; naive_solver.
Qed.

(** A token that is handled at the end of a list is handled the same way
    in front of any other token. *)
Lemma parse_item_no_next parse_file p item s :
  parse_item parse_file p item None = Ok s →
  (s = Break ∨ ∃ p', s = Continue p' false) ∧
  ∀ nxt, parse_item parse_file p item nxt = Ok s.
Proof.
  unfold parse_item. intros H.
  destruct (get_option item) as [option|].
  - repeat match type of H with
      | (if ?b then _ else _) = _ => destruct b eqn:?
      end;
    try (injection H as <-; split; [eauto | done]);
    match type of H with
    | mbind _ (retrieve_arg ?i ?c None) = _ =>
        destruct (retrieve_arg i c None) as [[arg adv]| |] eqn:E;
        cbn in H; try discriminate;
        apply retrieve_arg_no_next in E as [-> E];
        injection H as <-; split; [eauto|];
        intros nxt; by rewrite E
    end.
  - destruct (starts_with item "@").
    + destruct (parse_file _ p) eqn:E; cbn in H; try discriminate.
      injection H as <-. split; [eauto | done].
    + injection H as <-. split; [eauto | done].
Qed.

(** Tokens that are parsed to their end compose with what follows. *)
Lemma parse_tokens_app_bounded parse_file (n : nat) : ∀ l1 p l2 p1,
  (length l1 ≤ n)%nat →
  parse_tokens parse_file p l1 = Ok (ReachedEnd, p1) →
  parse_tokens parse_file p (l1 ++ l2) = parse_tokens parse_file p1 l2.
Proof.
  induction n as [|n IH]; intros l1 p l2 p1 Hn H.
  { destruct l1; [by injection H as <- | cbn in Hn; lia]. }
  destruct l1 as [|item rest].
  { by injection H as <-. }
  cbn [parse_tokens app length] in *.
  destruct (parse_item parse_file p item (head rest)) as [s| |] eqn:E;
    cbn in H; try discriminate.
  destruct rest as [|x r]; cbn [head length] in *.
  - apply parse_item_no_next in E as [Hs E]. rewrite E. cbn.
    destruct Hs as [->|[p' ->]]; [discriminate|].
    cbn in H. by injection H as <-.
  - cbn [app head]. rewrite E. cbn.
    destruct s as [|p' [|]]; [discriminate| |].
    + apply IH; [lia | done].
    + apply (IH (x :: r)); [cbn; lia | done].
Qed.

Lemma parse_tokens_app parse_file l1 p l2 p1 :
  parse_tokens parse_file p l1 = Ok (ReachedEnd, p1) →
  parse_tokens parse_file p (l1 ++ l2) = parse_tokens parse_file p1 l2.
Proof. by apply (parse_tokens_app_bounded _ (length l1)). Qed.

(** The parser of [parse_loop] is [parse_file] at the same budget. *)
Lemma parse_loop_unfold split_args file_read ucs2_to_utf8 wchar_len budget p l :
  parse_loop split_args file_read ucs2_to_utf8 wchar_len budget p l
  = parse_tokens (parse_file split_args file_read ucs2_to_utf8 wchar_len budget)
      p l.
Proof. destruct budget; reflexivity. Qed.

Lemma as_arg_render (files : list InputFile) :
  as_arg <$> files = (λ f, render_input (type f) (name f)) <$> files.
Proof. apply list_fmap_ext. intros _ [n []] _; reflexivity. Qed.

Lemma merge_all_canonical (p : cmdline_parser_t) :
  merge p kAll = canonical_all type p.
Proof.
  unfold merge, canonical_all, flag_if_set, type_flag, debug_flag.
  rewrite as_arg_render.
  repeat case_decide; try done;
    repeat match goal with
      | H : ?x = "" |- _ => rewrite H; clear H
      | H : ?x ≠ "" |- _ => apply String.eqb_neq in H; rewrite H; clear H
      end;
    cbn [negb String.eqb]; rewrite <- ?app_assoc;
    by destruct (m_default_input_type p), (m_debug_format p).
Qed.

(** C1 (amended).  [merge(All)] emits, in this order: [/c] if
    compile-only; [/TC] or [/TP] for a default input type C or Cpp; the
    debug-format flag; every other option behind a [/]; [/Fd:<pdb>] if set;
    every include as [/I<path>]; every define as one item [/D <value>];
    [/Fo:<object>] if set; [/Yc<v>], [/Yu<v>], [/Y-] and [/Fp:<path>]; and
    last every input file as [/Tc<name>] or [/Tp<name>] when its DECLARED
    type is C or Cpp and as the bare name otherwise, whatever the default
    type and the extension.  For scenario S1 the result is
    [/c /IC:\inc /Fo:foo.obj foo.cpp]. *)
Theorem C1_merge_all_order :
  (∀ p, merge p kAll = canonical_all type p) ∧
  (∀ split_args file_read ucs2_to_utf8 wchar_len,
     (p ← parse split_args file_read ucs2_to_utf8 wchar_len env_unset
            argv_S1 new_parser;
      Ok (merge p kAll))
     = Ok ["/c"; "/IC:\inc"; "/Fo:foo.obj"; "foo.cpp"]).
Proof.
  split; [apply merge_all_canonical|].
  intros. vm_compute. reflexivity.
Qed.

(** C1 as stated fails on scenario S1: [foo.cpp] has no declared type and
    the effective type Cpp, yet it is emitted bare, no [/TP] is emitted, and
    the include is the single item [/IC:\inc]. *)
Lemma C1_counterexample :
  ∃ p, parse words_tokenizer no_files id 2 env_unset argv_S1 new_parser = Ok p
    ∧ effective_file_type p (mkInputFile "foo.cpp" kUnknown) = kCpp
    ∧ merge p kAll ≠ canonical_all (effective_file_type p) p
    ∧ join " " (merge p kAll) = "/c /IC:\inc /Fo:foo.obj foo.cpp"
    ∧ join " " (merge p kAll) ≠ "/c /TP /I C:\inc /Fo:foo.obj /Tpfoo.cpp".
Proof.
  eexists. split; [vm_compute; reflexivity|].
  split; [vm_compute; reflexivity|].
  split; [vm_compute; discriminate|].
  split; [vm_compute; reflexivity | vm_compute; discriminate].
Qed.

(** C6 (amended).  For [Fd], [Fo] and [Fp] the value is the suffix after
    one leading colon is removed, stored drive-letter canonicalized, when
    that suffix is not empty; when it is empty parsing fails, with or
    without a colon and whatever token follows: the next token is never
    taken as the value. *)
Theorem C6_colon_options_never_take_next_token :
  ∀ parse_file p suffix nxt,
    let v := drop_leading_colon suffix in
    parse_item parse_file p ("/Fd" +:+ suffix) nxt
    = (if decide (v = "") then Throw "Expected another item."
       else Ok (Continue (set_pdb_path p (sanitize_path v)) false))
    ∧ parse_item parse_file p ("/Fo" +:+ suffix) nxt
    = (if decide (v = "") then Throw "Expected another item."
       else Ok (Continue (set_object_path p (sanitize_path v)) false))
    ∧ parse_item parse_file p ("/Fp" +:+ suffix) nxt
    = (if decide (v = "") then Throw "Expected another item."
       else Ok (Continue
                  (set_pch_config p
                     (mkPch (create (m_pch_config p)) (use (m_pch_config p))
                        (sanitize_path v) (ignore (m_pch_config p))))
                  false)).
Proof.
  intros parse_file p suffix nxt v.
  unfold parse_item, retrieve_arg, get_option. norm_str.
  cbn -[starts_with drop_leading_colon sanitize_path]. norm_str.
  cbn -[drop_leading_colon sanitize_path].
  fold v. case_decide as Hv.
  - rewrite Hv. done.
  - apply String.eqb_neq in Hv. rewrite Hv. done.
Qed.

(** C6 as stated fails: [/Fo] followed by the token [foo.obj] is a parse
    error, the object path is not taken from the next token. *)
Lemma C6_counterexample :
  parse_list words_tokenizer no_files id 2 100 new_parser ["/Fo"; "foo.obj"]
  = Throw "Expected another item."
  ∧ ¬ ∃ p,
      parse_list words_tokenizer no_files id 2 100 new_parser
        ["/Fo"; "foo.obj"] = Ok p
      ∧ m_object_path p = "foo.obj".
Proof.
  split; [vm_compute; reflexivity|].
  intros (p & H & _). vm_compute in H. discriminate.
Qed.

Lemma parse_list_nil split_args file_read ucs2_to_utf8 wchar_len budget p :
  parse_list split_args file_read ucs2_to_utf8 wchar_len budget p [] = Ok p.
Proof. unfold parse_list. by rewrite parse_loop_unfold. Qed.

(** The test [argv.size() > 1] of [parse] only skips an empty list. *)
Lemma parse_sequence split_args file_read ucs2_to_utf8 wchar_len getenv argv p :
  parse split_args file_read ucs2_to_utf8 wchar_len getenv argv p
  = (p ← match getenv "CL" with
         | Some env_var =>
             parse_line split_args file_read ucs2_to_utf8 wchar_len 100 p
               env_var
         | None => Ok p
         end;
     p ← parse_list split_args file_read ucs2_to_utf8 wchar_len 100 p
           (tail argv);
     match getenv "_CL_" with
     | Some env_var =>
         parse_line split_args file_read ucs2_to_utf8 wchar_len 100 p env_var
     | None => Ok p
     end).
Proof.
  unfold parse. destruct (1 <? length argv)%nat eqn:Hlen; [done|].
  apply Nat.ltb_ge in Hlen.
  assert (tail argv = []) as ->.
  { destruct argv as [|? [|]]; cbn in *; [done..|lia]. }
  destruct (match getenv "CL" with Some _ => _ | None => _ end); [|done..].
  cbn [mbind result_bind]. by rewrite parse_list_nil.
Qed.

(** C5 (amended).  With [CL = a] and [_CL_ = b] the parser handles three
    token lists one after the other: the tokens of [a], then [argv[1..]],
    then the tokens of [b].  The result equals that of parsing the
    concatenation with both variables unset whenever the tokens of [a] and
    [argv[1..]] are each parsed to their end: a [/link] stops only the list
    it occurs in, and an option at the end of a list cannot take its value
    from the next list. *)
Theorem C5_env_wrapping :
  ∀ split_args file_read ucs2_to_utf8 wchar_len argv a b p p1 p2,
    parse_loop split_args file_read ucs2_to_utf8 wchar_len 100 p
      (split_args a) = Ok (ReachedEnd, p1) →
    parse_loop split_args file_read ucs2_to_utf8 wchar_len 100 p1
      (tail argv) = Ok (ReachedEnd, p2) →
    parse split_args file_read ucs2_to_utf8 wchar_len (env_cl a b) argv p
    = parse split_args file_read ucs2_to_utf8 wchar_len env_unset
        (hd "" argv :: split_args a ++ tail argv ++ split_args b) p.
Proof.
  intros split_args file_read ucs2_to_utf8 wchar_len argv a b p p1 p2 Ha Hargv.
  rewrite !parse_sequence.
  cbn [env_cl env_unset String.eqb Ascii.eqb Bool.eqb tail].
  unfold parse_line, parse_list.
  rewrite Ha. cbn [mbind result_bind snd].
  rewrite Hargv. cbn [mbind result_bind snd].
  rewrite parse_loop_unfold in Ha, Hargv. rewrite !parse_loop_unfold.
  rewrite (parse_tokens_app _ _ _ _ _ Ha).
  rewrite (parse_tokens_app _ _ _ _ _ Hargv).
  by destruct (parse_tokens _ p2 _).
Qed.

Lemma C5_env_wrapping_witness :
  parse words_tokenizer no_files id 2 (env_cl "/W4" "/DX=1")
    ["cl"; "/c"; "foo.c"] new_parser
  = parse words_tokenizer no_files id 2 env_unset
      (hd "" ["cl"; "/c"; "foo.c"]
       :: words_tokenizer "/W4" ++ tail ["cl"; "/c"; "foo.c"]
          ++ words_tokenizer "/DX=1")
      new_parser.
Proof.
  eapply (C5_env_wrapping words_tokenizer no_files id 2
            ["cl"; "/c"; "foo.c"] "/W4" "/DX=1" new_parser).
  - vm_compute. reflexivity.
  - vm_compute. reflexivity.
Defined.

(** C5 as stated fails: with [CL=/link] the [/c] of the argument vector is
    still parsed, whereas in the concatenated list the [/link] in front
    hides it. *)
Lemma C5_counterexample :
  parse words_tokenizer no_files id 2 (env_cl "/link" "") ["cl"; "/c"]
    new_parser
  ≠ parse words_tokenizer no_files id 2 env_unset
      ("cl" :: words_tokenizer "/link" ++ ["/c"] ++ words_tokenizer "")
      new_parser.
Proof. vm_compute. discriminate. Qed.

(** *** Reachable parser states *)

Lemma canonical_new : canonical new_parser.
Proof. split; cbn; try done; by split. Qed.

Lemma step_inj p adv p' adv' :
  Continue p adv = Continue p' adv' → p = p' ∧ adv = adv'.
Proof. by intros [=]. Qed.

Ltac solve_canonical :=
  match goal with
  | H : canonical _ |- canonical _ =>
      destruct H as [? ? ? ? ? [? ?] [? ?] ? ?]; split; cbn in *;
      rewrite ?Forall_app, ?Forall_singleton;
      unfold flag_ok, input_ok; cbn;
      eauto using sanitize_path_idemp
  end.

Lemma parse_item_canonical parse_file p item nxt p' adv :
  (∀ n q q', parse_file n q = Ok q' → canonical q → canonical q') →
  canonical p →
  parse_item parse_file p item nxt = Ok (Continue p' adv) →
  canonical p'.
Proof.
  intros Hpf Hcan. unfold parse_item.
  destruct (get_option item) as [option|] eqn:Hopt.
  - intros H.
    repeat match type of H with
      | (if ?b then _ else _) = _ => destruct b eqn:?
      end;
    try match type of H with
      | mbind _ (retrieve_arg ?i ?c ?n) = _ =>
          destruct (retrieve_arg i c n) as [[arg adv']| |] eqn:E;
          cbn in H; try discriminate
      end;
    try discriminate; apply (inj Ok) in H; apply step_inj in H as [<- <-];
    try (solve_canonical; fail).
    + destruct (starts_with option "Tc"); solve_canonical.
    + solve_canonical. split; [apply sanitize_path_idemp | done].
    + solve_canonical. split; [apply sanitize_path_idemp | done].
    + solve_canonical. split; [done|].
      unfold unhandled.
      repeat match goal with E : _ = false |- _ => rewrite E; clear E end.
      reflexivity.
  - destruct (starts_with item "@") eqn:Hat.
    + destruct (parse_file _ p) as [q| |] eqn:E; cbn; try discriminate.
      intros H. apply (inj Ok) in H. apply step_inj in H as [<- <-]. eauto.
    + intros H. apply (inj Ok) in H. apply step_inj in H as [<- <-].
      solve_canonical.
Qed.

(** Invariants of the states pass through the loop of [parse_list]. *)
Lemma parse_tokens_invariant (P : cmdline_parser_t → Prop) parse_file :
  (∀ p item nxt p' adv,
     P p → parse_item parse_file p item nxt = Ok (Continue p' adv) → P p') →
  ∀ l p e p', P p → parse_tokens parse_file p l = Ok (e, p') → P p'.
Proof.
  intros Hstep l.
  assert (∀ n l p e p', (length l ≤ n)%nat → P p →
            parse_tokens parse_file p l = Ok (e, p') → P p') as Hgen.
  { clear l. induction n as [|n IH]; intros l p e p' Hn HP H.
    { destruct l; [by injection H as _ <- | cbn in Hn; lia]. }
    destruct l as [|item rest]; [by injection H as _ <-|].
    cbn [parse_tokens length] in *.
    destruct (parse_item parse_file p item (head rest)) as [s| |] eqn:E;
      cbn in H; try discriminate.
    destruct s as [|q adv]; [by injection H as _ <-|].
    apply Hstep in E; [|done].
    destruct adv, rest as [|x r]; cbn [length] in *;
      (eapply IH; [|exact E|exact H]; cbn; lia). }
  intros p e p'. by apply (Hgen (length l)).
Qed.

Lemma read_lines_loop_invariant {S : Type} (P : S → Prop) lines callback :
  (∀ line st st', P st → callback line st = Ok st' → P st') →
  ∀ st st', P st → read_lines_loop lines callback st = Ok st' → P st'.
Proof.
  intros Hcb. induction lines as [|line more IH]; intros st st' HP H.
  { by injection H as <-. }
  cbn [read_lines_loop] in H.
  destruct (back line); cbn in H; try discriminate.
  match type of H with
  | mbind _ ?r = _ => destruct r eqn:E; cbn in H; try discriminate
  end.
  eauto.
Qed.

Lemma parse_loop_canonical split_args file_read ucs2_to_utf8 wchar_len budget :
  ∀ l p e p',
    canonical p →
    parse_loop split_args file_read ucs2_to_utf8 wchar_len budget p l
    = Ok (e, p') →
    canonical p'.
Proof.
  induction budget as [|budget IH]; intros l p e p' Hcan;
    rewrite parse_loop_unfold;
    apply parse_tokens_invariant; try done;
    intros q item nxt q' adv Hq; apply parse_item_canonical; try done.
  intros n r r' H Hr. unfold parse_file, read_lines in H.
  destruct (file_read n); cbn in H; try discriminate.
  revert H. apply read_lines_loop_invariant; [|done].
  intros line st st' Hst. unfold parse_line, parse_list.
  destruct (parse_loop _ _ _ _ budget st _) as [[e' st'']| |] eqn:E;
    cbn; try discriminate.
  intros [= <-]. by eapply IH.
Qed.

(** *** Parsing the re-emitted tokens *)

Section Reparse.
Variable parse_file : string → cmdline_parser_t → result cmdline_parser_t.

Lemma parse_tokens_step p tok l p' :
  (∀ nxt, parse_item parse_file p tok nxt = Ok (Continue p' false)) →
  parse_tokens parse_file p (tok :: l) = parse_tokens parse_file p' l.
Proof. intros H. cbn [parse_tokens]. by rewrite H. Qed.

Ltac reduce_item :=
  unfold parse_item, retrieve_arg, get_option; norm_str;
  cbn -[starts_with drop_leading_colon sanitize_path String.eqb];
  norm_str;
  cbn -[drop_leading_colon sanitize_path String.eqb].

Lemma item_option p o nxt :
  unhandled o = true →
  parse_item parse_file p ("/" +:+ o) nxt
  = Ok (Continue (add_option p o) false).
Proof.
  unfold unhandled. rewrite !andb_true_iff, !negb_true_iff.
  intros H. destruct_and!.
  unfold parse_item, get_option. norm_str. cbn [Ascii.eqb Bool.eqb orb].
  repeat match goal with E : _ = false |- _ => rewrite E; clear E end.
  reflexivity.
Qed.

Lemma item_colon (flag : ascii) p v nxt :
  v ≠ "" →
  parse_item parse_file p (String "/" (String "F" (String flag (":" +:+ v))))
    nxt
  = match flag with
    | "d"%char => Ok (Continue (set_pdb_path p (sanitize_path v)) false)
    | "o"%char => Ok (Continue (set_object_path p (sanitize_path v)) false)
    | "p"%char =>
        Ok (Continue
              (set_pch_config p
                 (mkPch (create (m_pch_config p)) (use (m_pch_config p))
                    (sanitize_path v) (ignore (m_pch_config p))))
              false)
    | _ => parse_item parse_file p
             (String "/" (String "F" (String flag (":" +:+ v)))) nxt
    end.
Proof.
  intros Hv%String.eqb_neq.
  destruct flag as [[] [] [] [] [] [] [] []]; try reflexivity;
    reduce_item; cbn [drop_leading_colon]; by rewrite Hv.
Qed.

Lemma item_include p i nxt :
  i ≠ "" →
  parse_item parse_file p ("/I" +:+ i) nxt
  = Ok (Continue (add_include p (sanitize_path i)) false).
Proof. intros Hv%String.eqb_neq. reduce_item. by rewrite Hv. Qed.

Lemma item_create p v nxt :
  parse_item parse_file p ("/Yc" +:+ v) nxt
  = Ok (Continue
          (set_pch_config p
             (mkPch (mkFlag true (sanitize_path v)) (use (m_pch_config p))
                (path (m_pch_config p)) (ignore (m_pch_config p))))
          false).
Proof. by reduce_item. Qed.

Lemma item_use p v nxt :
  parse_item parse_file p ("/Yu" +:+ v) nxt
  = Ok (Continue
          (set_pch_config p
             (mkPch (create (m_pch_config p)) (mkFlag true (sanitize_path v))
                (path (m_pch_config p)) (ignore (m_pch_config p))))
          false).
Proof. by reduce_item. Qed.

Lemma item_input p f nxt :
  input_ok f → (type f ≠ kUnknown → name f ≠ "") →
  parse_item parse_file p (as_arg f) nxt
  = Ok (Continue (append_file p (name f) (type f)) false).
Proof.
  destruct f as [n t]. unfold input_ok, as_arg. cbn [type name].
  destruct t; [|done|..].
  - intros [Hopt Hat] _. unfold parse_item. by rewrite Hopt, Hat.
  - intros Hs Hn. specialize (Hn ltac:(done)).
    apply String.eqb_neq in Hn. reduce_item. rewrite Hn. cbn.
    by rewrite Hs.
  - intros Hs Hn. specialize (Hn ltac:(done)).
    apply String.eqb_neq in Hn. reduce_item. rewrite Hn. cbn.
    by rewrite Hs.
Qed.

(** The segments of [merge], each parsed in a state whose field is still
    at its initial value. *)
Lemma seg_compile_only (co : bool) b c d e f g h i j l :
  parse_tokens parse_file (mkParser false b c d e f g h i j)
    ((if co then ["/c"] else []) ++ l)
  = parse_tokens parse_file (mkParser co b c d e f g h i j) l.
Proof. destruct co; [|done]. by apply parse_tokens_step. Qed.

Lemma seg_type a (t : InputType) c d e f g h i j l :
  t ≠ kUnknown →
  parse_tokens parse_file (mkParser a kObject c d e f g h i j)
    (match t with kC => ["/TC"] | kCpp => ["/TP"] | _ => [] end ++ l)
  = parse_tokens parse_file (mkParser a t c d e f g h i j) l.
Proof. destruct t; try done; intros _; by apply parse_tokens_step. Qed.

Lemma seg_debug a b (df : DebugFormat) d e f g h i j l :
  parse_tokens parse_file (mkParser a b kNone d e f g h i j)
    (match df with
     | kObjectFile => ["/Z7"]
     | kSeparateFile => ["/Zi"]
     | kSeparateFileEditAndContinue => ["/ZI"]
     | kNone => []
     end ++ l)
  = parse_tokens parse_file (mkParser a b df d e f g h i j) l.
Proof. destruct df; try done; by apply parse_tokens_step. Qed.

Lemma seg_options a b c d e os : ∀ f g h i j l,
  Forall (λ o, unhandled o = true) os →
  parse_tokens parse_file (mkParser a b c d e f g h i j)
    (((λ option, "/" +:+ option) <$> os) ++ l)
  = parse_tokens parse_file (mkParser a b c d e (f ++ os) g h i j) l.
Proof.
  induction os as [|o os IH]; intros f g h i j l Hos.
  { by rewrite app_nil_r. }
  apply Forall_cons in Hos as [Ho Hos]. cbn [fmap list_fmap app].
  erewrite parse_tokens_step; [|intros; by apply item_option].
  unfold add_option. cbn. rewrite IH by done.
  by rewrite <- app_assoc.
Qed.

Lemma seg_includes a b c incs : ∀ d e f g h i j l,
  Forall (λ i, sanitize_path i = i) incs → Forall (λ i, i ≠ "") incs →
  parse_tokens parse_file (mkParser a b c d e f g h i j)
    (((λ option, "/I" +:+ option) <$> incs) ++ l)
  = parse_tokens parse_file (mkParser a b c (d ++ incs) e f g h i j) l.
Proof.
  induction incs as [|x incs IH]; intros d e f g h i j l Hs Hn.
  { by rewrite app_nil_r. }
  apply Forall_cons in Hs as [Hx Hs]. apply Forall_cons in Hn as [Hx' Hn].
  cbn [fmap list_fmap app].
  erewrite parse_tokens_step; [|intros; by apply item_include].
  unfold add_include. cbn. rewrite IH, Hx by done.
  by rewrite <- app_assoc.
Qed.

Lemma seg_pdb a b c d e f (v : string) h i j l :
  sanitize_path v = v →
  parse_tokens parse_file (mkParser a b c d e f "" h i j)
    ((if negb (String.eqb v "") then ["/Fd:" +:+ v] else []) ++ l)
  = parse_tokens parse_file (mkParser a b c d e f v h i j) l.
Proof.
  intros Hs. destruct (String.eqb v "") eqn:Hv; cbn [negb app].
  { by apply String.eqb_eq in Hv as ->. }
  apply String.eqb_neq in Hv.
  erewrite parse_tokens_step;
    [|intros; by apply (item_colon "d")].
  unfold set_pdb_path. cbn. by rewrite Hs.
Qed.

Lemma seg_object a b c d e f g (v : string) i j l :
  sanitize_path v = v →
  parse_tokens parse_file (mkParser a b c d e f g "" i j)
    ((if negb (String.eqb v "") then ["/Fo:" +:+ v] else []) ++ l)
  = parse_tokens parse_file (mkParser a b c d e f g v i j) l.
Proof.
  intros Hs. destruct (String.eqb v "") eqn:Hv; cbn [negb app].
  { by apply String.eqb_eq in Hv as ->. }
  apply String.eqb_neq in Hv.
  erewrite parse_tokens_step;
    [|intros; by apply (item_colon "o")].
  unfold set_object_path. cbn. by rewrite Hs.
Qed.

Lemma seg_create a b c d e f g h (cr : flag_option_t) u pp ig j l :
  flag_ok cr →
  parse_tokens parse_file
    (mkParser a b c d e f g h (mkPch (mkFlag false "") u pp ig) j)
    ((if enabled cr then ["/Yc" +:+ value cr] else []) ++ l)
  = parse_tokens parse_file
      (mkParser a b c d e f g h (mkPch cr u pp ig) j) l.
Proof.
  destruct cr as [[] v]; intros [Hs Hv]; cbn [enabled value app] in *.
  - erewrite parse_tokens_step; [|intros; by apply item_create].
    unfold set_pch_config. cbn. by rewrite Hs.
  - by rewrite Hv.
Qed.

Lemma seg_use a b c d e f g h cr (u : flag_option_t) pp ig j l :
  flag_ok u →
  parse_tokens parse_file
    (mkParser a b c d e f g h (mkPch cr (mkFlag false "") pp ig) j)
    ((if enabled u then ["/Yu" +:+ value u] else []) ++ l)
  = parse_tokens parse_file
      (mkParser a b c d e f g h (mkPch cr u pp ig) j) l.
Proof.
  destruct u as [[] v]; intros [Hs Hv]; cbn [enabled value app] in *.
  - erewrite parse_tokens_step; [|intros; by apply item_use].
    unfold set_pch_config. cbn. by rewrite Hs.
  - by rewrite Hv.
Qed.

Lemma seg_ignore a b c d e f g h cr u pp (ig : bool) j l :
  parse_tokens parse_file
    (mkParser a b c d e f g h (mkPch cr u pp false) j)
    ((if ig then ["/Y-"] else []) ++ l)
  = parse_tokens parse_file
      (mkParser a b c d e f g h (mkPch cr u pp ig) j) l.
Proof. destruct ig; [|done]. by apply parse_tokens_step. Qed.

Lemma seg_pch_path a b c d e f g h cr u (v : string) ig j l :
  sanitize_path v = v →
  parse_tokens parse_file
    (mkParser a b c d e f g h (mkPch cr u "" ig) j)
    ((if negb (String.eqb v "") then ["/Fp:" +:+ v] else []) ++ l)
  = parse_tokens parse_file
      (mkParser a b c d e f g h (mkPch cr u v ig) j) l.
Proof.
  intros Hs. destruct (String.eqb v "") eqn:Hv; cbn [negb app].
  { by apply String.eqb_eq in Hv as ->. }
  apply String.eqb_neq in Hv.
  erewrite parse_tokens_step;
    [|intros; by apply (item_colon "p")].
  unfold set_pch_config. cbn. by rewrite Hs.
Qed.

Lemma seg_inputs a b c d e f g h i files : ∀ j,
  Forall input_ok files →
  Forall (λ f, type f ≠ kUnknown → name f ≠ "") files →
  parse_tokens parse_file (mkParser a b c d e f g h i j) (as_arg <$> files)
  = Ok (ReachedEnd, mkParser a b c d e f g h i (j ++ files)).
Proof.
  induction files as [|x files IH]; intros j Hok Hn.
  { by rewrite app_nil_r. }
  apply Forall_cons in Hok as [Hx Hok]. apply Forall_cons in Hn as [Hx' Hn].
  cbn [fmap list_fmap].
  erewrite parse_tokens_step; [|intros; by apply item_input].
  unfold append_file. cbn. rewrite IH by done.
  destruct x. by rewrite <- app_assoc.
Qed.

(** A reachable state without defines, empty includes and empty typed
    input names is what its re-emission parses to. *)
Lemma reparse_merge p :
  canonical p → reemittable p →
  parse_tokens parse_file new_parser (merge p kAll) = Ok (ReachedEnd, p).
Proof.
  intros [Ht Hi Ho Hpdb Hobj Hcr Hu Hpp Hf] (Hd & Hi' & Hf').
  destruct p as [co dt df incs defs opts pdb obj [cr u pp ig] files].
  cbn in *. subst defs.
  unfold merge, new_parser. cbn.
  repeat case_decide; try done.
  cbn [fmap list_fmap app]. rewrite <- ?app_assoc.
  rewrite seg_compile_only, seg_type, seg_debug by done.
  rewrite seg_options by done. rewrite seg_pdb by done.
  rewrite seg_includes by done. rewrite seg_object by done.
  rewrite seg_create by done. rewrite seg_use by done.
  rewrite seg_ignore. rewrite seg_pch_path by done.
  by rewrite seg_inputs.
Qed.
End Reparse.

(** C7 (amended).  Re-parsing the re-emission [merge(All)] of an accepted
    argument list yields the parsed model again, provided that model has
    no define and no empty include or typed input name:
    [parse(merge(parse(args), All)) = parse(args)] then.  Response files in
    [args] are allowed; the re-emission contains none. *)
Theorem C7_reemission_idempotent :
  ∀ split_args file_read ucs2_to_utf8 wchar_len args p,
    parse_list split_args file_read ucs2_to_utf8 wchar_len 100 new_parser args
    = Ok p →
    reemittable p →
    parse_list split_args file_read ucs2_to_utf8 wchar_len 100 new_parser
      (merge p kAll)
    = Ok p.
Proof.
  intros split_args file_read ucs2_to_utf8 wchar_len args p H Hre.
  unfold parse_list in *.
  destruct (parse_loop _ _ _ _ 100 new_parser args) as [[e q]| |] eqn:E;
    cbn in H; try discriminate.
  injection H as ->.
  apply parse_loop_canonical in E; [|apply canonical_new].
  rewrite parse_loop_unfold, reparse_merge by done. reflexivity.
Qed.

Lemma C7_reemission_idempotent_witness :
  ∃ p,
    parse_list words_tokenizer no_files id 2 100 new_parser
      ["/c"; "/I"; "c:\inc"; "foo.cpp"; "/Fofoo.obj"; "/W4"; "/Tc"; "bar.x";
       "/Yustdafx.h"; "/Z7"; "/TP"] = Ok p
    ∧ parse_list words_tokenizer no_files id 2 100 new_parser (merge p kAll)
      = Ok p.
Proof.
  eexists. split; [vm_compute; reflexivity|].
  apply (C7_reemission_idempotent words_tokenizer no_files id 2
           ["/c"; "/I"; "c:\inc"; "foo.cpp"; "/Fofoo.obj"; "/W4"; "/Tc"; "bar.x";
            "/Yustdafx.h"; "/Z7"; "/TP"]).
  - vm_compute. reflexivity.
  - repeat split; cbn; repeat constructor; cbn; done.
Defined.

(** C7 as stated fails: the define [FOO] is re-emitted as the one token
    [/D FOO], which parses back as the define [ FOO] with a leading
    space. *)
Lemma C7_counterexample :
  ∃ p p',
    parse_list words_tokenizer no_files id 2 100 new_parser ["/DFOO"] = Ok p
    ∧ merge p kAll = ["/D FOO"]
    ∧ parse_list words_tokenizer no_files id 2 100 new_parser (merge p kAll)
      = Ok p'
    ∧ m_defines p = ["FOO"] ∧ m_defines p' = [" FOO"] ∧ p' ≠ p.
Proof.
  do 2 eexists. split; [vm_compute; reflexivity|].
  split; [vm_compute; reflexivity|].
  split; [vm_compute; reflexivity|].
  split; [reflexivity|]. split; [reflexivity|]. discriminate.
Qed.

(** ** Properties of the cache-entry codec *)

(** *** Strings and positions *)

Lemma length_app (a b : string) :
  String.length (a +:+ b) = (String.length a + String.length b)%nat.
Proof. induction a; cbn; [done|]. by rewrite app_String; cbn; f_equal. Qed.

Lemma app_assoc_str (a b c : string) : (a +:+ b) +:+ c = a +:+ b +:+ c.
Proof. induction a; [done|]. rewrite !app_String. by f_equal. Qed.

Lemma substr_from_add (s : string) (n m : nat) :
  substr_from s (n + m) = substr_from (substr_from s n) m.
Proof.
  revert s; induction n as [|n IH]; intros s; [by rewrite substr_from_0|].
  destruct s; cbn; [by destruct m | apply IH].
Qed.

Lemma substr_from_app (a b : string) : substr_from (a +:+ b) (String.length a) = b.
Proof. induction a; [apply substr_from_0 | done]. Qed.

Lemma substr_from_length (s : string) (n : nat) :
  String.length (substr_from s n) = (String.length s - n)%nat.
Proof. revert s; induction n; intros []; cbn; auto. Qed.

Lemma get_substr_from (s : string) (n i : nat) :
  String.get (n + i) s = String.get i (substr_from s n).
Proof.
  revert s; induction n as [|n IH]; intros s; [by rewrite substr_from_0|].
  destruct s; cbn; [by destruct i | apply IH].
Qed.

Lemma substring_substr_from (s : string) (n m : nat) :
  String.substring n m s = String.substring 0 m (substr_from s n).
Proof.
  revert s; induction n as [|n IH]; intros s; [by rewrite substr_from_0|].
  destruct s; cbn; [by destruct m | apply IH].
Qed.

Lemma substring_0_app (e rest : string) :
  String.substring 0 (String.length e) (e +:+ rest) = e.
Proof.
  induction e; [by destruct rest|]. rewrite app_String. cbn. by f_equal.
Qed.

Lemma at_pos_0 (data : string) : at_pos data 0 data.
Proof. split; [lia | apply substr_from_0]. Qed.

Lemma at_pos_length data pos x :
  at_pos data pos x → String.length data = (pos + String.length x)%nat.
Proof. intros [Hle <-]. rewrite substr_from_length. lia. Qed.

Lemma at_pos_advance data pos e rest :
  at_pos data pos (e +:+ rest) → at_pos data (pos + String.length e) rest.
Proof.
  intros H. pose proof (at_pos_length _ _ _ H) as Hlen.
  rewrite length_app in Hlen. destruct H as [Hle H].
  split; [lia|]. by rewrite substr_from_add, H, substr_from_app.
Qed.

Lemma at_pos_get data pos x i :
  at_pos data pos x → String.get (pos + i) data = String.get i x.
Proof. intros [_ <-]. apply get_substr_from. Qed.

Lemma at_pos_substr data pos e rest :
  at_pos data pos (e +:+ rest) → substr data pos (String.length e) = e.
Proof.
  intros [_ H]. unfold substr.
  by rewrite substring_substr_from, H, substring_0_app.
Qed.

(** *** 32-bit integers *)

Section SerializeFacts.
Import serialize.

Lemma wrap32_id (z : Z) : in_int32 z → wrap32 z = z.
Proof. unfold in_int32, wrap32. intros H. rewrite Z.mod_small; lia. Qed.

Lemma wrap32_range (z : Z) : in_int32 (wrap32 z).
Proof.
unfold in_int32, wrap32.
pose proof (Z.mod_pos_bound (z + 2^31) (2^32) ltac:(lia)). lia.
Qed.

Lemma wrap32_mod (z : Z) : wrap32 (z mod 2^32) = wrap32 z.
Proof.
unfold wrap32. by rewrite Z.add_mod_idemp_l by lia.
Qed.

Lemma wrap32_fits (n : nat) : fits_int32 n → wrap32 (Z.of_nat n) = Z.of_nat n.
Proof. unfold fits_int32. intros H. apply wrap32_id. unfold in_int32. lia. Qed.

Lemma byte_of_value (z : Z) : Z.of_N (N_of_ascii (byte_of z)) = z mod 256.
Proof.
unfold byte_of.
pose proof (Z.mod_pos_bound z 256 ltac:(lia)).
rewrite N_ascii_embedding by lia. lia.
Qed.

Lemma length_from_int (x : Z) : String.length (from_int x) = 4%nat.
Proof. reflexivity. Qed.

Lemma bytes_value (u : Z) :
0 ≤ u < 2^32 →
u mod 256 + 2^8 * ((u / 2^8) mod 256) + 2^16 * ((u / 2^16) mod 256)
+ 2^24 * ((u / 2^24) mod 256) = u.
Proof.
intros Hu. change (2^8) with 256. change (2^16) with 65536.
change (2^24) with 16777216. change (2^32) with 4294967296 in Hu.
Z.to_euclidean_division_equations. lia.
Qed.

(** Reading back an integer: the value reduced to 32 bits. *)
Lemma to_int_from_int data pos x rest :
at_pos data pos (from_int x +:+ rest) →
to_int data pos = Ok (wrap32 x, (pos + 4)%nat).
Proof.
intros H. unfold to_int.
pose proof (at_pos_length _ _ _ H) as Hlen.
rewrite length_app, length_from_int in Hlen.
destruct (Nat.ltb_spec (String.length data) (pos + 4)); [lia|].
unfold byte_at.
rewrite <- (Nat.add_0_r pos) at 1.
rewrite !(at_pos_get _ _ _ _ H).
unfold from_int. rewrite !app_String. cbn [String.get].
rewrite !byte_of_value.
pose proof (Z.mod_pos_bound x (2^32) ltac:(lia)) as Hu.
rewrite bytes_value by done. by rewrite wrap32_mod.
Qed.

(** *** Strings, vectors and maps of the format *)

Lemma to_string_from_string data pos x rest :
fits_int32 (String.length x) →
at_pos data pos (from_string x +:+ rest) →
to_string data pos = Ok (x, (pos + String.length (from_string x))%nat).
Proof.
intros Hfit H. unfold to_string, from_string in *.
rewrite app_assoc_str in H.
rewrite (to_int_from_int _ _ _ _ H). cbn [mbind result_bind].
apply at_pos_advance in H. rewrite length_from_int in H.
rewrite wrap32_id by apply wrap32_range. rewrite wrap32_fits by done.
rewrite Nat2Z.id.
pose proof (at_pos_length _ _ _ H) as Hlen. rewrite length_app in Hlen.
destruct (Z.ltb_spec (Z.of_nat (String.length x)) 0); [lia|].
destruct (Nat.ltb_spec (String.length data) (pos + 4 + String.length x));
  [lia|].
cbn [orb]. rewrite (at_pos_substr _ _ _ _ H).
rewrite length_app, length_from_int. f_equal. f_equal. lia.
Qed.

Lemma to_vector_loop_strings l : ∀ data pos acc rest,
Forall (λ x, fits_int32 (String.length x)) l →
at_pos data pos (enc_strings l +:+ rest) →
to_vector_loop (length l) data pos acc
= Ok (acc ++ l, (pos + String.length (enc_strings l))%nat).
Proof.
induction l as [|x l IH]; intros data pos acc rest Hfit H.
{ cbn. by rewrite app_nil_r, Nat.add_0_r. }
apply Forall_cons in Hfit as [Hx Hfit].
cbn [length to_vector_loop enc_strings foldr] in *.
fold (enc_strings l) in *. rewrite app_assoc_str in H.
rewrite (to_string_from_string _ _ _ _ Hx H). cbn [mbind result_bind].
apply at_pos_advance in H.
rewrite (IH _ _ _ _ Hfit H), length_app, <- app_assoc.
f_equal. f_equal. lia.
Qed.

Lemma to_vector_from_vector data pos l rest :
fits_int32 (length l) →
Forall (λ x, fits_int32 (String.length x)) l →
at_pos data pos (from_vector l +:+ rest) →
to_vector data pos = Ok (l, (pos + String.length (from_vector l))%nat).
Proof.
intros Hn Hfit H. unfold to_vector, from_vector in *.
fold (enc_strings l) in *. rewrite app_assoc_str in H.
rewrite (to_int_from_int _ _ _ _ H). cbn [mbind result_bind].
apply at_pos_advance in H. rewrite length_from_int in H.
rewrite wrap32_id by apply wrap32_range. rewrite wrap32_fits by done.
rewrite Nat2Z.id, (to_vector_loop_strings _ _ _ _ _ Hfit H).
rewrite length_app, length_from_int. cbn [app]. f_equal. f_equal. lia.
Qed.

Lemma to_map_loop_pairs l : ∀ data pos acc rest,
Forall (λ e, fits_int32 (String.length e.1)
             ∧ fits_int32 (String.length e.2)) l →
at_pos data pos (enc_pairs l +:+ rest) →
serialize.to_map_loop (length l) data pos acc
= Ok (foldl (λ acc e, <[e.1 := e.2]> acc) acc l,
      (pos + String.length (enc_pairs l))%nat).
Proof.
induction l as [|[k v] l IH]; intros data pos acc rest Hfit H.
{ cbn. by rewrite Nat.add_0_r. }
apply Forall_cons in Hfit as [[Hk Hv] Hfit].
cbn [length serialize.to_map_loop enc_pairs foldr foldl fst snd] in *.
fold (enc_pairs l) in *. rewrite !app_assoc_str in H.
rewrite (to_string_from_string _ _ _ _ Hk H). cbn [mbind result_bind].
apply at_pos_advance in H.
rewrite (to_string_from_string _ _ _ _ Hv H). cbn [mbind result_bind].
apply at_pos_advance in H.
rewrite (IH _ _ _ _ Hfit H), !length_app.
f_equal. f_equal. lia.
Qed.

Lemma to_map_from_pairs data pos l rest :
fits_int32 (length l) →
Forall (λ e, fits_int32 (String.length e.1)
             ∧ fits_int32 (String.length e.2)) l →
at_pos data pos (from_pairs l +:+ rest) →
serialize.to_map data pos
= Ok (pairs_to_map l, (pos + String.length (from_pairs l))%nat).
Proof.
intros Hn Hfit H. unfold serialize.to_map, from_pairs in *.
fold (enc_pairs l) in *. rewrite app_assoc_str in H.
rewrite (to_int_from_int _ _ _ _ H). cbn [mbind result_bind].
apply at_pos_advance in H. rewrite length_from_int in H.
rewrite wrap32_id by apply wrap32_range. rewrite wrap32_fits by done.
rewrite Nat2Z.id, (to_map_loop_pairs _ _ _ _ _ Hfit H).
rewrite length_app, length_from_int. unfold pairs_to_map.
f_equal. f_equal. lia.
Qed.

End SerializeFacts.

(** *** The pairs of a map in key order *)

Lemma map_items_perm {V} (m : gmap string V) : map_items m ≡ₚ map_to_list m.
Proof. apply merge_sort_Permutation. Qed.

Lemma elem_of_map_items {V} (m : gmap string V) k v :
  (k, v) ∈ map_items m ↔ m !! k = Some v.
Proof. by rewrite map_items_perm, elem_of_map_to_list. Qed.

Lemma NoDup_fst_map_items {V} (m : gmap string V) : NoDup (map_items m).*1.
Proof. rewrite map_items_perm. apply NoDup_fst_map_to_list. Qed.

Lemma length_map_items {V} (m : gmap string V) :
  length (map_items m) = size m.
Proof. by rewrite map_items_perm, length_map_to_list. Qed.

Lemma map_items_sorted {V} (m : gmap string V) :
  StronglySorted String.le (map_items m).*1.
Proof.
  assert (StronglySorted key_le (map_items m)) as H.
  { apply (StronglySorted_merge_sort key_le). }
  induction H as [|x l _ IH Hx]; [constructor|].
  cbn. constructor; [done|].
  apply Forall_fmap. eapply Forall_impl; [exact Hx|]. by intros [??].
Qed.

Lemma pairs_to_map_from {V} (l : list (string * V)) :
  ∀ (acc : gmap string V) k,
  foldl (λ acc e, <[e.1 := e.2]> acc) acc l !! k
  = match list_to_map (M := gmap string V) (reverse l) !! k with
    | Some v => Some v
    | None => acc !! k
    end.
Proof.
  induction l as [|[k' v'] l IH]; intros acc k; [done|].
  cbn [foldl fst snd]. rewrite IH, reverse_cons.
  rewrite list_to_map_app. cbn [list_to_map foldr].
  rewrite lookup_union.
  destruct (list_to_map (reverse l) !! k) eqn:E; cbn.
  { by destruct (<[k':=v']> ∅ !! k). }
  destruct (decide (k' = k)) as [->|Hne].
  - by rewrite !lookup_insert_eq.
  - rewrite !lookup_insert_ne, lookup_empty by done. done.
Qed.

Lemma pairs_to_map_items {V} (m : gmap string V) :
  pairs_to_map (map_items m) = m.
Proof.
  apply map_eq. intros k. unfold pairs_to_map.
  rewrite pairs_to_map_from, lookup_empty.
  assert (list_to_map (M := gmap string V) (reverse (map_items m)) = m) as ->.
  { rewrite <- (list_to_map_to_list m) at 2.
    apply list_to_map_proper.
    - rewrite fmap_reverse, reverse_Permutation. apply NoDup_fst_map_items.
    - by rewrite reverse_Permutation, map_items_perm. }
  by destruct (m !! k).
Qed.

Lemma pairs_to_map_dom {V} (l : list (string * V)) k :
  is_Some (pairs_to_map l !! k) ↔ k ∈ l.*1.
Proof.
  unfold pairs_to_map. rewrite pairs_to_map_from, lookup_empty.
  destruct (list_to_map (reverse l) !! k) eqn:E.
  - split; [intros _|by eauto].
    apply elem_of_list_to_map_2 in E.
    rewrite elem_of_reverse in E. by apply (list_elem_of_fmap_2 fst) in E.
  - split; [by intros [? ?]|]. intros Hk.
    apply not_elem_of_list_to_map in E.
    rewrite fmap_reverse, elem_of_reverse in E. done.
Qed.

(** *** Digests and dependency records *)

Lemma app_empty_r (a : string) : a +:+ "" = a.
Proof. induction a; [done|]. rewrite app_String. by f_equal. Qed.

Lemma length_string_of_list (l : list ascii) :
  String.length (string_of_list_ascii l) = length l.
Proof. induction l; cbn; auto. Qed.

Lemma get_string_of_list (l : list ascii) (i : nat) :
  String.get i (string_of_list_ascii l) = l !! i.
Proof. revert i; induction l; intros []; cbn; auto. Qed.

Lemma get_app_l (a b : string) (i : nat) :
  (i < String.length a)%nat → String.get i (a +:+ b) = String.get i a.
Proof.
  revert i; induction a as [|c a IH]; intros i Hi; cbn in Hi; [lia|].
  rewrite app_String. destruct i; cbn; [done|]. apply IH. lia.
Qed.

Section Digests.
Variable SIZE : nat.

Lemma length_from_hash (h : hash_t SIZE) :
  String.length (from_string SIZE h) = SIZE.
Proof.
  unfold from_string. by rewrite length_string_of_list, length_vec_to_list.
Qed.

Lemma to_hash_from_hash data pos (h : hash_t SIZE) rest :
  at_pos data pos (from_string SIZE h +:+ rest) →
  to_string SIZE data pos = Ok (h, (pos + SIZE)%nat).
Proof.
  intros H. unfold to_string.
  pose proof (at_pos_length _ _ _ H) as Hlen.
  rewrite length_app, length_from_hash in Hlen.
  destruct (Nat.ltb_spec (String.length data) (pos + SIZE)); [lia|].
  f_equal. f_equal. apply vec_eq. intros i.
  rewrite lookup_fun_to_vec, (at_pos_get _ _ _ _ H).
  pose proof (fin_to_nat_lt i).
  rewrite get_app_l by (rewrite length_from_hash; lia).
  unfold from_string. rewrite get_string_of_list.
  by rewrite (proj1 (vlookup_lookup h i (h !!! i)) eq_refl).
Qed.

Lemma to_map_loop_deps (l : list (string * hash_t SIZE)) :
  ∀ data pos acc rest,
  Forall (λ e, fits_int32 (String.length e.1)) l →
  at_pos data pos (enc_deps l +:+ rest) →
  to_map_loop SIZE (length l) data pos acc
  = Ok (foldl (λ acc e, <[e.1 := e.2]> acc) acc l,
        (pos + String.length (enc_deps l))%nat).
Proof.
  induction l as [|[k h] l IH]; intros data pos acc rest Hfit H.
  { cbn. by rewrite Nat.add_0_r. }
  apply Forall_cons in Hfit as [Hk Hfit].
  cbn [length to_map_loop enc_deps foldr foldl fst snd] in *.
  fold (enc_deps l) in *. rewrite !app_assoc_str in H.
  rewrite (to_string_from_string _ _ _ _ Hk H). cbn [mbind result_bind].
  apply at_pos_advance in H.
  rewrite (to_hash_from_hash _ _ _ _ H). cbn [mbind result_bind].
  apply at_pos_advance in H. rewrite length_from_hash in H.
  rewrite (IH _ _ _ _ Hfit H), !length_app, length_from_hash.
  f_equal. f_equal. lia.
Qed.

Lemma to_map_from_map data pos (m : dependency_records_t SIZE) rest :
  fits_int32 (size m) →
  (∀ k h, m !! k = Some h → fits_int32 (String.length k)) →
  at_pos data pos (from_map SIZE m +:+ rest) →
  to_map SIZE data pos
  = Ok (m, (pos + String.length (from_map SIZE m))%nat).
Proof.
  intros Hn Hfit H. unfold to_map, from_map in *.
  fold (enc_deps (map_items m)) in *. rewrite app_assoc_str in H.
  rewrite (to_int_from_int _ _ _ _ H). cbn [mbind result_bind].
  apply at_pos_advance in H. rewrite length_from_int in H.
  rewrite wrap32_id by apply wrap32_range. rewrite wrap32_fits by done.
  rewrite Nat2Z.id, <- length_map_items.
  rewrite (to_map_loop_deps _ _ _ _ rest); [| |done].
  - rewrite length_app, length_from_int.
    fold (pairs_to_map (map_items m)). rewrite pairs_to_map_items.
    f_equal. f_equal. lia.
  - apply Forall_forall. intros [k h] Hkh. cbn.
    apply elem_of_map_items in Hkh. eauto.
Qed.
End Digests.

(** *** Decoding a blob of any readable version *)

Section Codec.
Variable SIZE : nat.
Variable compress : string → string.
Variable decompress : string → result string.

(** A version above the writer's is refused, whatever follows it. *)
Lemma deserialize_newer_version data v rest :
  ENTRY_DATA_FORMAT_VERSION < v → in_int32 v →
  data = serialize.from_int v +:+ rest →
  deserialize SIZE decompress data
  = Throw "Unsupported serialization format version.".
Proof.
  intros Hv Hr ->. unfold deserialize.
  erewrite to_int_from_int by apply at_pos_0.
  cbn [mbind result_bind]. rewrite wrap32_id by done.
  by destruct (Z.ltb_spec ENTRY_DATA_FORMAT_VERSION v); [|lia].
Qed.

(** Every version up to the writer's is decoded by the layout of that
    version; below version 2 the compression mode is [NONE]. *)
Lemma deserialize_layout v (e : cache_entry_t SIZE) pairs :
  (∀ s, decompress (compress s) = Ok s) →
  in_int32 v → v ≤ ENTRY_DATA_FORMAT_VERSION →
  (v < 2 → m_compression_mode e = NONE) →
  entry_fits SIZE compress e →
  (v < 3 → pairs_fit pairs) →
  deserialize SIZE decompress (layout SIZE compress v e pairs)
  = Ok (layout_entry SIZE v e pairs).
Proof.
  intros Hcomp Hv Hle Hmode [Hm Hc Hids Hid Hout Herr Hdeps Hdep] Hpairs.
  unfold deserialize, layout_entry, layout.
  rewrite <- (app_empty_r (from_map _ _)).
  assert (∃ b2 b3 b4,
    (2 <=? v) = b2 ∧ (3 <=? v) = b3 ∧ (4 <=? v) = b4
    ∧ (b2 = false → v < 2) ∧ (b3 = false → v < 3)
    ∧ ((b2, b3, b4) = (false, false, false)
       ∨ (b2, b3, b4) = (true, false, false)
       ∨ (b2, b3, b4) = (true, true, false)
       ∨ (b2, b3, b4) = (true, true, true)))
    as (b2 & b3 & b4 & E2 & E3 & E4 & V2 & V3 & Hb).
  { unfold ENTRY_DATA_FORMAT_VERSION in Hle.
    destruct (Z.leb_spec 2 v), (Z.leb_spec 3 v), (Z.leb_spec 4 v);
      do 3 eexists; repeat split; try done; try lia; eauto. }
  assert (b3 = false → pairs_fit pairs) as Hfit by (intros; apply Hpairs; eauto).
  assert (b2 = false → m_compression_mode e = NONE) as Hnone by eauto.
  rewrite E2, E3, E4.
  match goal with
  | |- context [serialize.to_int ?d 0] =>
      pose proof (at_pos_0 d) as H; set (data := d) in H at 1 |- *
  end.
  rewrite (to_int_from_int _ _ _ _ H). cbn [mbind result_bind].
  apply at_pos_advance in H. rewrite length_from_int in H.
  rewrite wrap32_id by done.
  destruct (Z.ltb_spec ENTRY_DATA_FORMAT_VERSION v) as [|_]; [lia|].
  rewrite E2, E3, E4. clear E2 E3 E4 Hmode Hpairs V2 V3.
  destruct Hb as [Hb|[Hb|[Hb|Hb]]]; injection Hb as -> -> ->;
  cbv iota in H |- *; rewrite ?app_empty in H;
  try (rewrite (to_int_from_int _ _ _ _ H);
       apply at_pos_advance in H; rewrite length_from_int in H;
       rewrite wrap32_id by done);
  cbn [mbind result_bind];
  first
    [ rewrite (to_vector_from_vector _ _ _ _ Hids Hid H)
    | destruct (Hfit eq_refl) as [Hn Hp];
      rewrite (to_map_from_pairs _ _ _ _ Hn Hp H) ];
  cbn [mbind result_bind]; apply at_pos_advance in H;
  rewrite (to_string_from_string _ _ _ _ Hout H);
  cbn [mbind result_bind]; apply at_pos_advance in H;
  rewrite (to_string_from_string _ _ _ _ Herr H);
  cbn [mbind result_bind]; apply at_pos_advance in H;
  rewrite (to_int_from_int _ _ _ _ H);
  cbn [mbind result_bind]; apply at_pos_advance in H;
  rewrite length_from_int in H;
  rewrite !(wrap32_id (m_return_code e)) by done;
  try rewrite (to_map_from_map _ _ _ _ _ Hdeps Hdep H);
  cbn [mbind result_bind];
  try (rewrite Hnone in * by done);
  unfold stored; case_decide; rewrite ?Hcomp; try done.
Qed.

Lemma serialize_layout (e : cache_entry_t SIZE) :
  serialize SIZE compress e
  = layout SIZE compress ENTRY_DATA_FORMAT_VERSION e [].
Proof.
  unfold serialize, layout, stored. cbn.
  case_decide; by rewrite ?app_assoc_str.
Qed.
End Codec.

Section CodecClaims.
Variable SIZE : nat.
Variable compress : string → string.
Variable decompress : string → result string.

Lemma layout_entry_current (e : cache_entry_t SIZE) :
  layout_entry SIZE ENTRY_DATA_FORMAT_VERSION e [] = e.
Proof. by destruct e. Qed.

(** A captured output of 2^31 bytes is written with the length field
    [-2^31] and cannot be read back. *)
Lemma deserialize_oversized (e : cache_entry_t SIZE) :
  m_compression_mode e = NONE → m_file_ids e = [] →
  Z.of_nat (String.length (m_std_out e)) = 2^31 →
  deserialize SIZE decompress (serialize SIZE compress e)
  = Throw "Premature end of serialized data stream.".
Proof.
  intros Hmode Hids Hlen. unfold deserialize, serialize.
  rewrite Hmode, Hids. destruct (decide (NONE = ALL)) as [Hd|_]; [done|].
  match goal with
  | |- context [serialize.to_int ?d 0] =>
      pose proof (at_pos_0 d) as H; set (data := d) in H at 1 |- *
  end.
  rewrite (to_int_from_int _ _ _ _ H). cbn [mbind result_bind].
  apply at_pos_advance in H. rewrite length_from_int in H.
  change (ENTRY_DATA_FORMAT_VERSION <?
            serialize.wrap32 ENTRY_DATA_FORMAT_VERSION) with false.
  change (2 <=? serialize.wrap32 ENTRY_DATA_FORMAT_VERSION) with true.
  change (3 <=? serialize.wrap32 ENTRY_DATA_FORMAT_VERSION) with true.
  cbv iota.
  rewrite (to_int_from_int _ _ _ _ H). cbn [mbind result_bind].
  apply at_pos_advance in H. rewrite length_from_int in H.
  assert (fits_int32 (length (@nil string))) as Hz by (cbv; done).
  rewrite (to_vector_from_vector _ _ [] _ Hz (Forall_nil_2 _) H).
  cbn [mbind result_bind]. apply at_pos_advance in H.
  unfold serialize.to_string. unfold serialize.from_string at 1 in H.
  rewrite !app_assoc_str in H.
  rewrite (to_int_from_int _ _ _ _ H). cbn [mbind result_bind].
  rewrite Hlen. reflexivity.
Qed.
End CodecClaims.

Lemma length_filler (n : nat) : String.length (filler n) = n.
Proof. induction n; cbn; auto. Qed.

(** C4 (amended).  For every cache entry whose lengths and counts fit a
    signed 32-bit integer (the number of file identifiers and each of them,
    the two captured outputs as stored, the number of dependencies and each
    dependency path) and whose compression mode and return code are [int]
    values, deserializing the serialized entry yields the entry, field by
    field, when [decompress] is a left inverse of [compress]. *)
Theorem C4_serialization_round_trip :
  ∀ SIZE compress decompress (e : cache_entry_t SIZE),
    (∀ s, decompress (compress s) = Ok s) →
    entry_fits SIZE compress e →
    deserialize SIZE decompress (serialize SIZE compress e) = Ok e.
Proof.
  intros SIZE compress decompress e Hcomp Hfit.
  rewrite serialize_layout.
  rewrite (deserialize_layout SIZE compress decompress);
    try done; try (unfold ENTRY_DATA_FORMAT_VERSION; intros; lia).
  by rewrite layout_entry_current.
Qed.

Lemma entry_small_fits : entry_fits 2 toy_compress entry_small.
Proof.
  split.
  - by vm_compute.
  - by vm_compute.
  - by vm_compute.
  - repeat constructor; by vm_compute.
  - by vm_compute.
  - by vm_compute.
  - by vm_compute.
  - cbn [m_dependency_records entry_small].
    intros k h [<- _]%lookup_singleton_Some. by vm_compute.
Qed.

Lemma C4_serialization_round_trip_witness :
  deserialize 2 toy_decompress (serialize 2 toy_compress entry_small)
  = Ok entry_small.
Proof.
  apply (C4_serialization_round_trip 2 toy_compress toy_decompress entry_small).
  - intros s. unfold toy_decompress, toy_compress. simpl. reflexivity.
  - exact entry_small_fits.
Defined.

(** C4 as stated fails for an entry whose captured output has 2^31 bytes:
    the length does not fit the 32-bit length field. *)
Lemma C4_counterexample :
  (∀ s, toy_decompress (toy_compress s) = Ok s)
  ∧ deserialize 2 toy_decompress (serialize 2 toy_compress entry_oversized)
    ≠ Ok entry_oversized.
Proof.
  split; [done|].
  rewrite (deserialize_oversized 2 toy_compress toy_decompress entry_oversized);
    [discriminate|done..|].
  cbn [m_std_out entry_oversized]. rewrite length_filler.
  apply Z2Nat.id. lia.
Qed.

(** C8 (amended).  [deserialize] refuses exactly the versions above 4: a
    blob whose leading int32 is greater than 4 is refused whatever follows,
    and a blob in the layout of any version up to 4 is decoded, versions 2,
    3 and 4 as well as versions below 2, which are read like version 2
    without the compression field (compression mode [NONE]). *)
Theorem C8_accepted_versions :
  ∀ SIZE compress decompress v (e : cache_entry_t SIZE) pairs rest,
    (∀ s, decompress (compress s) = Ok s) →
    in_int32 v →
    entry_fits SIZE compress e → pairs_fit pairs →
    (v < 2 → m_compression_mode e = NONE) →
    (4 < v →
       deserialize SIZE decompress (serialize.from_int v +:+ rest)
       = Throw "Unsupported serialization format version.")
    ∧ (v ≤ 4 →
       deserialize SIZE decompress (layout SIZE compress v e pairs)
       = Ok (layout_entry SIZE v e pairs)).
Proof.
  intros SIZE compress decompress v e pairs rest Hcomp Hv Hfit Hpairs Hmode.
  split; intros Hle.
  - by eapply deserialize_newer_version.
  - by apply deserialize_layout.
Qed.

Lemma entry_legacy_fits : entry_fits 2 toy_compress entry_legacy.
Proof.
  split.
  - by vm_compute.
  - by vm_compute.
  - by vm_compute.
  - constructor.
  - by vm_compute.
  - by vm_compute.
  - by vm_compute.
  - cbn [m_dependency_records entry_legacy]. intros k h.
    by rewrite lookup_empty.
Qed.

Lemma pairs_ba_fit : pairs_fit pairs_ba.
Proof. split; [by vm_compute|]. repeat constructor; by vm_compute. Qed.

Lemma C8_accepted_versions_witness :
  deserialize 2 toy_decompress (serialize.from_int 5 +:+ "")
  = Throw "Unsupported serialization format version."
  ∧ deserialize 2 toy_decompress (layout 2 toy_compress 3 entry_legacy pairs_ba)
    = Ok (layout_entry 2 3 entry_legacy pairs_ba).
Proof.
  split.
  - apply (C8_accepted_versions 2 toy_compress toy_decompress 5 entry_legacy
             pairs_ba "");
      [done | by vm_compute | exact entry_legacy_fits | exact pairs_ba_fit
      | done | lia].
  - apply (C8_accepted_versions 2 toy_compress toy_decompress 3 entry_legacy
             pairs_ba "");
      [done | by vm_compute | exact entry_legacy_fits | exact pairs_ba_fit
      | lia | lia].
Defined.

(** C8 as stated fails: a blob whose leading int32 is 1 is decoded. *)
Lemma C8_counterexample :
  serialize.to_int blob_v1 0 = Ok (1, 4%nat)
  ∧ deserialize 2 toy_decompress blob_v1
    = Ok (mkEntry ["a"; "b"] ∅ NONE "out" "" 1).
Proof. split; vm_compute; reflexivity. Qed.

(** C9 (amended).  When a version-2 blob is deserialized, the file-id
    vector holds the keys of the serialized string→string map in ascending
    byte order, each key once, whatever the order and the repetitions of
    the pairs in the stream. *)
Theorem C9_v2_file_ids_sorted :
  ∀ SIZE compress decompress (e : cache_entry_t SIZE) pairs,
    (∀ s, decompress (compress s) = Ok s) →
    entry_fits SIZE compress e → pairs_fit pairs →
    ∃ e',
      deserialize SIZE decompress (layout SIZE compress 2 e pairs) = Ok e'
      ∧ StronglySorted String.le (m_file_ids e')
      ∧ NoDup (m_file_ids e')
      ∧ ∀ k, k ∈ m_file_ids e' ↔ k ∈ pairs.*1.
Proof.
  intros SIZE compress decompress e pairs Hcomp Hfit Hpairs.
  eexists. split.
  { by apply deserialize_layout. }
  cbn [layout_entry m_file_ids Z.leb Z.compare Pos.compare Pos.compare_cont].
  unfold v2_files_to_vector.
  split; [apply map_items_sorted|]. split; [apply NoDup_fst_map_items|].
  intros k. rewrite <- (pairs_to_map_dom pairs). split.
  - intros ([k' v] & -> & Hin)%list_elem_of_fmap.
    apply elem_of_map_items in Hin. by eexists.
  - intros [v Hv]. apply elem_of_map_items in Hv.
    by apply (list_elem_of_fmap_2 fst) in Hv.
Qed.

Lemma C9_v2_file_ids_sorted_witness :
  ∃ e',
    deserialize 2 toy_decompress (layout 2 toy_compress 2 entry_legacy pairs_ba)
    = Ok e'
    ∧ StronglySorted String.le (m_file_ids e')
    ∧ NoDup (m_file_ids e')
    ∧ ∀ k, k ∈ m_file_ids e' ↔ k ∈ pairs_ba.*1.
Proof.
  apply (C9_v2_file_ids_sorted 2 toy_compress toy_decompress entry_legacy
           pairs_ba).
  - done.
  - exact entry_legacy_fits.
  - exact pairs_ba_fit.
Defined.

(** C9 as stated fails: for the pairs [b] then [a] the file-id vector is
    [a], [b], not the stream order [b], [a]. *)
Lemma C9_counterexample :
  ∃ e',
    deserialize 2 toy_decompress blob_v2 = Ok e'
    ∧ m_file_ids e' = ["a"; "b"]
    ∧ m_file_ids e' ≠ pairs_ba.*1.
Proof.
  eexists. split; [vm_compute; reflexivity|].
  split; [reflexivity | discriminate].
Qed.

(** ** Properties of the wrapper pipeline *)

Section WrapperFacts.
Variable SIZE : nat.
Variable hash_file : string → option (hash_t SIZE).

Lemma filter_cache_hit_loop_spec records :
  ∀ m_dependencies : dependency_records_t SIZE,
  let r := filter_cache_hit_loop SIZE hash_file records m_dependencies in
  (r.1 = true ↔
     Forall (λ e, current_digest hash_file m_dependencies e.1 = Some e.2)
       records)
  ∧ (∀ p, current_digest hash_file r.2 p
          = current_digest hash_file m_dependencies p)
  ∧ m_dependencies ⊆ r.2
  ∧ (r.1 = true → Forall (λ e, r.2 !! e.1 = Some e.2) records).
Proof.
  induction records as [|[include cached] more IH]; intros ledger; cbn zeta.
  { cbn. split; [by split|]. split; [done|]. split; [done|]. by constructor. }
  cbn [filter_cache_hit_loop]. unfold get_dependency_digest.
  rewrite Forall_cons. unfold current_digest at 1. cbn [fst snd].
  destruct (ledger !! include) as [digest|] eqn:Hl.
  - destruct (decide (digest ≠ cached)) as [Hne|Heq%dec_stable].
    + cbn. split; [split; [done|]; intros [[=] _]; done|].
      split; [done|]. split; [done|]. done.
    + subst digest. destruct (IH ledger) as (IH1 & IH2 & IH3 & IH4).
      split; [rewrite IH1; split; [by split | by intros [_ ?]]|].
      split; [done|]. split; [done|].
      intros Ht. rewrite Forall_cons. split; [|by apply IH4].
      cbn. by eapply lookup_weaken.
  - destruct (hash_file include) as [digest|] eqn:Hh.
    + unfold set_dependency_digest.
      assert (∀ p, current_digest hash_file (<[include:=digest]> ledger) p
                   = current_digest hash_file ledger p) as Hcur.
      { intros p. unfold current_digest.
        destruct (decide (include = p)) as [<-|Hne].
        - by rewrite lookup_insert_eq, Hl, Hh.
        - by rewrite lookup_insert_ne. }
      assert (ledger ⊆ <[include:=digest]> ledger) as Hsub
        by by apply insert_subseteq.
      destruct (decide (digest ≠ cached)) as [Hne|Heq%dec_stable].
      * cbn. split; [split; [done|]; intros [[=] _]; done|].
        split; [done|]. split; [done|]. done.
      * subst digest.
        destruct (IH (<[include:=cached]> ledger)) as (IH1 & IH2 & IH3 & IH4).
        split.
        { rewrite IH1, !Forall_forall. split.
          - intros H. split; [done|]. intros e He.
            rewrite <- Hcur. by apply H.
          - intros [_ H] e He. rewrite Hcur. by apply H. }
        split; [intros p; by rewrite IH2|].
        split; [by etrans|].
        intros Ht. rewrite Forall_cons. split; [|by apply IH4].
        cbn. eapply lookup_weaken; [|exact IH3]. apply lookup_insert_eq.
    + cbn. split; [split; [done|]; intros [[=] _]|].
      split; [done|]. split; [done|]. done.
Qed.

Lemma is_system_include_spec paths path :
  is_system_include paths path = true
  ↔ ∃ include_path, include_path ∈ paths
                    ∧ starts_with path include_path = true.
Proof.
  induction paths as [|ip paths IH]; cbn.
  { split; [done|]. by intros (? & ?%elem_of_nil & _). }
  destruct (starts_with path ip) eqn:E.
  - split; [intros _|done]. exists ip. split; [left|done].
  - rewrite IH. split.
    + intros (x & Hx & Hs). exists x. split; [by right|done].
    + intros (x & [->|Hx]%elem_of_cons & Hs); [congruence|eauto].
Qed.

Lemma is_system_include_env INCLUDE path :
  is_system_include (env_include_paths INCLUDE) path = true
  ↔ under_include INCLUDE path.
Proof.
  rewrite is_system_include_spec. unfold env_include_paths, under_include.
  split.
  - intros (ip & (e & -> & [He Hin]%list_elem_of_filter)%list_elem_of_fmap & Hs).
    eauto.
  - intros (e & Hin & He & Hs). exists (lower_case e). split; [|done].
    apply list_elem_of_fmap. exists e. split; [done|].
    by apply list_elem_of_filter.
Qed.

End WrapperFacts.

(** *** The ledger that [filter_cache_hit] leaves *)

Section FilterLedger.
Variable SIZE : nat.
Variable hash_file : string → option (hash_t SIZE).

Lemma filter_step_ledger include cached more digest
    (ledger : dependency_records_t SIZE) :
  ledger !! include = Some digest →
  filter_cache_hit_loop SIZE hash_file ((include, cached) :: more) ledger
  = if decide (digest ≠ cached) then (false, ledger)
    else filter_cache_hit_loop SIZE hash_file more ledger.
Proof.
  intros H. cbn [filter_cache_hit_loop]. unfold get_dependency_digest.
  by rewrite H.
Qed.

Lemma filter_step_hash include cached more digest
    (ledger : dependency_records_t SIZE) :
  ledger !! include = None → hash_file include = Some digest →
  filter_cache_hit_loop SIZE hash_file ((include, cached) :: more) ledger
  = if decide (digest ≠ cached) then (false, <[include:=digest]> ledger)
    else filter_cache_hit_loop SIZE hash_file more
           (<[include:=digest]> ledger).
Proof.
  intros H Hh. cbn [filter_cache_hit_loop]. unfold get_dependency_digest.
  by rewrite H, Hh.
Qed.

Lemma filter_step_throw include cached more
    (ledger : dependency_records_t SIZE) :
  ledger !! include = None → hash_file include = None →
  filter_cache_hit_loop SIZE hash_file ((include, cached) :: more) ledger
  = (false, ledger).
Proof.
  intros H Hh. cbn [filter_cache_hit_loop]. unfold get_dependency_digest.
  by rewrite H, Hh.
Qed.

Lemma looked_at_cons include cached more
    (cur : string → option (hash_t SIZE)) p :
  looked_at ((include, cached) :: more) cur p
  ↔ p = include ∨ (cur include = Some cached ∧ looked_at more cur p).
Proof.
  split.
  - intros (front & c & rest & Heq & Hfront).
    destruct front as [|e front]; simplify_eq/=.
    + by left.
    + apply Forall_cons in Hfront as [He Hfront].
      right. split; [done|]. by exists front, c, rest.
  - intros [->|[Hc (front & c & rest & -> & Hfront)]].
    + by exists [], cached, more.
    + exists ((include, cached) :: front), c, rest. split; [done|].
      by constructor.
Qed.

Lemma looked_at_ext (records : list (string * hash_t SIZE)) cur1 cur2 p :
  (∀ q, cur1 q = cur2 q) → looked_at records cur1 p → looked_at records cur2 p.
Proof.
  intros Hcur (front & c & rest & -> & Hfront).
  exists front, c, rest. split; [done|].
  eapply Forall_impl; [exact Hfront|]. intros e He. by rewrite <- Hcur.
Qed.

(** The ledger that the loop leaves: the current digest of every include
    it looked at, stored before the comparison, and otherwise what the
    ledger held. *)
Lemma filter_cache_hit_loop_ledger_exact records :
  ∀ ledger : dependency_records_t SIZE,
  let r := filter_cache_hit_loop SIZE hash_file records ledger in
  (∀ p, looked_at records (current_digest hash_file ledger) p →
        r.2 !! p = current_digest hash_file ledger p)
  ∧ (∀ p, ¬ looked_at records (current_digest hash_file ledger) p →
          r.2 !! p = ledger !! p).
Proof.
  induction records as [|[include cached] more IH]; intros ledger; cbn zeta.
  { split; [|done]. intros p (front & c & rest & Heq & _).
    by destruct front. }
  pose proof (filter_cache_hit_loop_spec SIZE hash_file more) as Hspec.
  destruct (ledger !! include) as [digest|] eqn:Hl.
  - assert (current_digest hash_file ledger include = Some digest) as Hcur
      by (unfold current_digest; by rewrite Hl).
    rewrite (filter_step_ledger _ _ _ _ _ Hl).
    destruct (decide (digest ≠ cached)) as [Hne|Heq%dec_stable].
    + split; intros p; rewrite looked_at_cons, Hcur; cbn [snd].
      * intros [->|[[= ?] _]]; [by rewrite Hcur, Hl | done].
      * done.
    + subst digest. destruct (IH ledger) as [IH1 IH2].
      destruct (Hspec ledger) as (_ & _ & Hsub & _).
      split; intros p; rewrite looked_at_cons.
      * intros [->|[_ Hp]]; [|by apply IH1].
        rewrite Hcur. by eapply lookup_weaken.
      * intros Hp. apply IH2. intros Hp'. apply Hp. by right.
  - destruct (hash_file include) as [digest|] eqn:Hh.
    + assert (current_digest hash_file ledger include = Some digest) as Hcur
        by (unfold current_digest; by rewrite Hl, Hh).
      assert (∀ q, current_digest hash_file (<[include:=digest]> ledger) q
                   = current_digest hash_file ledger q) as Hins.
      { intros q. unfold current_digest.
        destruct (decide (include = q)) as [<-|Hq].
        - by rewrite lookup_insert_eq, Hl, Hh.
        - by rewrite lookup_insert_ne. }
      rewrite (filter_step_hash _ _ _ _ _ Hl Hh).
      destruct (decide (digest ≠ cached)) as [Hne|Heq%dec_stable].
      * split; intros p; rewrite looked_at_cons, Hcur; cbn [snd].
        -- intros [->|[[= ?] _]]; [by rewrite Hcur, lookup_insert_eq | done].
        -- intros Hp. rewrite lookup_insert_ne; [done|].
           intros <-. apply Hp. by left.
      * subst digest.
        destruct (IH (<[include:=cached]> ledger)) as [IH1 IH2].
        destruct (Hspec (<[include:=cached]> ledger)) as (_ & _ & Hsub & _).
        split; intros p; rewrite looked_at_cons.
        -- intros [->|[_ Hp]].
           ++ rewrite Hcur. eapply lookup_weaken; [|exact Hsub].
              apply lookup_insert_eq.
           ++ rewrite <- Hins. apply IH1.
              eapply looked_at_ext; [|exact Hp]. intros q. by rewrite Hins.
        -- intros Hp. rewrite IH2.
           ++ rewrite lookup_insert_ne; [done|].
              intros <-. apply Hp. by left.
           ++ intros Hp'. apply Hp. right. split; [done|].
              eapply looked_at_ext; [|exact Hp']. apply Hins.
    + assert (current_digest hash_file ledger include = None) as Hcur
        by (unfold current_digest; by rewrite Hl, Hh).
      rewrite (filter_step_throw _ _ _ _ Hl Hh).
      split; intros p; rewrite looked_at_cons, Hcur; cbn [snd].
      * intros [->|[[=] _]]. by rewrite Hcur.
      * done.
Qed.
End FilterLedger.

(** C2.  [filter_cache_hit] returns true exactly when every include of the
    entry's dependency record has a current digest equal to the cached one,
    the current digest being the ledger's when the ledger has one and else
    the hash of the file on disk.  A digest that was computed is stored in
    the ledger, before it is compared: for a hit and for a miss alike, the
    ledger that is left holds the current digest of every include the loop
    looked at (the includes of the record, in the order of iteration, up to
    and including the first whose digest differs or cannot be computed) and
    is unchanged everywhere else; so the ledger only grows, the current
    digests stay what they were, and after a hit the ledger holds the
    cached digest of every include of the record.  When hashing an include
    throws, the verdict is false: the function always returns a verdict. *)
Theorem C2_filter_cache_hit :
  ∀ SIZE (hash_file : string → option (hash_t SIZE))
    (entry : cache_entry_t SIZE) (m_dependencies : dependency_records_t SIZE),
    let r := filter_cache_hit SIZE hash_file entry m_dependencies in
    (r.1 = true ↔
       ∀ include cached,
         m_dependency_records entry !! include = Some cached →
         current_digest hash_file m_dependencies include = Some cached)
    ∧ m_dependencies ⊆ r.2
    ∧ (∀ p, current_digest hash_file r.2 p
            = current_digest hash_file m_dependencies p)
    ∧ (r.1 = true →
       ∀ include cached,
         m_dependency_records entry !! include = Some cached →
         r.2 !! include = Some cached)
    ∧ (∀ include cached,
         m_dependency_records entry !! include = Some cached →
         m_dependencies !! include = None → hash_file include = None →
         r.1 = false)
    ∧ (∀ include,
         looked_at (map_items (m_dependency_records entry))
           (current_digest hash_file m_dependencies) include →
         r.2 !! include = current_digest hash_file m_dependencies include)
    ∧ (∀ include,
         ¬ looked_at (map_items (m_dependency_records entry))
             (current_digest hash_file m_dependencies) include →
         r.2 !! include = m_dependencies !! include).
Proof.
  intros SIZE hash_file entry ledger r.
  destruct (filter_cache_hit_loop_spec SIZE hash_file
              (map_items (m_dependency_records entry)) ledger)
    as (H1 & H2 & H3 & H4).
  fold (filter_cache_hit SIZE hash_file entry ledger) in H1, H2, H3, H4.
  fold r in H1, H2, H3, H4.
  assert (r.1 = true ↔
       ∀ include cached,
         m_dependency_records entry !! include = Some cached →
         current_digest hash_file ledger include = Some cached) as Hiff.
  { rewrite H1, Forall_forall. split.
    - intros H include cached Hin. apply elem_of_map_items in Hin.
      by apply H in Hin.
    - intros H [include cached] Hin. apply elem_of_map_items in Hin.
      by apply H. }
  split; [done|]. split; [done|]. split; [done|].
  split; [|split; [|apply filter_cache_hit_loop_ledger_exact]].
  - intros Ht include cached Hin. apply H4 in Ht.
    rewrite Forall_forall in Ht. apply elem_of_map_items in Hin.
    by apply Ht in Hin.
  - intros include cached Hin Hl Hh. destruct r.1 eqn:E; [|done].
    apply Hiff in Hin; [|done]. unfold current_digest in Hin.
    rewrite Hl, Hh in Hin. done.
Qed.

(** A miss by a digest that differs: the digest that was computed is in
    the ledger afterwards. *)
Lemma filter_cache_hit_miss_stores_digest :
  filter_cache_hit 2 hash_any
    (mkEntry [] {[ "d:\src\x.h" := digest_cd ]} NONE "" "" 0) ∅
  = (false, {[ "d:\src\x.h" := digest_ab ]}).
Proof. vm_compute. reflexivity. Qed.

(** *** What the loop of [run_for_miss] records *)

Section LedgerFacts.
Variable SIZE : nat.
Variable hash_file : string → option (hash_t SIZE).

Lemma current_digest_insert (ledger : dependency_records_t SIZE) include digest :
  ledger !! include = None → hash_file include = Some digest →
  ∀ p, current_digest hash_file (<[include:=digest]> ledger) p
       = current_digest hash_file ledger p.
Proof.
  intros Hl Hh p. unfold current_digest.
  destruct (decide (include = p)) as [<-|Hne].
  - by rewrite lookup_insert_eq, Hl, Hh.
  - by rewrite lookup_insert_ne.
Qed.

Ltac ledger_cases p include :=
  destruct (decide (p = include)) as [->|?];
  rewrite ?lookup_insert_eq, ?lookup_insert_ne by done;
  unfold current_digest;
  repeat match goal with
    | E : ?l !! ?k = _ |- context [?l !! ?k] => rewrite E
    | E : hash_file ?k = _ |- context [hash_file ?k] => rewrite E
    end;
  repeat (let Hd := fresh "Hd" in
          case_decide as Hd;
          rewrite ?lookup_insert_eq, ?lookup_insert_ne in Hd by done);
  try reflexivity; exfalso;
  first
    [ match goal with
      | Hp : _ ∧ (_ ∨ _) |- _ =>
          destruct Hp as [_ [[? ?]|?]]; congruence
      | Hp : _ ∧ _ |- _ => destruct Hp as [_ ?]; congruence
      end
    | match goal with
      | Hn : ¬ _ |- _ =>
          apply Hn; clear Hn;
          try match goal with Hp : _ ∧ _ |- _ => destruct Hp as [? ?] end;
          split;
          [rewrite ?elem_of_cons in *; first [by left | tauto]
          |first [tauto | left; by eexists | right; assumption]]
      end ].

(** What [collect_dependencies] leaves in the record and in the ledger. *)
Lemma collect_dependencies_lookup paths src_deps :
  ∀ (deps ledger deps' ledger' : dependency_records_t SIZE),
  collect_dependencies SIZE hash_file paths src_deps deps ledger
  = Ok (deps', ledger') →
  (∀ p, deps' !! p
        = if decide (p ∈ src_deps
                     ∧ (is_Some (ledger !! p)
                        ∨ is_system_include paths p = false))
          then current_digest hash_file ledger p else deps !! p)
  ∧ (∀ p, ledger' !! p
          = if decide (p ∈ src_deps ∧ is_system_include paths p = false)
            then current_digest hash_file ledger p else ledger !! p).
Proof.
  induction src_deps as [|include more IH];
    intros deps ledger deps' ledger' H.
  { injection H as <- <-.
    split; intros p; case_decide as Hd; try done;
      destruct Hd as [Hin _]; by apply elem_of_nil in Hin. }
  cbn [collect_dependencies] in H. unfold get_dependency_digest in H.
  destruct (ledger !! include) as [digest|] eqn:El.
  - apply IH in H as [IH1 IH2].
    split; intros p; rewrite ?IH1, ?IH2; ledger_cases p include.
  - destruct (is_system_include paths include) eqn:Es.
    + apply IH in H as [IH1 IH2].
      split; intros p; rewrite ?IH1, ?IH2; ledger_cases p include.
    + destruct (hash_file include) as [digest|] eqn:Eh; [|discriminate].
      unfold set_dependency_digest in H. apply IH in H as [IH1 IH2].
      split; intros p; rewrite ?IH1, ?IH2;
        rewrite !(current_digest_insert _ _ _ El Eh);
        ledger_cases p include.
Qed.
End LedgerFacts.

(** *** System includes and the dependency records *)

Section SystemIncludes.
Variable SIZE : nat.
Variable hash_file : string → option (hash_t SIZE).
Variable get_source_dependencies : string → result (list string).
Variable INCLUDE : string.

(** For a path in lower case the test of the code is the
    case-insensitive prefix test. *)
Lemma is_system_include_lower p :
  lower_case p = p →
  is_system_include (env_include_paths INCLUDE) p = true
  ↔ begins_with_include INCLUDE p.
Proof.
  intros Hp. rewrite is_system_include_env.
  unfold under_include, begins_with_include. by rewrite Hp.
Qed.

(** A successful pass over the reported paths has hashed every path it
    had to. *)
Lemma collect_dependencies_hashed paths src_deps :
  ∀ (deps ledger deps' ledger' : dependency_records_t SIZE),
  collect_dependencies SIZE hash_file paths src_deps deps ledger
  = Ok (deps', ledger') →
  ∀ p, p ∈ src_deps → is_system_include paths p = false →
       is_Some (current_digest hash_file ledger p).
Proof.
  induction src_deps as [|include more IH];
    intros deps ledger deps' ledger' H p Hin Hsys.
  { by apply elem_of_nil in Hin. }
  cbn [collect_dependencies] in H. unfold get_dependency_digest in H.
  destruct (decide (p = include)) as [->|Hne].
  - unfold current_digest.
    destruct (ledger !! include) as [digest|]; [by eexists|].
    rewrite Hsys in H. destruct (hash_file include); [by eexists|done].
  - apply elem_of_cons in Hin as [?|Hin]; [done|].
    destruct (ledger !! include) as [digest|] eqn:Hl; [by eapply IH|].
    destruct (is_system_include paths include); [by eapply IH|].
    destruct (hash_file include) as [digest|] eqn:Hh; [|done].
    unfold set_dependency_digest in H.
    rewrite <- (current_digest_insert SIZE hash_file ledger include digest)
      by done.
    by eapply IH.
Qed.

Hypothesis reports_lower_case :
  ∀ file_name src_deps,
    get_source_dependencies file_name = Ok src_deps →
    Forall (λ p, lower_case p = p) src_deps.

Lemma run_for_miss_records_classified miss_infos :
  ∀ (ledger ledger' : dependency_records_t SIZE) records,
  (∀ p, is_Some (ledger !! p) → ¬ begins_with_include INCLUDE p) →
  run_for_miss_records SIZE hash_file get_source_dependencies
    (env_include_paths INCLUDE) miss_infos ledger = Ok (records, ledger') →
  (∀ p, is_Some (ledger' !! p) → ¬ begins_with_include INCLUDE p)
  ∧ ∀ file_name deps, (file_name, deps) ∈ records →
      ∃ src_deps,
        get_source_dependencies file_name = Ok src_deps
        ∧ (∀ p, is_Some (deps !! p) →
                p ∈ src_deps ∧ ¬ begins_with_include INCLUDE p)
        ∧ (∀ p, p ∈ src_deps →
                (deps !! p = None ↔ begins_with_include INCLUDE p)).
Proof.
  induction miss_infos as [|file_name more IH];
    intros ledger ledger' records Hinv H.
  { injection H as <- <-. split; [done|].
    intros f deps Hin. by apply elem_of_nil in Hin. }
  cbn [run_for_miss_records] in H.
  destruct (get_source_dependencies file_name) as [src_deps| |] eqn:Hsrc;
    cbn in H; try discriminate.
  destruct (collect_dependencies _ _ _ src_deps ∅ ledger)
    as [[deps1 ledger1]| |] eqn:E; cbn in H; try discriminate.
  destruct (run_for_miss_records _ _ _ _ more ledger1)
    as [[records1 ledger2]| |] eqn:E'; cbn in H; try discriminate.
  injection H as <- <-.
  pose proof (reports_lower_case _ _ Hsrc) as Hlower.
  rewrite Forall_forall in Hlower.
  pose proof (collect_dependencies_hashed _ _ _ _ _ _ E) as Hhashed.
  apply collect_dependencies_lookup in E as [Hdeps Hledger].
  assert (∀ p, is_Some (ledger1 !! p) → ¬ begins_with_include INCLUDE p)
    as Hinv1.
  { intros p. rewrite Hledger. case_decide as Hc; [|apply Hinv].
    destruct Hc as [Hin Hsys]. intros _.
    rewrite <- is_system_include_lower by auto. by rewrite Hsys. }
  destruct (IH _ _ _ Hinv1 E') as [Hinv2 Hrec].
  split; [done|]. intros f deps [[= -> ->]|Hin]%elem_of_cons; [|by apply Hrec].
  exists src_deps. split; [done|]. split.
  - intros p. rewrite Hdeps, lookup_empty.
    case_decide as Hc; [|by intros [? ?]].
    destruct Hc as [Hin [Hl|Hsys]]; intros _; split; try done.
    + by apply Hinv.
    + rewrite <- is_system_include_lower by auto. by rewrite Hsys.
  - intros p Hin. rewrite Hdeps, lookup_empty.
    rewrite <- is_system_include_lower by auto.
    destruct (is_system_include (env_include_paths INCLUDE) p) eqn:Hsys.
    + split; [done|]. intros _. case_decide as Hc; [|done].
      destruct Hc as [_ [Hl|?]]; [|done].
      apply Hinv in Hl. destruct Hl.
      rewrite <- is_system_include_lower by auto. done.
    + split; [|done]. intros Hnone. exfalso.
      case_decide as Hc.
      * destruct (Hhashed p Hin Hsys) as [x Hx]. congruence.
      * apply Hc. auto.
Qed.
End SystemIncludes.

(** C3.  A dependency path reported by the compiler is classified as a
    system include, and left out of the dependency record, exactly when it
    begins case-insensitively with a non-empty entry of [INCLUDE]; and no
    dependency record produced by [run_for_miss] contains a path whose
    lower-cased form begins with a lower-cased non-empty entry of
    [INCLUDE].  The code tests the path as reported against the
    lower-cased entries: the reports are in lower case (version 1.0 of the
    compiler's report, the only one read), and the ledger, which is
    consulted before the test, holds no system path, which stays so. *)
Theorem C3_system_include_exclusion :
  ∀ SIZE (hash_file : string → option (hash_t SIZE)) get_source_dependencies
    INCLUDE miss_infos (m_dependencies ledger' : dependency_records_t SIZE)
    records,
    (∀ file_name src_deps,
       get_source_dependencies file_name = Ok src_deps →
       Forall (λ p, lower_case p = p) src_deps) →
    (∀ p, is_Some (m_dependencies !! p) → ¬ begins_with_include INCLUDE p) →
    run_for_miss_records SIZE hash_file get_source_dependencies
      (env_include_paths INCLUDE) miss_infos m_dependencies
    = Ok (records, ledger') →
    (∀ file_name deps p,
       (file_name, deps) ∈ records → is_Some (deps !! p) →
       ¬ begins_with_include INCLUDE p)
    ∧ (∀ file_name deps,
         (file_name, deps) ∈ records →
         ∃ src_deps,
           get_source_dependencies file_name = Ok src_deps
           ∧ ∀ p, p ∈ src_deps →
               (is_system_include (env_include_paths INCLUDE) p = true
                ↔ begins_with_include INCLUDE p)
               ∧ (deps !! p = None ↔ begins_with_include INCLUDE p))
    ∧ (∀ p, is_Some (ledger' !! p) → ¬ begins_with_include INCLUDE p).
Proof.
  intros SIZE hash_file gsd INCLUDE miss_infos ledger ledger' records
    Hlower Hinv H.
  destruct (run_for_miss_records_classified SIZE hash_file gsd INCLUDE Hlower
              miss_infos ledger ledger' records Hinv H) as [Hinv' Hrec].
  split; [|split; [|done]].
  - intros f deps p Hin Hp.
    destruct (Hrec f deps Hin) as (src_deps & _ & Hsome & _).
    by apply Hsome.
  - intros f deps Hin.
    destruct (Hrec f deps Hin) as (src_deps & Hsrc & _ & Hnone).
    exists src_deps. split; [done|]. intros p Hp. split; [|by apply Hnone].
    apply is_system_include_lower.
    pose proof (Hlower _ _ Hsrc) as Hl. rewrite Forall_forall in Hl. auto.
Qed.

Lemma C3_system_include_exclusion_witness :
  (∀ file_name deps p,
     (file_name, deps)
     ∈ [("a.cpp", ({[ "d:\src\x.h" := digest_ab ]} : dependency_records_t 2))] →
     is_Some (deps !! p) →
     ¬ begins_with_include "C:\sys;;D:\Inc" p)
  ∧ (∀ file_name deps,
       (file_name, deps)
       ∈ [("a.cpp",
           ({[ "d:\src\x.h" := digest_ab ]} : dependency_records_t 2))] →
       ∃ src_deps,
         report_lower file_name = Ok src_deps
         ∧ ∀ p, p ∈ src_deps →
             (is_system_include (env_include_paths "C:\sys;;D:\Inc") p = true
              ↔ begins_with_include "C:\sys;;D:\Inc" p)
             ∧ (deps !! p = None ↔ begins_with_include "C:\sys;;D:\Inc" p))
  ∧ (∀ p, is_Some
            (({[ "d:\src\x.h" := digest_ab ]} : dependency_records_t 2) !! p) →
          ¬ begins_with_include "C:\sys;;D:\Inc" p).
Proof.
  apply (C3_system_include_exclusion 2 hash_any report_lower
           "C:\sys;;D:\Inc" ["a.cpp"] ∅).
  - intros file_name src_deps [= <-]. repeat constructor.
  - intros p [x Hx]. by rewrite lookup_empty in Hx.
  - vm_compute. reflexivity.
Defined.

(** The other writer of the ledger, [filter_cache_hit], only adds paths of
    the record it is given: with records that hold no system path, as the
    records above, the ledger stays without system paths. *)
Lemma filter_cache_hit_ledger_paths SIZE hash_file
    (entry : cache_entry_t SIZE) (ledger : dependency_records_t SIZE) p :
  is_Some ((filter_cache_hit SIZE hash_file entry ledger).2 !! p) →
  is_Some (ledger !! p) ∨ is_Some (m_dependency_records entry !! p).
Proof.
  unfold filter_cache_hit.
  assert (∀ records (l : dependency_records_t SIZE),
            is_Some ((filter_cache_hit_loop SIZE hash_file records l).2 !! p) →
            is_Some (l !! p) ∨ p ∈ records.*1) as Hloop.
  { induction records as [|[include cached] more IH]; intros l; [by left|].
    cbn [filter_cache_hit_loop fmap list_fmap fst]. unfold get_dependency_digest.
    assert (∀ l', (is_Some (l' !! p) → is_Some (l !! p) ∨ p = include) →
              is_Some ((filter_cache_hit_loop SIZE hash_file more l').2 !! p) →
              is_Some (l !! p) ∨ p ∈ include :: more.*1) as Hmore.
    { intros l' Hl' [Hp|Hp]%IH.
      - destruct (Hl' Hp) as [?|Heq]; [by left|].
        right. rewrite Heq. left.
      - right. by right. }
    destruct (l !! include) as [digest|] eqn:Hl.
    - destruct (decide (digest ≠ cached)); [by left|].
      apply Hmore. by left.
    - destruct (hash_file include) as [digest|]; [|by left].
      unfold set_dependency_digest.
      assert (is_Some (<[include:=digest]> l !! p) →
              is_Some (l !! p) ∨ p = include) as Hins.
      { destruct (decide (include = p)) as [->|Hne]; [by right|].
        rewrite lookup_insert_ne by done. by left. }
      destruct (decide (digest ≠ cached)); [|by apply Hmore].
      cbn [snd]. intros Hp. destruct (Hins Hp) as [?|Heq]; [by left|].
      right. rewrite Heq. left. }
  intros [Hp|Hp]%Hloop; [by left|right].
  apply list_elem_of_fmap in Hp as ([k h] & -> & Hin).
  apply elem_of_map_items in Hin. by eexists.
Qed.

(** The reports have to be in lower case for this: with [INCLUDE=C:\sys]
    a path reported as [C:\Sys\stdio.h], whose lower-cased form begins with
    the lower-cased entry, is not classified as a system include and
    enters the record. *)
Lemma mixed_case_report_is_recorded :
  ∃ deps ledger',
    run_for_miss_records 2 hash_any report_mixed (env_include_paths "C:\sys")
      ["a.cpp"] ∅ = Ok ([("a.cpp", deps)], ledger')
    ∧ is_Some (deps !! "C:\Sys\stdio.h")
    ∧ begins_with_include "C:\sys" "C:\Sys\stdio.h"
    ∧ is_system_include (env_include_paths "C:\sys") "C:\Sys\stdio.h" = false.
Proof.
  exists {[ "C:\Sys\stdio.h" := digest_ab ]}, {[ "C:\Sys\stdio.h" := digest_ab ]}.
  split; [vm_compute; reflexivity|].
  split; [by rewrite lookup_singleton_eq|].
  split; [|vm_compute; reflexivity].
  exists "C:\sys". split; [vm_compute; left|]. split; [done|].
  vm_compute. reflexivity.
Qed.

(** C10.  The line reader is not total on response files with an empty
    line: [read_lines] takes [line.back()] of every line, and on an empty
    line that read is outside the string (undefined behaviour), whatever
    the callback does.  A response file whose second line is empty makes
    the whole parse undefined. *)
Theorem C10_read_lines_empty_line :
  (∀ (S : Type) more (callback : string → S → result S) st,
     read_lines_loop ("" :: more) callback st = Undefined)
  ∧ parse_list words_tokenizer resp_files id 2 100 new_parser
      ["/c"; "@resp.txt"] = Undefined.
Proof. split; [reflexivity | vm_compute; reflexivity]. Qed.

(** ** Properties of [base/string_utils.hpp] *)

Lemma rev_app_append (s1 s2 : string) :
  String.rev_app s1 s2 = String.rev s1 +:+ s2.
Proof.
  unfold String.rev. revert s2.
  induction s1 as [|c s1 IH]; intros s2; [done|].
  cbn [String.rev_app]. rewrite IH, (IH (String c "")).
  by rewrite app_assoc_str.
Qed.

Lemma rev_String (c : ascii) (s : string) :
  String.rev (String c s) = String.rev s +:+ String c "".
Proof. unfold String.rev at 1. cbn [String.rev_app]. apply rev_app_append. Qed.

Lemma count_char_app (c : ascii) (a b : string) :
  count_char c (a +:+ b) = (count_char c a + count_char c b)%nat.
Proof.
  induction a as [|x a IH]; [done|]. rewrite app_String. cbn. rewrite IH. lia.
Qed.

Lemma split_go_join (d : ascii) (s : string) : ∀ cur,
  join (String d "") (split_go cur s d) = String.rev cur +:+ s.
Proof.
  unfold join.
  induction s as [|c s IH]; intros cur; cbn [split_go].
  { cbn. by rewrite app_empty_r. }
  destruct (Ascii.eqb_spec c d) as [->|Hne].
  - specialize (IH ""). cbn [String.concat].
    destruct (split_go "" s d) as [|x l] eqn:E.
    { by destruct s; cbn in E; [|destruct (Ascii.eqb _ _)]. }
    rewrite IH. by rewrite app_String, app_empty.
  - rewrite IH, rev_String, app_assoc_str. by rewrite app_String.
Qed.

(** X1.  Joining the pieces of [split] with the delimiter gives the string
    back, for every string and delimiter. *)
Theorem X1_split_join (str : string) (delimiter : ascii) :
  join (String delimiter "") (split str delimiter) = str.
Proof. unfold split. by rewrite split_go_join. Qed.

Lemma count_char_rev (c : ascii) (s : string) :
  count_char c (String.rev s) = count_char c s.
Proof.
  induction s as [|x s IH]; [done|].
  rewrite rev_String, count_char_app, IH. cbn. lia.
Qed.

Lemma split_go_pieces (d : ascii) (s : string) : ∀ cur,
  count_char d cur = O →
  Forall (λ piece, count_char d piece = O) (split_go cur s d)
  ∧ length (split_go cur s d) = S (count_char d s).
Proof.
  induction s as [|c s IH]; intros cur Hcur; cbn [split_go count_char].
  { split; [|done]. constructor; [|constructor]. by rewrite count_char_rev. }
  destruct (Ascii.eqb c d) eqn:E.
  - destruct (IH "" eq_refl) as [IH1 IH2]. split; [|cbn; lia].
    constructor; [|done]. by rewrite count_char_rev.
  - apply IH. cbn. rewrite E. lia.
Qed.

(** X2.  [split] returns one piece more than the string has delimiters
    (so never an empty list, and the single piece [""] for the empty
    string), and no piece contains the delimiter. *)
Theorem X2_split_pieces (str : string) (delimiter : ascii) :
  length (split str delimiter) = S (count_char delimiter str)
  ∧ Forall (λ piece, count_char delimiter piece = O) (split str delimiter)
  ∧ split "" delimiter = [""].
Proof.
  destruct (split_go_pieces delimiter str "" eq_refl) as [H1 H2].
  split; [done|]. split; done.
Qed.

(** X3.  [starts_with str sub_str] holds exactly when [str] is [sub_str]
    followed by something: the test is a prefix test, and never reads
    past the end of a shorter [str]. *)
Theorem X3_starts_with_prefix (str sub_str : string) :
  starts_with str sub_str = true ↔ ∃ rest, str = sub_str +:+ rest.
Proof.
  revert str. induction sub_str as [|c p IH]; intros str.
  { rewrite starts_with_empty. split; [by exists str|done]. }
  destruct str as [|x s].
  { split; [done|]. by intros [rest ?]. }
  rewrite starts_with_cons, andb_true_iff, IH. split.
  - intros [->%Ascii.eqb_eq [rest ->]]. by exists rest.
  - intros [rest H]. rewrite app_String in H. injection H as -> ->.
    split; [apply Ascii.eqb_refl | by exists rest].
Qed.

(** ** Further properties of the command-line parser *)

(** X4.  A [/link] or [-link] token ends the parsing of its list: when the
    tokens in front of it are parsed to their end, the result is their
    result, whatever follows the [link] token. *)
Theorem X4_link_hides_rest :
  ∀ split_args file_read ucs2_to_utf8 wchar_len budget p l1 l2 p1,
    parse_loop split_args file_read ucs2_to_utf8 wchar_len budget p l1
    = Ok (ReachedEnd, p1) →
    parse_list split_args file_read ucs2_to_utf8 wchar_len budget p
      (l1 ++ "/link" :: l2) = Ok p1
    ∧ parse_list split_args file_read ucs2_to_utf8 wchar_len budget p
        (l1 ++ "-link" :: l2) = Ok p1.
Proof.
  intros split_args file_read ucs2_to_utf8 wchar_len budget p l1 l2 p1 H.
  unfold parse_list. rewrite parse_loop_unfold in H.
  rewrite !parse_loop_unfold, !(parse_tokens_app _ _ _ _ _ H).
  split; reflexivity.
Qed.

Lemma X4_link_hides_rest_witness :
  parse_list words_tokenizer no_files id 2 100 new_parser
    (["/c"; "a.c"] ++ "/link" :: ["/DEBUG"; "b.c"])
  = Ok (append_file (set_compile_only new_parser) "a.c" kUnknown)
  ∧ parse_list words_tokenizer no_files id 2 100 new_parser
      (["/c"; "a.c"] ++ "-link" :: ["/DEBUG"; "b.c"])
    = Ok (append_file (set_compile_only new_parser) "a.c" kUnknown).
Proof.
  apply (X4_link_hides_rest words_tokenizer no_files id 2 100 new_parser
           ["/c"; "a.c"] ["/DEBUG"; "b.c"]).
  vm_compute. reflexivity.
Defined.

#[global] Instance extends_refl : Reflexive extends.
Proof. intros p. by split. Qed.
#[global] Instance extends_trans : Transitive extends.
Proof.
  intros p q r [] []. split; try (by etrans); auto.
Qed.

Lemma prefix_snoc {A} (l : list A) (x : A) : l `prefix_of` l ++ [x].
Proof. by apply prefix_app_r. Qed.

Lemma parse_item_extends parse_file p item nxt p' adv :
  (∀ n q q', parse_file n q = Ok q' → extends q q') →
  parse_item parse_file p item nxt = Ok (Continue p' adv) →
  extends p p'.
Proof.
  intros Hpf. unfold parse_item.
  destruct (get_option item) as [option|] eqn:Hopt.
  - intros H.
    repeat match type of H with
      | (if ?b then _ else _) = _ => destruct b eqn:?
      end;
    try match type of H with
      | mbind _ (retrieve_arg ?i ?c ?n) = _ =>
          destruct (retrieve_arg i c n) as [[arg adv']| |] eqn:E;
          cbn in H; try discriminate
      end;
    try discriminate; apply (inj Ok) in H; apply step_inj in H as [<- <-];
    split; cbn; auto using prefix_snoc.
  - destruct (starts_with item "@") eqn:Hat.
    + destruct (parse_file _ p) as [q| |] eqn:E; cbn; try discriminate.
      intros H. apply (inj Ok) in H. apply step_inj in H as [<- <-]. eauto.
    + intros H. apply (inj Ok) in H. apply step_inj in H as [<- <-].
      split; cbn; auto using prefix_snoc.
Qed.

Lemma parse_loop_extends split_args file_read ucs2_to_utf8 wchar_len budget :
  ∀ l p e p',
    parse_loop split_args file_read ucs2_to_utf8 wchar_len budget p l
    = Ok (e, p') →
    extends p p'.
Proof.
  induction budget as [|budget IH]; intros l p e p';
    rewrite parse_loop_unfold;
    apply (parse_tokens_invariant (extends p)); try done;
    intros q item nxt q' adv Hq Hitem; etrans; [exact Hq| |exact Hq|];
    (eapply parse_item_extends; [|exact Hitem]).
  - by intros n r r' H.
  - intros n r r' H. unfold parse_file, read_lines in H.
    destruct (file_read n); cbn in H; try discriminate.
    revert H. apply (read_lines_loop_invariant (extends r)); [|done].
    intros line st st' Hst. unfold parse_line, parse_list.
    destruct (parse_loop _ _ _ _ budget st _) as [[e' st'']| |] eqn:E;
      cbn; try discriminate.
    intros [= <-]. etrans; [exact Hst|]. by eapply IH.
Qed.

(** X5.  Parsing never takes anything back: in the state after [parse_list]
    the includes, defines, other options and input files of the state
    before are still there, in front and in order; [compile_only], the
    precompiled-header flags and [/Y-] stay set once set, so after a [/Y-]
    no later option makes [is_create] true again. *)
Theorem X5_parse_only_extends :
  ∀ split_args file_read ucs2_to_utf8 wchar_len budget p l p',
    parse_list split_args file_read ucs2_to_utf8 wchar_len budget p l = Ok p' →
    extends p p'
    ∧ (ignore (m_pch_config p) = true → is_create (m_pch_config p') = false).
Proof.
  intros split_args file_read ucs2_to_utf8 wchar_len budget p l p' H.
  unfold parse_list in H.
  destruct (parse_loop _ _ _ _ budget p l) as [[e q]| |] eqn:E;
    cbn in H; try discriminate.
  injection H as ->. apply parse_loop_extends in E.
  split; [done|]. intros Hi. unfold is_create.
  by rewrite (ext_ignore _ _ E Hi).
Qed.

Lemma X5_parse_only_extends_witness :
  extends (add_include new_parser "C:\a")
    (add_include (add_include (set_compile_only new_parser) "C:\a") "b")
  ∧ (ignore (m_pch_config (add_include new_parser "C:\a")) = true →
     is_create
       (m_pch_config
          (add_include (add_include (set_compile_only new_parser) "C:\a") "b"))
     = false).
Proof.
  apply (X5_parse_only_extends words_tokenizer no_files id 2 100
           (add_include new_parser "C:\a") ["/c"; "/Ib"]).
  vm_compute. reflexivity.
Defined.

Section ResponseFiles.
Variable split_args : string → list string.
Variable file_read : string → result string.
Variable ucs2_to_utf8 : string → string.
Variable wchar_len : nat.

(** A response file of one line is parsed as the tokens of that line, one
    level deeper. *)
Lemma parse_file_one_line budget name content line c p :
  file_read name = Ok content →
  getlines (decode_file_buf ucs2_to_utf8 wchar_len content) = [line] →
  back line = Ok c →
  parse_file split_args file_read ucs2_to_utf8 wchar_len (S budget) name p
  = parse_list split_args file_read ucs2_to_utf8 wchar_len budget p
      (split_args (if Ascii.eqb c "013" then pop_back line else line)).
Proof.
  intros Hread Hlines Hback. unfold parse_file, read_lines.
  rewrite Hread. cbn [mbind result_bind]. rewrite Hlines.
  cbn [read_lines_loop]. rewrite Hback. cbn [mbind result_bind].
  unfold parse_line.
  by destruct (parse_list _ _ _ _ _ _ _) as [q| |].
Qed.

(** X6.  A response file whose only line is [@] followed by its own name
    is refused with the nesting error, at every depth and in every state:
    the depth counter bounds the recursion. *)
Theorem X6_self_including_file :
  ∀ budget name content line c p,
    file_read name = Ok content →
    getlines (decode_file_buf ucs2_to_utf8 wchar_len content) = [line] →
    back line = Ok c →
    split_args (if Ascii.eqb c "013" then pop_back line else line)
    = ["@" +:+ name] →
    parse_file split_args file_read ucs2_to_utf8 wchar_len budget name p
    = Throw "Command file nesting too deep.".
Proof.
  intros budget name content line c p Hread Hlines Hback Htok. revert p.
  induction budget as [|budget IH]; intros p; [done|].
  rewrite (parse_file_one_line _ _ _ _ _ _ Hread Hlines Hback), Htok.
  unfold parse_list. rewrite parse_loop_unfold. cbn [parse_tokens].
  unfold parse_item, get_option. norm_str. cbn [Ascii.eqb Bool.eqb orb andb].
  norm_str. by rewrite IH.
Qed.

(** Tokens that do not start with [@] are parsed without reading a file,
    the same at every depth. *)
Lemma parse_tokens_no_files parse_file1 parse_file2 (n : nat) : ∀ l p,
  (length l ≤ n)%nat →
  Forall (λ item, starts_with item "@" = false) l →
  parse_tokens parse_file1 p l = parse_tokens parse_file2 p l.
Proof.
  induction n as [|n IH]; intros l p Hn Hl.
  { destruct l; [done | cbn in Hn; lia]. }
  destruct l as [|item rest]; [done|].
  apply Forall_cons in Hl as [Hitem Hrest]. cbn [parse_tokens length] in *.
  assert (parse_item parse_file1 p item (head rest)
          = parse_item parse_file2 p item (head rest)) as ->.
  { unfold parse_item. destruct (get_option item); [done|]. by rewrite Hitem. }
  destruct (parse_item parse_file2 p item (head rest)) as [[|q adv]| |];
    cbn; try done.
  destruct adv, rest as [|x r]; try done; apply IH; cbn in *; try lia; try done.
  by apply Forall_cons in Hrest as [_ ?].
Qed.

(** X7.  A response-file token is the same as its tokens written in its
    place: when the file has one line, whose tokens contain no
    response-file token and are parsed to their end, parsing [@file]
    followed by [rest] is parsing those tokens followed by [rest]. *)
Theorem X7_response_file_inlining :
  ∀ budget name content line c l rest p p1,
    file_read name = Ok content →
    getlines (decode_file_buf ucs2_to_utf8 wchar_len content) = [line] →
    back line = Ok c →
    split_args (if Ascii.eqb c "013" then pop_back line else line) = l →
    Forall (λ item, starts_with item "@" = false) l →
    parse_loop split_args file_read ucs2_to_utf8 wchar_len budget p l
    = Ok (ReachedEnd, p1) →
    parse_list split_args file_read ucs2_to_utf8 wchar_len (S budget) p
      (("@" +:+ name) :: rest)
    = parse_list split_args file_read ucs2_to_utf8 wchar_len (S budget) p
        (l ++ rest).
Proof.
  intros budget name content line c l rest p p1 Hread Hlines Hback Htok Hl H.
  unfold parse_list. f_equal. rewrite !parse_loop_unfold in *.
  assert (parse_tokens
            (parse_file split_args file_read ucs2_to_utf8 wchar_len (S budget))
            p l = Ok (ReachedEnd, p1)) as H'.
  { rewrite <- H. by apply (parse_tokens_no_files _ _ (length l)). }
  rewrite (parse_tokens_app _ _ _ _ _ H').
  cbn [parse_tokens]. unfold parse_item at 1, get_option. norm_str.
  cbn [Ascii.eqb Bool.eqb orb andb]. norm_str.
  rewrite (parse_file_one_line _ _ _ _ _ _ Hread Hlines Hback), Htok.
  unfold parse_list. rewrite parse_loop_unfold, H. reflexivity.
Qed.
End ResponseFiles.

Lemma X6_self_including_file_witness :
  parse_file words_tokenizer self_including id 2 100 "a.rsp" new_parser
  = Throw "Command file nesting too deep.".
Proof.
  apply (X6_self_including_file words_tokenizer self_including id 2 100
           "a.rsp" "@a.rsp" "@a.rsp" "p"%char).
  all: vm_compute; reflexivity.
Defined.

Lemma X7_response_file_inlining_witness :
  parse_list words_tokenizer one_line_file id 2 100 new_parser
    (("@" +:+ "resp.txt") :: ["/c"])
  = parse_list words_tokenizer one_line_file id 2 100 new_parser
      (["/D"; "FOO=1"; "bar.c"] ++ ["/c"]).
Proof.
  apply (X7_response_file_inlining words_tokenizer one_line_file id 2 99
           "resp.txt" "/D FOO=1 bar.c" "/D FOO=1 bar.c" "c"%char
           ["/D"; "FOO=1"; "bar.c"] ["/c"] new_parser
           (append_file (add_define new_parser "FOO=1") "bar.c" kUnknown)).
  1-4: vm_compute; reflexivity.
  - repeat constructor.
  - vm_compute. reflexivity.
Defined.

(** ** Properties of [version_t] *)

(** Without overlapping bits, [|] is addition. *)
Lemma lor_shiftl_add (a b n : Z) :
  0 ≤ n → 0 ≤ b < 2^n → Z.lor (Z.shiftl a n) b = a * 2^n + b.
Proof.
  intros Hn Hb.
  assert (Z.land (Z.shiftl a n) b = 0) as Hland.
  { apply Z.bits_inj'. intros i Hi.
    rewrite Z.land_spec, Z.bits_0.
    destruct (Z.lt_ge_cases i n) as [Hlt|Hge].
    - by rewrite Z.shiftl_spec_low.
    - rewrite <- (Z.mod_small b (2^n)) by done.
      rewrite Z.mod_pow2_bits_high by lia. apply andb_false_r. }
  rewrite <- Z.lxor_lor by done. rewrite <- Z.add_nocarry_lxor by done.
  by rewrite Z.shiftl_mul_pow2.
Qed.

Ltac pow_literals :=
  change (2^64) with 18446744073709551616 in *;
  change (2^48) with 281474976710656 in *;
  change (2^32) with 4294967296 in *;
  change (2^16) with 65536 in *.

(** The packed value as a number in base 2^16. *)
Lemma version_to_uint64_sum (v : version_t) :
  version_ok v →
  version_to_uint64 v
  = m_major v * 2^48 + m_minor v * 2^32 + m_build v * 2^16 + m_qfe v.
Proof.
  intros (H1 & H2 & H3 & H4). unfold version_to_uint64.
  assert (Z.lor (Z.shiftl (m_major v) 48) (Z.shiftl (m_minor v) 32)
          = Z.shiftl (m_major v * 2^16 + m_minor v) 32) as ->.
  { rewrite <- (lor_shiftl_add (m_major v) (m_minor v) 16) by lia.
    rewrite Z.shiftl_lor, Z.shiftl_shiftl by lia. done. }
  assert (Z.lor (Z.shiftl (m_major v * 2^16 + m_minor v) 32)
            (Z.shiftl (m_build v) 16)
          = Z.shiftl ((m_major v * 2^16 + m_minor v) * 2^16 + m_build v) 16)
    as ->.
  { rewrite <- (lor_shiftl_add (m_major v * 2^16 + m_minor v) (m_build v) 16)
      by lia.
    rewrite Z.shiftl_lor, Z.shiftl_shiftl by lia. done. }
  rewrite lor_shiftl_add by lia. lia.
Qed.

(** X8.  Packing a version into 64 bits and unpacking it gives the version
    back, and unpacking a 64-bit value and packing it gives the value
    back: the conversions between [version_t] and [uint64_t] are inverse
    to each other. *)
Theorem X8_version_pack_unpack :
  (∀ v, version_ok v →
        0 ≤ version_to_uint64 v < 2^64
        ∧ version_of_uint64 (version_to_uint64 v) = v)
  ∧ (∀ z, 0 ≤ z < 2^64 →
          version_ok (version_of_uint64 z)
          ∧ version_to_uint64 (version_of_uint64 z) = z).
Proof.
  split.
  - intros v Hv. rewrite version_to_uint64_sum by done.
    destruct v as [a b c d]. destruct Hv as (H1 & H2 & H3 & H4). cbn in *.
    split; [lia|]. unfold version_of_uint64, uint16.
    rewrite !Z.shiftr_div_pow2 by lia. pow_literals.
    f_equal; Z.div_mod_to_equations; lia.
  - intros z Hz.
    assert (version_ok (version_of_uint64 z)) as Hok.
    { unfold version_ok, version_of_uint64, uint16. cbn.
      repeat split; apply Z.mod_pos_bound; lia. }
    split; [done|]. rewrite version_to_uint64_sum by done.
    unfold version_of_uint64, uint16. cbn [m_major m_minor m_build m_qfe].
    rewrite !Z.shiftr_div_pow2 by lia. pow_literals.
    Z.div_mod_to_equations. lia.
Qed.

(** X9.  The comparison operators of [version_t], which compare the packed
    64-bit values, order versions lexicographically by major, minor, build
    and qfe number, and [==] is equality of all four. *)
Theorem X9_version_order_lexicographic :
  ∀ v w, version_ok v → version_ok w →
    (version_lt v w = true ↔
       m_major v < m_major w
       ∨ (m_major v = m_major w
          ∧ (m_minor v < m_minor w
             ∨ (m_minor v = m_minor w
                ∧ (m_build v < m_build w
                   ∨ (m_build v = m_build w ∧ m_qfe v < m_qfe w))))))
    ∧ (version_eq v w = true ↔ v = w)
    ∧ version_le v w = version_lt v w || version_eq v w.
Proof.
  intros v w Hv Hw. unfold version_lt, version_eq, version_le.
  rewrite !version_to_uint64_sum by done.
  destruct v as [a b c d], w as [a' b' c' d'].
  destruct Hv as (H1 & H2 & H3 & H4), Hw as (H1' & H2' & H3' & H4').
  cbn in *. rewrite Z.ltb_lt, Z.eqb_eq. split; [lia|]. split.
  - split; [intros H|intros [= -> -> -> ->]; done].
    assert (a = a') as -> by lia. assert (b = b') as -> by lia.
    assert (c = c') as -> by lia. assert (d = d') as -> by lia. done.
  - apply eq_true_iff_eq.
    rewrite orb_true_iff, Z.leb_le, Z.ltb_lt, Z.eqb_eq. lia.
Qed.

Lemma X8_version_pack_unpack_witness :
  (0 ≤ version_to_uint64 (mkVersion 14 29 30133 0) < 2^64
   ∧ version_of_uint64 (version_to_uint64 (mkVersion 14 29 30133 0))
     = mkVersion 14 29 30133 0)
  ∧ (version_ok (version_of_uint64 4611686018427387905)
     ∧ version_to_uint64 (version_of_uint64 4611686018427387905)
       = 4611686018427387905).
Proof.
  split.
  - apply (proj1 X8_version_pack_unpack (mkVersion 14 29 30133 0)).
    unfold version_ok; cbn; lia.
  - apply (proj2 X8_version_pack_unpack 4611686018427387905). lia.
Defined.

Lemma X9_version_order_lexicographic_witness :
  (version_lt (mkVersion 14 9 0 0) (mkVersion 14 27 0 0) = true ↔
     14 < 14
     ∨ (14 = 14
        ∧ (9 < 27
           ∨ (9 = 27 ∧ (0 < 0 ∨ (0 = 0 ∧ 0 < 0))))))
  ∧ (version_eq (mkVersion 14 9 0 0) (mkVersion 14 27 0 0) = true
     ↔ mkVersion 14 9 0 0 = mkVersion 14 27 0 0)
  ∧ version_le (mkVersion 14 9 0 0) (mkVersion 14 27 0 0)
    = version_lt (mkVersion 14 9 0 0) (mkVersion 14 27 0 0)
      || version_eq (mkVersion 14 9 0 0) (mkVersion 14 27 0 0).
Proof.
  apply (X9_version_order_lexicographic (mkVersion 14 9 0 0)
           (mkVersion 14 27 0 0)); unfold version_ok; cbn; lia.
Defined.

(** *** Versions as text *)

Lemma rev_app_distr_str (a b : string) :
  String.rev (a +:+ b) = String.rev b +:+ String.rev a.
Proof.
  induction a as [|c a IH]; [by rewrite app_empty, app_empty_r|].
  by rewrite app_String, !rev_String, IH, app_assoc_str.
Qed.

Lemma rev_involutive_str (s : string) : String.rev (String.rev s) = s.
Proof.
  induction s as [|c s IH]; [done|].
  by rewrite rev_String, rev_app_distr_str, IH.
Qed.

(** Characters other than the delimiter are collected into the piece. *)
Lemma split_go_app (d : ascii) (a : string) : ∀ cur rest,
  count_char d a = O →
  split_go cur (a +:+ rest) d = split_go (String.rev a +:+ cur) rest d.
Proof.
  induction a as [|c a IH]; intros cur rest Ha.
  { by rewrite !app_empty. }
  cbn in Ha. rewrite app_String. cbn [split_go].
  destruct (Ascii.eqb c d); [done|].
  rewrite IH by done. by rewrite rev_String, app_assoc_str, app_String, app_empty.
Qed.

Lemma split_join_pieces (d : ascii) (l : list string) : ∀ x,
  Forall (λ piece, count_char d piece = O) (x :: l) →
  split (join (String d "") (x :: l)) d = x :: l.
Proof.
  unfold split, join.
  induction l as [|y l IH]; intros x [Hx Hl]%Forall_cons.
  - cbn [String.concat]. rewrite <- (app_empty_r x) at 1.
    rewrite split_go_app by done. cbn [split_go].
    by rewrite app_empty_r, rev_involutive_str.
  - cbn [String.concat]. rewrite split_go_app by done.
    rewrite app_String, app_empty. cbn [split_go].
    rewrite Ascii.eqb_refl, app_empty_r, rev_involutive_str.
    f_equal. by apply IH.
Qed.

(** A decimal numeral has no dot, and [atoi] reads it back. *)
Lemma count_dot_string_of_uint (d : Decimal.uint) :
  count_char "." (DecimalString.NilEmpty.string_of_uint d) = O.
Proof. induction d; cbn; done. Qed.

Lemma count_dot_print_decimal (z : Z) : count_char "." (print_decimal z) = O.
Proof.
  unfold print_decimal, DecimalString.NilZero.string_of_uint.
  destruct (N.to_uint _); try apply count_dot_string_of_uint. done.
Qed.

Lemma atoi_digits_acc (d : Decimal.uint) : ∀ acc,
  atoi_digits (DecimalString.NilEmpty.string_of_uint d) (Z.pos acc)
  = Z.pos (Pos.of_uint_acc d acc).
Proof.
  induction d as [|d IH|d IH|d IH|d IH|d IH|d IH|d IH|d IH|d IH|d IH];
    intros acc; [done|..];
    cbn [DecimalString.NilEmpty.string_of_uint atoi_digits Pos.of_uint_acc];
    match goal with
    | |- context [digit_value ?c] =>
        let v := eval vm_compute in (digit_value c) in
        change (digit_value c) with v
    end; cbv iota;
    rewrite <- IH; f_equal; lia.
Qed.

Lemma atoi_digits_of_uint (d : Decimal.uint) :
  atoi_digits (DecimalString.NilEmpty.string_of_uint d) 0
  = Z.of_N (Pos.of_uint d).
Proof.
  induction d as [|d IH|d IH|d IH|d IH|d IH|d IH|d IH|d IH|d IH|d IH];
    [done|exact IH|..];
    cbn [DecimalString.NilEmpty.string_of_uint atoi_digits Pos.of_uint];
    exact (atoi_digits_acc d _).
Qed.

Lemma numeral_value_print_decimal (z : Z) :
  0 ≤ z → numeral_value (print_decimal z) = z.
Proof.
  intros Hz. unfold print_decimal.
  transitivity (Z.of_N (Z.to_N z)); [|by apply Z2N.id].
  generalize (Z.to_N z). intros n.
  transitivity (Z.of_N (N.of_uint (N.to_uint n)));
    [|by rewrite DecimalN.Unsigned.of_to].
  unfold N.of_uint. rewrite <- atoi_digits_of_uint.
  unfold DecimalString.NilZero.string_of_uint.
  by destruct (N.to_uint n).
Qed.

Lemma atoi_print_decimal (z : Z) :
  0 ≤ z < 2^31 → atoi (print_decimal z) = Ok z.
Proof.
  intros Hz. unfold atoi. rewrite numeral_value_print_decimal by lia.
  destruct (Z.leb_spec (-2^31) z); [|lia].
  destruct (Z.ltb_spec z (2^31)); [done|lia].
Qed.

(** The members beyond the first [n] set to zero. *)
Lemma version_of_string_as_string (v : version_t) (num_components : nat) :
  version_ok v →
  version_of_string (as_string v num_components)
  = Ok (mkVersion (if (0 <? num_components)%nat then m_major v else 0)
          (if (1 <? num_components)%nat then m_minor v else 0)
          (if (2 <? num_components)%nat then m_build v else 0)
          (if (3 <? num_components)%nat then m_qfe v else 0)).
Proof.
  revert num_components. destruct v as [a b c d].
  intros n (Ha & Hb & Hc & Hd). cbn in *.
  assert (∀ x, 0 ≤ x < 2^16 →
            (z ← atoi (print_decimal x); Ok (uint16 z)) = Ok x) as Hrt.
  { intros x Hx. rewrite atoi_print_decimal by lia.
    cbn [mbind result_bind]. f_equal. by apply Z.mod_small. }
  unfold version_of_string, as_string. cbn [m_major m_minor m_build m_qfe].
  destruct n as [|[|[|[|n]]]]; cbn [length Nat.min take fmap list_fmap].
  1: by cbn.
  all: change (String.concat ".") with (join (String "." ""));
    rewrite split_join_pieces
      by (repeat constructor; apply count_dot_print_decimal);
    cbn [lookup list_lookup Nat.ltb Nat.leb];
    rewrite ?Hrt by done; by cbn [mbind result_bind].
Qed.

(** A numeral outside [int] has no defined value, and with it the
    version that holds it. *)
Lemma version_of_string_out_of_range :
  atoi "4294967310" = Undefined
  ∧ version_of_string "4294967310.27" = Undefined.
Proof. split; vm_compute; reflexivity. Qed.

(** X10.  A version written by [as_string] is read back by the
    constructor from a string: with all four components it is the version
    itself, and with fewer components the members left out are zero. *)
Theorem X10_version_string_round_trip :
  ∀ v num_components, version_ok v →
    version_of_string (as_string v num_components)
    = Ok (mkVersion (if (0 <? num_components)%nat then m_major v else 0)
            (if (1 <? num_components)%nat then m_minor v else 0)
            (if (2 <? num_components)%nat then m_build v else 0)
            (if (3 <? num_components)%nat then m_qfe v else 0)).
Proof.
  intros v n Hv. rewrite version_of_string_as_string by done. reflexivity.
Qed.

Lemma X10_version_string_round_trip_witness :
  version_of_string (as_string (mkVersion 14 29 30133 0) 3)
  = Ok (mkVersion (if (0 <? 3)%nat then 14 else 0)
          (if (1 <? 3)%nat then 29 else 0)
          (if (2 <? 3)%nat then 30133 else 0)
          (if (3 <? 3)%nat then 0 else 0)).
Proof.
  apply (X10_version_string_round_trip (mkVersion 14 29 30133 0) 3).
  unfold version_ok; cbn; lia.
Defined.

(** X11.  Splitting a string that was joined from pieces without the
    delimiter gives the pieces back: with X1, [split] and [join] are
    inverse to each other on such lists. *)
Theorem X11_split_of_join :
  ∀ (delimiter : ascii) (piece : string) (pieces : list string),
    Forall (λ x, count_char delimiter x = O) (piece :: pieces) →
    split (join (String delimiter "") (piece :: pieces)) delimiter
    = piece :: pieces.
Proof. intros d x l H. by apply split_join_pieces. Qed.

Lemma X11_split_of_join_witness :
  split (join (String "." "") ("14" :: ["29"; ""; "0"])) "."
  = "14" :: ["29"; ""; "0"].
Proof.
  apply (X11_split_of_join "." "14" ["29"; ""; "0"]). by repeat constructor.
Defined.

(** ** Properties of [get_tool_version] *)

Lemma starts_with_app (a b : string) : starts_with (a +:+ b) a = true.
Proof.
  induction a as [|c a IH]; [apply starts_with_empty|].
  by rewrite app_String, starts_with_cons, Ascii.eqb_refl, IH.
Qed.

Lemma eqb_empty_false (s : string) : s ≠ "" → String.eqb s "" = false.
Proof. intros H. by apply String.eqb_neq. Qed.

(** X12.  When [VSCMD_ARG_HOST_ARCH] is defined, the compiler path is not
    consulted at all: the result is the same for every path; it is the
    architecture error when [VSCMD_ARG_TGT_ARCH] is undefined, and the
    version error when [VCToolsVersion] is undefined, whatever the path
    would have given. *)
Theorem X12_host_from_environment :
  ∀ getenv h, getenv "VSCMD_ARG_HOST_ARCH" = Some h →
    (∀ path1 path2,
       get_tool_version getenv path1 = get_tool_version getenv path2)
    ∧ (getenv "VSCMD_ARG_TGT_ARCH" = None →
       ∀ path, get_tool_version getenv path
               = Throw "Failed to get compiler host/target architecture.")
    ∧ (∀ t, getenv "VSCMD_ARG_TGT_ARCH" = Some t → h ≠ "" → t ≠ "" →
         getenv "VCToolsVersion" = None →
         ∀ path, get_tool_version getenv path
                 = Throw "Failed to get VC version.").
Proof.
  intros getenv h Hh. unfold get_tool_version. rewrite Hh.
  split; [|split].
  - intros path1 path2.
    destruct (getenv "VSCMD_ARG_TGT_ARCH"), (getenv "VCToolsVersion");
      by rewrite ?andb_false_r.
  - intros -> path. by rewrite orb_true_r.
  - intros t -> Hh' Ht -> path.
    by rewrite !eqb_empty_false, andb_false_r by done.
Qed.

Lemma X12_host_from_environment_witness :
  (∀ path1 path2,
     get_tool_version env_host_only path1
     = get_tool_version env_host_only path2)
  ∧ (env_host_only "VSCMD_ARG_TGT_ARCH" = None →
     ∀ path, get_tool_version env_host_only path
             = Throw "Failed to get compiler host/target architecture.")
  ∧ (∀ t, env_host_only "VSCMD_ARG_TGT_ARCH" = Some t → "x64" ≠ "" → t ≠ "" →
       env_host_only "VCToolsVersion" = None →
       ∀ path, get_tool_version env_host_only path
               = Throw "Failed to get VC version.").
Proof. apply (X12_host_from_environment env_host_only "x64"). reflexivity. Defined.

Lemma version_of_as_string (v : version_t) :
  version_ok v → version_of_string (as_string v 4) = Ok v.
Proof.
  intros Hv. rewrite version_of_string_as_string by done. by destruct v.
Qed.

(** X13.  Without the three environment variables, a compiler path of the
    form [...\<version>\bin\Host<host>\<target>\<file>] gives the host and
    target architecture of its components, and as version what the
    constructor of [version_t] makes of the [<version>] component; where
    that component is a version as [as_string] prints it, this is that
    version. *)
Theorem X13_tool_version_from_path :
  ∀ getenv root ver bin h t exe,
    getenv "VSCMD_ARG_HOST_ARCH" = None →
    getenv "VSCMD_ARG_TGT_ARCH" = None →
    getenv "VCToolsVersion" = None →
    Forall (λ x, count_char "\" x = O)
      (root ++ [ver; bin; "Host" +:+ h; t; exe]) →
    h ≠ "" → t ≠ "" →
    get_tool_version getenv
      (join (String "\" "") (root ++ [ver; bin; "Host" +:+ h; t; exe]))
    = (version ← version_of_string ver; Ok (mkToolVersion h t version))
    ∧ (∀ v n, version_ok v → ver = as_string v n →
         get_tool_version getenv
           (join (String "\" "") (root ++ [ver; bin; "Host" +:+ h; t; exe]))
         = Ok (mkToolVersion h t
                 (mkVersion (if (0 <? n)%nat then m_major v else 0)
                    (if (1 <? n)%nat then m_minor v else 0)
                    (if (2 <? n)%nat then m_build v else 0)
                    (if (3 <? n)%nat then m_qfe v else 0)))).
Proof.
  intros getenv root ver bin h t exe H1 H2 H3 Hparts Hh Ht.
  assert (get_tool_version getenv
            (join (String "\" "") (root ++ [ver; bin; "Host" +:+ h; t; exe]))
          = (version ← version_of_string ver;
             Ok (mkToolVersion h t version))) as Hres.
  { unfold get_tool_version. rewrite H1, H2, H3.
    assert (split (join (String "\" "")
                     (root ++ [ver; bin; "Host" +:+ h; t; exe])) "\"
            = root ++ [ver; bin; "Host" +:+ h; t; exe]) as ->.
    { destruct root; by apply split_join_pieces. }
    rewrite List.length_app. cbn [length].
    replace (length root + 5 - 3)%nat with (length root + 2)%nat by lia.
    replace (length root + 5 - 2)%nat with (length root + 3)%nat by lia.
    replace (length root + 5 - 5)%nat with (length root + 0)%nat by lia.
    rewrite !lookup_app_r by lia.
    replace (length root + 2 - length root)%nat with 2%nat by lia.
    replace (length root + 3 - length root)%nat with 3%nat by lia.
    replace (length root + 0 - length root)%nat with 0%nat by lia.
    cbn [lookup list_lookup default from_option id].
    replace (3 <=? length root + 5)%nat with true
      by (symmetry; apply Nat.leb_le; lia).
    replace (5 <=? length root + 5)%nat with true
      by (symmetry; apply Nat.leb_le; lia).
    rewrite starts_with_app. cbn [andb].
    change 4%nat with (String.length "Host"). rewrite substr_from_app.
    by rewrite !eqb_empty_false by done. }
  split; [done|]. intros v n Hv ->. rewrite Hres.
  rewrite version_of_string_as_string by done. reflexivity.
Qed.

Lemma X13_tool_version_from_path_witness :
  get_tool_version env_unset
    (join (String "\" "")
       (msvc_root ++ ["14.29.30133"; "bin"; "Host" +:+ "x64"; "x86"; "cl.exe"]))
  = (version ← version_of_string "14.29.30133";
     Ok (mkToolVersion "x64" "x86" version))
  ∧ (∀ v n, version_ok v → "14.29.30133" = as_string v n →
       get_tool_version env_unset
         (join (String "\" "")
            (msvc_root
             ++ ["14.29.30133"; "bin"; "Host" +:+ "x64"; "x86"; "cl.exe"]))
       = Ok (mkToolVersion "x64" "x86"
               (mkVersion (if (0 <? n)%nat then m_major v else 0)
                  (if (1 <? n)%nat then m_minor v else 0)
                  (if (2 <? n)%nat then m_build v else 0)
                  (if (3 <? n)%nat then m_qfe v else 0)))).
Proof.
  apply (X13_tool_version_from_path env_unset msvc_root "14.29.30133" "bin"
           "x64" "x86" "cl.exe"); try reflexivity; try done.
  by repeat constructor.
Defined.

(** ** Properties of the wrapper's use of the parser *)

Lemma parse_list_canonical split_args file_read ucs2_to_utf8 wchar_len budget
    p l p' :
  canonical p →
  parse_list split_args file_read ucs2_to_utf8 wchar_len budget p l = Ok p' →
  canonical p'.
Proof.
  intros Hp H. unfold parse_list in H.
  destruct (parse_loop _ _ _ _ budget p l) as [[e q]| |] eqn:E;
    cbn in H; try discriminate.
  injection H as <-. by eapply parse_loop_canonical.
Qed.

Lemma parse_canonical split_args file_read ucs2_to_utf8 wchar_len getenv argv
    p p' :
  canonical p →
  parse split_args file_read ucs2_to_utf8 wchar_len getenv argv p = Ok p' →
  canonical p'.
Proof.
  intros Hp H. rewrite parse_sequence in H. unfold parse_line in H.
  assert (∃ p1, canonical p1 ∧
            (p ← parse_list split_args file_read ucs2_to_utf8 wchar_len 100
                   p1 (tail argv);
             match getenv "_CL_" with
             | Some env_var =>
                 parse_list split_args file_read ucs2_to_utf8 wchar_len 100 p
                   (split_args env_var)
             | None => Ok p
             end) = Ok p') as (p1 & Hp1 & H1).
  { destruct (getenv "CL") as [a|]; [|by exists p].
    destruct (parse_list _ _ _ _ 100 p (split_args a)) as [p1| |] eqn:E;
      cbn [mbind result_bind] in H; try discriminate.
    exists p1. split; [by eapply parse_list_canonical|done]. }
  destruct (parse_list _ _ _ _ 100 p1 (tail argv)) as [p2| |] eqn:E2;
    cbn [mbind result_bind] in H1; try discriminate.
  apply parse_list_canonical in E2; [|done].
  destruct (getenv "_CL_") as [b|]; [by eapply parse_list_canonical|].
  by injection H1 as <-.
Qed.

(** The re-emitted tokens of a reachable state name no shared debug
    database unless the debug format is one. *)
Lemma merge_no_pdb_flag p mode :
  canonical p →
  m_debug_format p ≠ kSeparateFile →
  m_debug_format p ≠ kSeparateFileEditAndContinue →
  Forall (λ tok, tok ≠ "/Zi" ∧ tok ≠ "/ZI") (merge p mode).
Proof.
  intros Hc Hd1 Hd2. unfold merge. rewrite !Forall_app.
  repeat split.
  - destruct (m_compile_only p); by repeat constructor.
  - case_decide; [|done]. destruct (m_default_input_type p);
      by repeat constructor.
  - destruct (m_debug_format p); by repeat constructor.
  - apply Forall_fmap. eapply Forall_impl; [apply (can_options _ Hc)|].
    intros o Ho. cbn. split; norm_str; intros [= ->]; done.
  - destruct (negb _); [|done]. repeat constructor; by norm_str.
  - case_decide; [|done]. rewrite !Forall_app. repeat split.
    + apply Forall_fmap, Forall_forall. intros x _. cbn. by norm_str.
    + apply Forall_fmap, Forall_forall. intros x _. cbn. by norm_str.
    + destruct (negb _); [|done]. repeat constructor; by norm_str.
  - destruct (enabled _); [|done]. repeat constructor; by norm_str.
  - destruct (enabled _); [|done]. repeat constructor; by norm_str.
  - destruct (ignore _); by repeat constructor.
  - destruct (negb _); [|done]. repeat constructor; by norm_str.
  - case_decide; [|done]. apply Forall_fmap.
    eapply Forall_impl; [apply (can_inputs _ Hc)|].
    intros [n t] Hf. unfold input_ok in Hf. unfold as_arg. cbn in *.
    destruct t; try done; try (by norm_str).
    destruct Hf as [Hopt _]. split; intros ->; done.
Qed.

Lemma input_file_by_name_in files n f :
  input_file_by_name files n = Ok f → f ∈ files ∧ name f = n.
Proof.
  induction files as [|g files IH]; [done|]. cbn.
  destruct (String.eqb_spec (name g) n) as [Hn|Hn].
  - intros [= <-]. split; [left|done].
  - intros [Hin Hf]%IH. split; [by right|done].
Qed.

Lemma input_file_by_name_first files f :
  NoDup (name <$> files) → f ∈ files →
  input_file_by_name files (name f) = Ok f.
Proof.
  induction files as [|g files IH]; intros Hnd Hin.
  { by apply elem_of_nil in Hin. }
  rewrite fmap_cons in Hnd. apply NoDup_cons in Hnd as [Hg Hnd]. cbn.
  apply elem_of_cons in Hin as [->|Hin]; [by rewrite String.eqb_refl|].
  destruct (String.eqb_spec (name g) (name f)) as [Heq|Hne]; [|by apply IH].
  destruct Hg. rewrite Heq. apply list_elem_of_fmap. eauto.
Qed.

Lemma input_file_by_name_missing files n :
  n ∉ name <$> files →
  input_file_by_name files n = Throw ("Failed to lookup " +:+ n).
Proof.
  induction files as [|g files IH]; intros Hn; [done|]. cbn.
  rewrite fmap_cons, not_elem_of_cons in Hn. destruct Hn as [Hg Hn].
  destruct (String.eqb_spec (name g) n) as [Heq|Hne]; [by subst|by apply IH].
Qed.

Lemma miss_args_in files miss args :
  miss_args files miss = Ok args →
  Forall (λ a, ∃ f, f ∈ files ∧ a = as_arg f) args.
Proof.
  revert args. induction miss as [|n miss IH]; intros args H; cbn in H.
  { by injection H as <-. }
  destruct (input_file_by_name files n) as [f| |] eqn:E;
    cbn in H; try discriminate.
  destruct (miss_args files miss) as [args'| |]; cbn in H; try discriminate.
  injection H as <-. apply input_file_by_name_in in E as [Hin _].
  constructor; [eauto | by apply IH].
Qed.

Lemma miss_args_files files fs :
  NoDup (name <$> files) → Forall (λ f, f ∈ files) fs →
  miss_args files (name <$> fs) = Ok (as_arg <$> fs).
Proof.
  intros Hnd. induction 1 as [|f fs Hf Hfs IH]; [done|].
  cbn. by rewrite input_file_by_name_first, IH.
Qed.

Lemma merge_all_skip_inputs p :
  merge p kAll = merge p kSkipInputs ++ (as_arg <$> m_input_files p).
Proof.
  unfold merge. repeat case_decide; try done.
  rewrite <- !app_assoc. by rewrite app_nil_l.
Qed.

Lemma input_file_by_name_missing_inv files n what :
  input_file_by_name files n = Throw what → n ∉ name <$> files.
Proof.
  induction files as [|g files IH]; cbn.
  { intros _ Hin. by apply elem_of_nil in Hin. }
  destruct (String.eqb_spec (name g) n) as [Heq|Hne]; [done|].
  intros H%IH. rewrite not_elem_of_cons. done.
Qed.

Lemma input_file_by_name_defined files n :
  input_file_by_name files n ≠ Undefined.
Proof.
  induction files as [|g files IH]; cbn; [done|].
  by destruct (String.eqb (name g) n).
Qed.

(** X14.  What [resolve_args] has accepted: [/c] was given; more than one
    input only with an object path that is a directory; the debug format
    is none or [/Z7]; the version of the tools is 14.27 or later; and the
    command line that [run_for_miss] builds then starts with [/c] and
    holds neither [/Zi] nor [/ZI]. *)
Theorem X14_accepted_invocation :
  ∀ split_args file_read ucs2_to_utf8 wchar_len getenv m_args tv p,
    resolve_args split_args file_read ucs2_to_utf8 wchar_len getenv m_args tv
    = Ok p →
    version_ok (vc_version tv) →
    m_compile_only p = true
    ∧ ((length (m_input_files p) ≤ 1)%nat ∨ obj_path_is_dir p = true)
    ∧ (m_debug_format p = kNone ∨ m_debug_format p = kObjectFile)
    ∧ (14 < m_major (vc_version tv)
       ∨ (m_major (vc_version tv) = 14 ∧ 27 ≤ m_minor (vc_version tv)))
    ∧ ∀ miss dir args, run_for_miss_args p miss dir = Ok args →
        head args = Some "/c" ∧ ("/Zi" ∉ args) ∧ ("/ZI" ∉ args).
Proof.
  intros split_args file_read ucs2_to_utf8 wchar_len getenv m_args tv p H Hv.
  unfold resolve_args in H.
  destruct (parse _ _ _ _ getenv m_args new_parser) as [q| |] eqn:E;
    cbn [mbind result_bind] in H; try discriminate.
  apply parse_canonical in E; [|apply canonical_new].
  destruct (check_args q tv) as [[]| |] eqn:Hchk;
    cbn [mbind result_bind] in H; try discriminate.
  injection H as <-. unfold check_args in Hchk.
  destruct (m_compile_only q) eqn:Hc; cbn [negb] in Hchk; [|discriminate].
  destruct ((1 <? length (m_input_files q))%nat && negb (obj_path_is_dir q))
    eqn:Ho; [discriminate|].
  destruct (bool_decide (m_debug_format q = kSeparateFile)
            || bool_decide (m_debug_format q = kSeparateFileEditAndContinue))
    eqn:Hd; [discriminate|].
  destruct (version_lt (vc_version tv) (mkVersion 14 27 0 0)) eqn:Hlt;
    [discriminate|]. clear Hchk.
  apply orb_false_iff in Hd as [Hd1%bool_decide_eq_false Hd2%bool_decide_eq_false].
  split; [done|]. split.
  { apply andb_false_iff in Ho as [Ho%Nat.ltb_ge|Ho%negb_false_iff]; eauto. }
  split; [by destruct (m_debug_format q); eauto|]. split.
  { unfold version_lt in Hlt. apply Z.ltb_ge in Hlt.
    rewrite !version_to_uint64_sum in Hlt
      by (done || unfold version_ok; cbn; lia).
    destruct Hv as (H1 & H2 & H3 & H4). cbn in Hlt. pow_literals. lia. }
  intros miss dir args Hargs. unfold run_for_miss_args in Hargs.
  destruct (miss_args _ miss) as [margs| |] eqn:Em; cbn in Hargs;
    try discriminate.
  injection Hargs as <-. split.
  { unfold merge. by rewrite Hc. }
  assert (Forall (λ tok, tok ≠ "/Zi" ∧ tok ≠ "/ZI")
            (merge q kSkipInputs ++ margs
             ++ ["/sourceDependencies " +:+ dir])) as Hall.
  { rewrite !Forall_app. split; [by apply merge_no_pdb_flag|]. split.
    - apply miss_args_in in Em.
      eapply Forall_impl; [exact Em|]. intros a (f & Hf & ->).
      pose proof (merge_no_pdb_flag q kAll E Hd1 Hd2) as Hm.
      rewrite merge_all_skip_inputs, Forall_app in Hm.
      destruct Hm as [_ Hm]. rewrite Forall_fmap, Forall_forall in Hm.
      by apply Hm.
    - repeat constructor; by norm_str. }
  rewrite Forall_forall in Hall.
  split; intros Hin; by destruct (Hall _ Hin).
Qed.

Lemma X14_accepted_invocation_witness :
  m_compile_only parsed_c_a = true
  ∧ ((length (m_input_files parsed_c_a) ≤ 1)%nat
     ∨ obj_path_is_dir parsed_c_a = true)
  ∧ (m_debug_format parsed_c_a = kNone
     ∨ m_debug_format parsed_c_a = kObjectFile)
  ∧ (14 < m_major (vc_version tool_14_29)
     ∨ (m_major (vc_version tool_14_29) = 14
        ∧ 27 ≤ m_minor (vc_version tool_14_29)))
  ∧ ∀ miss dir args, run_for_miss_args parsed_c_a miss dir = Ok args →
      head args = Some "/c" ∧ ("/Zi" ∉ args) ∧ ("/ZI" ∉ args).
Proof.
  apply (X14_accepted_invocation words_tokenizer no_files id 2 env_unset
           ["cl"; "/c"; "a.cpp"] tool_14_29 parsed_c_a).
  - vm_compute. reflexivity.
  - unfold version_ok; cbn; lia.
Defined.

(** X15.  The command line of [run_for_miss]: when the input files have
    different names, it is the options of the invocation, then the missed
    inputs as they were given (with their [/Tc] or [/Tp]), then the
    [/sourceDependencies] item; if every input is missed these are the
    tokens of the full re-emission.  A missed name that is no input is
    the lookup error. *)
Theorem X15_run_for_miss_arguments :
  ∀ p dir,
    (NoDup (name <$> m_input_files p) →
     ∀ files, Forall (λ f, f ∈ m_input_files p) files →
       run_for_miss_args p (name <$> files) dir
       = Ok (merge p kSkipInputs ++ (as_arg <$> files)
             ++ ["/sourceDependencies " +:+ dir]))
    ∧ (NoDup (name <$> m_input_files p) →
       run_for_miss_args p (name <$> m_input_files p) dir
       = Ok (merge p kAll ++ ["/sourceDependencies " +:+ dir]))
    ∧ (∀ miss, Exists (λ n, n ∉ name <$> m_input_files p) miss →
         ∃ n, n ∈ miss ∧ (n ∉ name <$> m_input_files p)
              ∧ run_for_miss_args p miss dir
                = Throw ("Failed to lookup " +:+ n)).
Proof.
  intros p dir.
  assert (NoDup (name <$> m_input_files p) →
          ∀ files, Forall (λ f, f ∈ m_input_files p) files →
            run_for_miss_args p (name <$> files) dir
            = Ok (merge p kSkipInputs ++ (as_arg <$> files)
                  ++ ["/sourceDependencies " +:+ dir])) as Hsome.
  { intros Hnd files Hfiles. unfold run_for_miss_args.
    by rewrite miss_args_files. }
  split; [done|]. split.
  { intros Hnd. rewrite Hsome by (done || by apply Forall_forall).
    by rewrite merge_all_skip_inputs, <- app_assoc. }
  intros miss. unfold run_for_miss_args.
  induction miss as [|n miss IH]; intros Hex.
  { by apply Exists_nil in Hex. }
  cbn [miss_args].
  destruct (decide (n ∈ name <$> m_input_files p)) as [Hin|Hout].
  - apply Exists_cons in Hex as [?|Hex]; [done|].
    destruct (IH Hex) as (n' & Hn' & Hout' & Hthrow).
    exists n'. split; [by right|]. split; [done|].
    apply list_elem_of_fmap in Hin as (f & -> & Hf).
    destruct (input_file_by_name (m_input_files p) (name f)) as [g| |] eqn:E.
    + cbn. destruct (miss_args _ miss); cbn in *; done.
    + apply input_file_by_name_missing_inv in E. destruct E.
      apply list_elem_of_fmap. eauto.
    + by apply input_file_by_name_defined in E.
  - exists n. split; [left|]. split; [done|].
    by rewrite input_file_by_name_missing.
Qed.

Lemma X15_run_for_miss_arguments_witness :
  run_for_miss_args parsed_two (name <$> m_input_files parsed_two) "tmp"
  = Ok (merge parsed_two kAll ++ ["/sourceDependencies " +:+ "tmp"]).
Proof.
  apply (proj1 (proj2 (X15_run_for_miss_arguments parsed_two "tmp"))).
  apply (bool_decide_unpack _). vm_compute. reflexivity.
Defined.

(** ** Further properties of the dependency protocol *)

Section LedgerTheorems.
Variable SIZE : nat.
Variable hash_file : string → option (hash_t SIZE).

Lemma collect_dependencies_grows paths src_deps
    (ledger deps' ledger' : dependency_records_t SIZE) :
  collect_dependencies SIZE hash_file paths src_deps ∅ ledger
  = Ok (deps', ledger') →
  ledger ⊆ ledger' ∧ deps' ⊆ ledger'.
Proof.
  intros [H1 H2]%collect_dependencies_lookup.
  split; apply map_subseteq_spec; intros p x Hp.
  - rewrite H2. unfold current_digest. rewrite Hp. by case_decide.
  - rewrite H1 in Hp. rewrite H2. rewrite lookup_empty in Hp.
    case_decide as Hc; [|done]. destruct Hc as [Hin Hc].
    case_decide as Hc'; [done|].
    destruct Hc as [[y Hy]|Hs]; [|destruct Hc'; done].
    unfold current_digest in Hp. by rewrite Hy in Hp |- *.
Qed.

(** A record whose pairs are all in the ledger is a hit, and the ledger
    stays as it is: no file is hashed. *)
Lemma filter_cache_hit_loop_ledger records :
  ∀ ledger : dependency_records_t SIZE,
  Forall (λ e, ledger !! e.1 = Some e.2) records →
  filter_cache_hit_loop SIZE hash_file records ledger = (true, ledger).
Proof.
  induction records as [|[include cached] more IH]; intros ledger H; [done|].
  apply Forall_cons in H as [H1 H2]. cbn in H1.
  cbn [filter_cache_hit_loop]. unfold get_dependency_digest. rewrite H1.
  destruct (decide (cached ≠ cached)); [done|]. by apply IH.
Qed.

Variable get_source_dependencies : string → result (list string).

Lemma run_for_miss_records_grows paths miss_infos :
  ∀ (ledger ledger' : dependency_records_t SIZE) records,
  run_for_miss_records SIZE hash_file get_source_dependencies paths
    miss_infos ledger = Ok (records, ledger') →
  ledger ⊆ ledger' ∧ records.*1 = miss_infos
  ∧ Forall (λ r, r.2 ⊆ ledger') records.
Proof.
  induction miss_infos as [|file_name more IH]; intros ledger ledger' records H.
  { by injection H as <- <-. }
  cbn [run_for_miss_records] in H.
  destruct (get_source_dependencies file_name) as [src_deps| |];
    cbn in H; try discriminate.
  destruct (collect_dependencies _ _ _ src_deps ∅ ledger)
    as [[deps1 ledger1]| |] eqn:E; cbn in H; try discriminate.
  destruct (run_for_miss_records _ _ _ _ more ledger1)
    as [[records1 ledger2]| |] eqn:E'; cbn in H; try discriminate.
  injection H as <- <-.
  apply collect_dependencies_grows in E as [Hl Hd].
  apply IH in E' as (Hl' & Hn & Hr).
  split; [by etrans|]. split; [cbn; by f_equal|].
  constructor; [cbn; by etrans | done].
Qed.
End LedgerTheorems.

(** X16.  The record that [run_for_miss] builds from the paths the
    compiler reported for one input: a reported path is recorded exactly
    when the ledger already holds it or it is no system include, and then
    with its current digest (the ledger's, else the hash of the file);
    the ledger gains the hashed paths and loses nothing. *)
Theorem X16_recorded_dependencies :
  ∀ SIZE hash_file paths src_deps
    (ledger deps' ledger' : dependency_records_t SIZE),
    collect_dependencies SIZE hash_file paths src_deps ∅ ledger
    = Ok (deps', ledger') →
    (∀ p, deps' !! p
          = if decide (p ∈ src_deps
                       ∧ (is_Some (ledger !! p)
                          ∨ is_system_include paths p = false))
            then current_digest hash_file ledger p else None)
    ∧ (∀ p, ledger' !! p
            = if decide (p ∈ src_deps ∧ is_system_include paths p = false)
              then current_digest hash_file ledger p else ledger !! p)
    ∧ ledger ⊆ ledger' ∧ deps' ⊆ ledger'.
Proof.
  intros SIZE hash_file paths src_deps ledger deps' ledger' H.
  destruct (collect_dependencies_lookup _ _ _ _ _ _ _ _ H) as [H1 H2].
  split; [|split; [done|by eapply collect_dependencies_grows]].
  intros p. rewrite H1. by rewrite lookup_empty.
Qed.

Lemma X16_recorded_dependencies_witness :
  (∀ p, ({[ "d:\src\x.h" := digest_ab ]} : dependency_records_t 2) !! p
        = if decide (p ∈ ["c:\sys\stdio.h"; "d:\src\x.h"]
                     ∧ (is_Some ((∅ : dependency_records_t 2) !! p)
                        ∨ is_system_include ["c:\sys"] p = false))
          then current_digest hash_any ∅ p else None)
  ∧ (∀ p, ({[ "d:\src\x.h" := digest_ab ]} : dependency_records_t 2) !! p
          = if decide (p ∈ ["c:\sys\stdio.h"; "d:\src\x.h"]
                       ∧ is_system_include ["c:\sys"] p = false)
            then current_digest hash_any ∅ p
            else (∅ : dependency_records_t 2) !! p)
  ∧ (∅ : dependency_records_t 2) ⊆ {[ "d:\src\x.h" := digest_ab ]}
  ∧ ({[ "d:\src\x.h" := digest_ab ]} : dependency_records_t 2)
    ⊆ {[ "d:\src\x.h" := digest_ab ]}.
Proof.
  apply (X16_recorded_dependencies 2 hash_any ["c:\sys"]
           ["c:\sys\stdio.h"; "d:\src\x.h"] ∅).
  vm_compute. reflexivity.
Defined.

(** X17.  After [run_for_miss] the ledger holds every pair of every
    record it produced, on top of what it held before; so an entry with
    such a record passes [filter_cache_hit] against that ledger, which
    stays unchanged: no dependency is hashed a second time. *)
Theorem X17_new_records_hit :
  ∀ SIZE hash_file get_source_dependencies paths miss_infos
    (ledger ledger' : dependency_records_t SIZE) records,
    run_for_miss_records SIZE hash_file get_source_dependencies paths
      miss_infos ledger = Ok (records, ledger') →
    ledger ⊆ ledger'
    ∧ records.*1 = miss_infos
    ∧ ∀ file_name deps, (file_name, deps) ∈ records →
        deps ⊆ ledger'
        ∧ ∀ entry : cache_entry_t SIZE, m_dependency_records entry = deps →
            filter_cache_hit SIZE hash_file entry ledger' = (true, ledger').
Proof.
  intros SIZE hash_file gsd paths miss ledger ledger' records H.
  apply run_for_miss_records_grows in H as (Hl & Hn & Hr).
  split; [done|]. split; [done|]. intros f deps Hin.
  rewrite Forall_forall in Hr. specialize (Hr _ Hin). cbn in Hr.
  split; [done|]. intros entry Heq. unfold filter_cache_hit.
  rewrite Heq.
  apply filter_cache_hit_loop_ledger, Forall_forall. intros [k h] Hkh. cbn.
  apply elem_of_map_items in Hkh. by eapply lookup_weaken.
Qed.

Lemma X17_new_records_hit_witness :
  (∅ : dependency_records_t 2) ⊆ {[ "d:\src\x.h" := digest_ab ]}
  ∧ [("a.cpp", ({[ "d:\src\x.h" := digest_ab ]} : dependency_records_t 2))].*1
    = ["a.cpp"]
  ∧ ∀ file_name deps,
      (file_name, deps)
      ∈ [("a.cpp", ({[ "d:\src\x.h" := digest_ab ]} : dependency_records_t 2))] →
      deps ⊆ {[ "d:\src\x.h" := digest_ab ]}
      ∧ ∀ entry : cache_entry_t 2, m_dependency_records entry = deps →
          filter_cache_hit 2 hash_any entry {[ "d:\src\x.h" := digest_ab ]}
          = (true, {[ "d:\src\x.h" := digest_ab ]}).
Proof.
  apply (X17_new_records_hit 2 hash_any report_lower ["c:\sys"] ["a.cpp"] ∅).
  vm_compute. reflexivity.
Defined.

(** ** Properties of [preprocess_source] *)

Lemma preprocess_loop_lookup file_read m_parser files :
  ∀ acc m,
  preprocess_loop file_read m_parser files acc = Ok m →
  ∀ n, m !! n
       = match acc !! n with
         | Some source => Some source
         | None =>
             match input_file_by_name files n, file_read n with
             | Ok file, Ok content =>
                 Some (payload (effective_file_type m_parser file) content)
             | _, _ => None
             end
         end.
Proof.
  induction files as [|file more IH]; intros acc m H n.
  { injection H as <-. by destruct (acc !! n). }
  cbn [preprocess_loop] in H.
  destruct (file_read (name file)) as [content| |] eqn:Hread;
    cbn [mbind result_bind] in H; try discriminate.
  rewrite (IH _ _ H n). cbn [input_file_by_name].
  destruct (String.eqb_spec (name file) n) as [<-|Hne].
  - destruct (acc !! name file) as [source|] eqn:Hacc.
    + by rewrite Hacc.
    + by rewrite lookup_insert_eq, Hread.
  - destruct (acc !! name file) as [source|] eqn:Hacc; [done|].
    by rewrite lookup_insert_ne.
Qed.

Lemma preprocess_loop_reads file_read m_parser files :
  ∀ acc,
  Forall (λ file, ∃ content, file_read (name file) = Ok content) files →
  ∃ m, preprocess_loop file_read m_parser files acc = Ok m.
Proof.
  induction files as [|file more IH]; intros acc H; [by eexists|].
  apply Forall_cons in H as [[content Hread] H].
  cbn [preprocess_loop]. rewrite Hread. cbn [mbind result_bind]. by apply IH.
Qed.

(** X18.  The sources that [preprocess_source] returns in direct mode:
    when every input file can be read, there is one source per input file
    name and nothing else, and it is the label of the effective type of
    the first input file of that name followed by the content of the
    file. *)
Theorem X18_direct_mode_sources :
  ∀ file_read m_parser,
    (Forall (λ file, ∃ content, file_read (name file) = Ok content)
       (m_input_files m_parser) →
     ∃ m, preprocess_source file_read m_parser = Ok m)
    ∧ ∀ m, preprocess_source file_read m_parser = Ok m →
        ∀ n, m !! n
             = match input_file_by_name (m_input_files m_parser) n,
                     file_read n with
               | Ok file, Ok content =>
                   Some (payload (effective_file_type m_parser file) content)
               | _, _ => None
               end.
Proof.
  intros file_read m_parser. unfold preprocess_source. split.
  - apply preprocess_loop_reads.
  - intros m H n. rewrite (preprocess_loop_lookup _ _ _ _ _ H n).
    by rewrite lookup_empty.
Qed.

(** X19.  The type label separates the language modes of one content:
    the same content under two different effective types gives two
    different sources.  It does not separate type from content: a C file
    whose content starts with [pp] has the source of the C++ file with
    the rest of that content. *)
Theorem X19_payload_type_label :
  (∀ t1 t2 content, payload t1 content = payload t2 content → t1 = t2)
  ∧ (∀ content, payload kC ("pp" +:+ content) = payload kCpp content).
Proof.
  split; [|done].
  intros t1 t2 content H. apply (f_equal String.length) in H.
  unfold payload in H. rewrite !length_app in H.
  destruct t1, t2; cbn in H; (done || lia).
Qed.

(** X20.  The effective type of a parsed input is never [kUnknown], so
    the label [unknown] is never written; it is [kObject] exactly for an
    input given without [/Tc] or [/Tp], under no [/TC] or [/TP], whose
    extension is none of [.c], [.cpp], [.cxx] and [.cc]. *)
Theorem X20_effective_type_of_parsed_input :
  ∀ split_args file_read ucs2_to_utf8 wchar_len getenv argv p file,
    parse split_args file_read ucs2_to_utf8 wchar_len getenv argv new_parser
    = Ok p →
    file ∈ m_input_files p →
    effective_file_type p file ≠ kUnknown
    ∧ type file ≠ kObject
    ∧ (effective_file_type p file = kObject ↔
         type file = kUnknown ∧ m_default_input_type p = kObject
         ∧ filename_to_type (name file) = kObject).
Proof.
  intros split_args file_read ucs2_to_utf8 wchar_len getenv argv p file H Hin.
  apply parse_canonical in H; [|apply canonical_new].
  pose proof (can_type _ H) as Htype.
  pose proof (can_inputs _ H) as Hinputs.
  rewrite Forall_forall in Hinputs. specialize (Hinputs _ Hin).
  unfold input_ok in Hinputs. unfold effective_file_type.
  assert (filename_to_type (name file) ≠ kUnknown) as Hext.
  { unfold filename_to_type. by repeat case_match. }
  destruct (type file) eqn:Ht; try done;
    destruct (decide _) as [Hd|Hd]; try done;
    destruct (m_default_input_type p) eqn:Hdef; try done.
  all: try (by destruct Hd).
  all: split; [done|]; split; [done|]; split;
    [intros ?|intros (? & ? & ?)]; done.
Qed.

Lemma X20_effective_type_of_parsed_input_witness :
  effective_file_type parsed_c_a (mkInputFile "a.cpp" kUnknown) ≠ kUnknown
  ∧ type (mkInputFile "a.cpp" kUnknown) ≠ kObject
  ∧ (effective_file_type parsed_c_a (mkInputFile "a.cpp" kUnknown) = kObject ↔
       type (mkInputFile "a.cpp" kUnknown) = kUnknown
       ∧ m_default_input_type parsed_c_a = kObject
       ∧ filename_to_type (name (mkInputFile "a.cpp" kUnknown)) = kObject).
Proof.
  apply (X20_effective_type_of_parsed_input words_tokenizer no_files id 2
           env_unset ["cl"; "/c"; "a.cpp"] parsed_c_a).
  - vm_compute. reflexivity.
  - cbn. left.
Defined.

Lemma X18_direct_mode_sources_witness :
  ({[ "a.cpp" := "cppint x;" ]} : gmap string string) !! "a.cpp"
  = match input_file_by_name (m_input_files parsed_c_a) "a.cpp",
          one_source "a.cpp" with
    | Ok file, Ok content =>
        Some (payload (effective_file_type parsed_c_a file) content)
    | _, _ => None
    end.
Proof.
  apply (proj2 (X18_direct_mode_sources one_source parsed_c_a)
           {[ "a.cpp" := "cppint x;" ]}).
  vm_compute. reflexivity.
Defined.

(** ** Further properties of the codec *)

Section CodecFacts.
Variable SIZE : nat.
Variable compress : string → string.
Variable decompress : string → result string.

(** The reader stops after the dependency record: bytes behind a
    serialized entry are not looked at. *)
Lemma deserialize_serialize_app (e : cache_entry_t SIZE) (junk : string) :
  (∀ s, decompress (compress s) = Ok s) →
  entry_fits SIZE compress e →
  deserialize SIZE decompress (serialize SIZE compress e +:+ junk) = Ok e.
Proof.
  intros Hcomp [Hm Hc Hids Hid Hout Herr Hdeps Hdep].
  rewrite serialize_layout. unfold layout.
  change (2 <=? ENTRY_DATA_FORMAT_VERSION) with true.
  change (3 <=? ENTRY_DATA_FORMAT_VERSION) with true.
  change (4 <=? ENTRY_DATA_FORMAT_VERSION) with true.
  cbv iota. rewrite !app_assoc_str. unfold deserialize.
  match goal with
  | |- context [serialize.to_int ?d 0] =>
      pose proof (at_pos_0 d) as H; set (data := d) in H at 1 |- *
  end.
  rewrite (to_int_from_int _ _ _ _ H). cbn [mbind result_bind].
  apply at_pos_advance in H. rewrite length_from_int in H.
  change (ENTRY_DATA_FORMAT_VERSION <?
            serialize.wrap32 ENTRY_DATA_FORMAT_VERSION) with false.
  change (2 <=? serialize.wrap32 ENTRY_DATA_FORMAT_VERSION) with true.
  change (3 <=? serialize.wrap32 ENTRY_DATA_FORMAT_VERSION) with true.
  change (4 <=? serialize.wrap32 ENTRY_DATA_FORMAT_VERSION) with true.
  cbv iota.
  rewrite (to_int_from_int _ _ _ _ H). cbn [mbind result_bind].
  apply at_pos_advance in H. rewrite length_from_int in H.
  rewrite wrap32_id by done.
  rewrite (to_vector_from_vector _ _ _ _ Hids Hid H).
  cbn [mbind result_bind]. apply at_pos_advance in H.
  rewrite (to_string_from_string _ _ _ _ Hout H).
  cbn [mbind result_bind]. apply at_pos_advance in H.
  rewrite (to_string_from_string _ _ _ _ Herr H).
  cbn [mbind result_bind]. apply at_pos_advance in H.
  rewrite (to_int_from_int _ _ _ _ H). cbn [mbind result_bind].
  apply at_pos_advance in H. rewrite length_from_int in H.
  rewrite !(wrap32_id (m_return_code e)) by done.
  rewrite (to_map_from_map _ _ _ _ _ Hdeps Hdep H).
  cbn [mbind result_bind].
  unfold stored; case_decide; rewrite ?Hcomp; by destruct e.
Qed.
End CodecFacts.

(** X21.  [deserialize] reads an entry from the front of its data and
    ignores what follows: a serialized entry followed by any bytes is
    decoded to the entry, so the end of a blob is not checked. *)
Theorem X21_trailing_bytes_ignored :
  ∀ SIZE compress decompress (e : cache_entry_t SIZE) (junk : string),
    (∀ s, decompress (compress s) = Ok s) →
    entry_fits SIZE compress e →
    deserialize SIZE decompress (serialize SIZE compress e +:+ junk) = Ok e.
Proof. intros. by apply deserialize_serialize_app. Qed.

Lemma X21_trailing_bytes_ignored_witness :
  deserialize 2 toy_decompress (serialize 2 toy_compress entry_small +:+ "junk")
  = Ok entry_small.
Proof.
  apply (X21_trailing_bytes_ignored 2 toy_compress toy_decompress entry_small
           "junk"); [done | apply entry_small_fits].
Defined.

(** X22.  Entries that fit the format are told apart by their serialized
    form: two such entries with the same bytes are the same entry, and
    neither blob is a proper beginning of the other. *)
Theorem X22_serialize_injective :
  ∀ SIZE compress decompress (e1 e2 : cache_entry_t SIZE) (rest : string),
    (∀ s, decompress (compress s) = Ok s) →
    entry_fits SIZE compress e1 → entry_fits SIZE compress e2 →
    serialize SIZE compress e1 = serialize SIZE compress e2 +:+ rest →
    e1 = e2 ∧ rest = "".
Proof.
  intros SIZE compress decompress e1 e2 rest Hcomp H1 H2 Heq.
  assert (e1 = e2) as <-.
  { apply (inj Ok).
    rewrite <- (deserialize_serialize_app SIZE compress decompress e1 ""),
      <- (deserialize_serialize_app SIZE compress decompress e2 rest)
      by done.
    by rewrite app_empty_r, Heq. }
  split; [done|].
  apply (f_equal String.length) in Heq. rewrite length_app in Heq.
  destruct rest; [done|]. cbn in Heq. lia.
Qed.

Lemma X22_serialize_injective_witness :
  entry_small = entry_small ∧ "" = "".
Proof.
  apply (X22_serialize_injective 2 toy_compress toy_decompress entry_small
           entry_small ""); try apply entry_small_fits; [done|].
  by rewrite app_empty_r.
Defined.

(** ** Properties of [read_lines] *)

Lemma getlines_go_app (l : string) : ∀ cur rest,
  count_char "010" l = O →
  getlines_go cur (l +:+ rest) = getlines_go (String.rev l +:+ cur) rest.
Proof.
  induction l as [|c l IH]; intros cur rest Hl.
  { by rewrite !app_empty. }
  cbn in Hl. rewrite app_String. cbn [getlines_go].
  destruct (Ascii.eqb c "010"); [done|].
  rewrite IH by done.
  by rewrite rev_String, app_assoc_str, app_String, app_empty.
Qed.

Lemma getlines_crlf (lines : list string) :
  Forall (λ l, count_char "010" l = O) lines →
  getlines (crlf_text lines) = (λ l, l +:+ String "013" "") <$> lines.
Proof.
  unfold getlines. induction 1 as [|l lines Hl _ IH]; [done|].
  cbn [crlf_text foldr fmap list_fmap]. fold (crlf_text lines).
  rewrite getlines_go_app by done. cbn [getlines_go Ascii.eqb Bool.eqb].
  rewrite app_empty_r, rev_String, rev_involutive_str. by rewrite IH.
Qed.

Lemma getlines_lf (lines : list string) :
  Forall (λ l, count_char "010" l = O) lines →
  Forall (λ l, l ≠ "") lines →
  getlines (lf_text lines) = lines.
Proof.
  unfold getlines. induction 1 as [|l lines Hl _ IH]; [done|].
  intros [Hne Hmore]%Forall_cons.
  cbn [lf_text foldr]. fold (lf_text lines).
  rewrite getlines_go_app by done. cbn [getlines_go Ascii.eqb Bool.eqb].
  rewrite app_empty_r, rev_involutive_str. by rewrite IH.
Qed.

Lemma back_snoc (l : string) (c : ascii) : back (l +:+ String c "") = Ok c.
Proof. unfold back. by rewrite rev_app_distr_str. Qed.

Lemma pop_back_snoc (l : string) (c : ascii) :
  pop_back (l +:+ String c "") = l.
Proof.
  unfold pop_back, substr. rewrite length_app. cbn [String.length].
  replace (String.length l + 1 - 1)%nat with (String.length l) by lia.
  apply substring_0_app.
Qed.

Section ReadLines.
Variable file_read : string → result string.
Variable ucs2_to_utf8 : string → string.
Variable wchar_len : nat.

Lemma decode_no_bom (content : string) :
  no_bom content → decode_file_buf ucs2_to_utf8 wchar_len content = content.
Proof.
  intros [H16 H8]. unfold decode_file_buf. unfold starts_with in H16, H8.
  cbn [String.length] in H16, H8. by rewrite H16, H8, !andb_false_r.
Qed.

(** X23.  A file without byte-order mark whose lines all end in carriage
    return and line feed is read line by line with the carriage return
    removed, empty lines included, and the reader never looks at a
    character of an empty string.  A file whose lines end in line feed
    alone is read the same way when no line is empty or ends in a
    carriage return. *)
Theorem X23_read_lines_line_ends :
  ∀ (S : Type) (callback : string → S → result S) path lines st,
    Forall (λ l, count_char "010" l = O) lines →
    (file_read path = Ok (crlf_text lines) → no_bom (crlf_text lines) →
     read_lines file_read ucs2_to_utf8 wchar_len path callback st
     = feed callback lines st)
    ∧ (file_read path = Ok (lf_text lines) → no_bom (lf_text lines) →
       Forall (λ l, ∃ c, back l = Ok c ∧ c ≠ "013"%char) lines →
       read_lines file_read ucs2_to_utf8 wchar_len path callback st
       = feed callback lines st).
Proof.
  intros S callback path lines st Hlf. split.
  - intros Hread Hbom. unfold read_lines. rewrite Hread.
    cbn [mbind result_bind]. rewrite decode_no_bom, getlines_crlf by done.
    clear Hread Hbom Hlf. revert st.
    induction lines as [|l lines IH]; intros st; [done|].
    cbn [fmap list_fmap read_lines_loop feed].
    rewrite back_snoc. cbn [mbind result_bind Ascii.eqb Bool.eqb].
    rewrite pop_back_snoc. destruct (callback l st); [|done..].
    cbn [mbind result_bind]. apply IH.
  - intros Hread Hbom Hback. unfold read_lines. rewrite Hread.
    cbn [mbind result_bind]. rewrite decode_no_bom by done.
    rewrite getlines_lf; [|done|].
    2:{ eapply Forall_impl; [exact Hback|]. by intros l (c & Hc & _) ->. }
    clear Hread Hbom Hlf. revert st.
    induction Hback as [|l lines (c & Hc & Hne) _ IH]; intros st; [done|].
    cbn [read_lines_loop feed]. rewrite Hc. cbn [mbind result_bind].
    apply Ascii.eqb_neq in Hne. rewrite Hne.
    destruct (callback l st); [|done..]. cbn [mbind result_bind]. apply IH.
Qed.
End ReadLines.

Lemma X23_read_lines_line_ends_witness :
  read_lines resp_crlf id 2 "resp.txt"
    (λ line (seen : list string), Ok (seen ++ [line])) []
  = feed (λ line (seen : list string), Ok (seen ++ [line]))
      ["/DFOO=1"; ""; "bar.c"] [].
Proof.
  refine (proj1 (X23_read_lines_line_ends resp_crlf id 2 (list string)
                   (λ line seen, Ok (seen ++ [line])) "resp.txt"
                   ["/DFOO=1"; ""; "bar.c"] [] _) _ _).
  - by repeat constructor.
  - reflexivity.
  - by split.
Defined.

(** ** Properties of [sanitize_path] *)

(** X24.  [sanitize_path] changes at most the first character of a path,
    and only for a path of more than two characters whose second one is a
    colon; it keeps the length, and applying it twice is applying it
    once. *)
Theorem X24_sanitize_path :
  ∀ path,
    sanitize_path (sanitize_path path) = sanitize_path path
    ∧ String.length (sanitize_path path) = String.length path
    ∧ substr_from (sanitize_path path) 1 = substr_from path 1
    ∧ (sanitize_path path ≠ path →
       ∃ c rest, path = String c (String ":" rest) ∧ rest ≠ ""
                 ∧ sanitize_path path
                   = String (upper_char c) (String ":" rest)).
Proof.
  intros path. split; [apply sanitize_path_idemp|].
  destruct path as [|c0 [|c1 rest]]; try done.
  unfold sanitize_path.
  destruct ((2 <? String.length (String c0 (String c1 rest)))%nat
            && Ascii.eqb c1 ":") eqn:E; [|done].
  apply andb_true_iff in E as [Hlen ->%Ascii.eqb_eq].
  apply Nat.ltb_lt in Hlen.
  cbn [substr String.substring upper_case map_chars substr_from].
  norm_str. cbn [String.length] in *.
  split; [done|]. split; [done|]. intros _.
  exists c0, rest. split; [done|]. split; [|done].
  intros ->. cbn in Hlen. lia.
Qed.

(** ** Properties of the tracking log *)

Lemma merge_sort_permutation (l1 l2 : list string) :
  l1 ≡ₚ l2 → merge_sort String.le l1 = merge_sort String.le l2.
Proof.
  intros H. apply (StronglySorted_unique String.le).
  - apply StronglySorted_merge_sort; apply _.
  - apply StronglySorted_merge_sort; apply _.
  - by rewrite !merge_sort_Permutation.
Qed.

Section TrackingLogFacts.
Variable resolve_path : string → string.

Lemma foldl_add_source (paths : list string) : ∀ t,
  foldl (filetracker.add_source resolve_path) t paths
  = if negb (filetracker.m_enabled t) then t
    else filetracker.mkLog (filetracker.m_enabled t)
           (filetracker.m_intermediate_dir t) (filetracker.m_toolchain t)
           (filetracker.m_sources t
            ++ (filetracker.fullpath resolve_path <$> paths))
           (filetracker.m_root t).
Proof.
  induction paths as [|path paths IH]; intros t.
  { cbn. rewrite app_nil_r. by destruct t as [[] ? ? ? ?]. }
  cbn [foldl]. rewrite IH. unfold filetracker.add_source.
  destruct t as [[] ? ? ? ?]; cbn; [|done].
  by rewrite <- app_assoc.
Qed.

(** X25.  The root line of the tracking logs does not depend on the order
    in which the sources were added: [finalize_sources] after the same
    sources in any order gives the same log state, with the sources in
    ascending order; and finalizing twice is finalizing once. *)
Theorem X25_finalize_sources :
  ∀ t paths1 paths2,
    paths1 ≡ₚ paths2 →
    filetracker.finalize_sources
      (foldl (filetracker.add_source resolve_path) t paths1)
    = filetracker.finalize_sources
        (foldl (filetracker.add_source resolve_path) t paths2)
    ∧ (filetracker.m_enabled t = true →
       StronglySorted String.le
         (filetracker.m_sources
            (filetracker.finalize_sources
               (foldl (filetracker.add_source resolve_path) t paths1))))
    ∧ filetracker.finalize_sources (filetracker.finalize_sources t)
      = filetracker.finalize_sources t.
Proof.
  intros t paths1 paths2 Hperm. rewrite !foldl_add_source.
  unfold filetracker.finalize_sources.
  destruct t as [[] dir tool sources root]; cbn; [|done].
  assert (merge_sort String.le
            (sources ++ (filetracker.fullpath resolve_path <$> paths1))
          = merge_sort String.le
              (sources ++ (filetracker.fullpath resolve_path <$> paths2)))
    as Hsort.
  { apply merge_sort_permutation. by rewrite Hperm. }
  split; [by rewrite Hsort|]. split.
  - intros _. apply StronglySorted_merge_sort; apply _.
  - assert (merge_sort String.le (merge_sort String.le sources)
            = merge_sort String.le sources) as ->; [|done].
    apply merge_sort_permutation, merge_sort_Permutation.
Qed.
End TrackingLogFacts.

Lemma X25_finalize_sources_witness :
  filetracker.finalize_sources
    (foldl (filetracker.add_source id) log_on ["b.cpp"; "a.cpp"])
  = filetracker.finalize_sources
      (foldl (filetracker.add_source id) log_on ["a.cpp"; "b.cpp"])
  ∧ (filetracker.m_enabled log_on = true →
     StronglySorted String.le
       (filetracker.m_sources
          (filetracker.finalize_sources
             (foldl (filetracker.add_source id) log_on ["b.cpp"; "a.cpp"]))))
  ∧ filetracker.finalize_sources (filetracker.finalize_sources log_on)
    = filetracker.finalize_sources log_on.
Proof.
  apply (X25_finalize_sources id log_on ["b.cpp"; "a.cpp"] ["a.cpp"; "b.cpp"]).
  apply perm_swap.
Defined.

Section BuildFilesFacts.
Variable resolve_path : string → string.
Variable get_file_part get_file_part_no_ext : string → string.
Variable change_extension append_path : string → string → string.

(** X26.  The build files that the wrapper reports for an input hold
    everything [write_logs] looks up: with tracking enabled the two logs
    are written to the paths that the tracking log announced as [tlog_r]
    and [tlog_w]; the read log lists the root, the source, the
    dependencies and the object file, in upper case, and the write log the
    root, the path of the precompiled header if one is created, and the
    object file.  With tracking disabled nothing is written, and with
    build files that lack the object file the call throws. *)
Theorem X26_write_logs_of_build_files :
  ∀ t m_parser m_tool_version key source dependencies,
    let build_files :=
      get_build_files get_file_part_no_ext change_extension append_path
        (filetracker.get_build_files get_file_part append_path t)
        m_parser m_tool_version key in
    let crlf := String "013" (String "010" "") in
    let pch :=
      if is_create (m_pch_config m_parser)
      then [output_path change_extension append_path (m_pch_config m_parser)
              key
              ("vc" +:+ as_string (vc_version m_tool_version) 1 +:+ "0.pch")]
      else [] in
    (filetracker.m_enabled t = true →
     ∃ object tlog_r tlog_w,
       filetracker.write_logs resolve_path t source build_files dependencies
       = Ok [(upper_case
                (join crlf
                   ([filetracker.m_root t;
                     filetracker.fullpath resolve_path source]
                    ++ dependencies
                    ++ [filetracker.fullpath resolve_path
                          (expected_path object)])),
              expected_path tlog_r);
             (join crlf
                ([filetracker.m_root t] ++ pch
                 ++ [filetracker.fullpath resolve_path
                       (expected_path object)]),
              expected_path tlog_w)]
       ∧ build_files !! "object" = Some object
       ∧ filetracker.get_build_files get_file_part append_path t key
           !! "tlog_r" = Some tlog_r
       ∧ filetracker.get_build_files get_file_part append_path t key
           !! "tlog_w" = Some tlog_w)
    ∧ (filetracker.m_enabled t = false →
       ∀ files, filetracker.write_logs resolve_path t source files dependencies
                = Ok [])
    ∧ (filetracker.m_enabled t = true →
       ∀ files, files !! "object" = None →
         filetracker.write_logs resolve_path t source files dependencies
         = Throw "std::out_of_range").
Proof.
  intros t m_parser m_tool_version key source dependencies build_files crlf
    pch.
  split; [|split].
  - intros Hen.
    assert (∃ object, build_files !! "object" = Some object) as [object Ho].
    { unfold build_files, get_build_files.
      destruct (is_create (m_pch_config m_parser)); eexists;
        apply lookup_union_Some_l;
        rewrite ?(lookup_insert_ne _ "pch" "object") by done;
        apply lookup_insert_eq. }
    assert (∀ k, k ≠ "object" → k ≠ "pch" →
              build_files !! k
              = filetracker.get_build_files get_file_part append_path t key
                  !! k) as Hk.
    { intros k H1 H2. unfold build_files, get_build_files.
      destruct (is_create (m_pch_config m_parser));
        rewrite lookup_union_r; try done;
        rewrite ?lookup_insert_ne by done; apply lookup_empty. }
    assert (∃ tlog_r tlog_w,
              filetracker.get_build_files get_file_part append_path t key
                !! "tlog_r" = Some tlog_r
              ∧ filetracker.get_build_files get_file_part append_path t key
                  !! "tlog_w" = Some tlog_w) as (tlog_r & tlog_w & Hr & Hw).
    { unfold filetracker.get_build_files. rewrite Hen. cbn [negb].
      do 2 eexists. split.
      - rewrite lookup_insert_ne by done. apply lookup_insert_eq.
      - apply lookup_insert_eq. }
    assert (match build_files !! "pch" with
            | Some file => [expected_path file]
            | None => []
            end = pch) as Hpch.
    { unfold build_files, get_build_files, pch.
      destruct (is_create (m_pch_config m_parser)).
      - by erewrite lookup_union_Some_l by apply lookup_insert_eq.
      - rewrite lookup_union_r
          by (rewrite lookup_insert_ne by done; apply lookup_empty).
        unfold filetracker.get_build_files. rewrite Hen. cbn [negb].
        rewrite !lookup_insert_ne by done. by rewrite lookup_empty. }
    unfold filetracker.write_logs, at_key. rewrite Hen. cbn [negb].
    rewrite Ho, (Hk "tlog_r"), (Hk "tlog_w"), Hr, Hw, Hpch by done.
    cbn [mbind result_bind].
    exists object, tlog_r, tlog_w. done.
  - intros Hen files. unfold filetracker.write_logs. by rewrite Hen.
  - intros Hen files Ho. unfold filetracker.write_logs, at_key.
    by rewrite Hen, Ho.
Qed.
End BuildFilesFacts.

(** ** Properties of [get_program_id] *)

Lemma append_inj_l (a b c : string) : a +:+ b = a +:+ c → b = c.
Proof.
  induction a as [|x a IH]; [by rewrite !app_empty|].
  rewrite !app_String. intros [= H]. by apply IH.
Qed.

(** X27.  For one host and one target architecture the program
    identifier tells the versions of the tools apart.  It does not tell
    the architectures apart: host and target are written one after the
    other, so a host [a ++ b] with target [c] has the identifier of host
    [a] with target [b ++ c]. *)
Theorem X27_program_id :
  (∀ tv1 tv2,
     host_arch tv1 = host_arch tv2 → target_arch tv1 = target_arch tv2 →
     version_ok (vc_version tv1) → version_ok (vc_version tv2) →
     get_program_id tv1 = get_program_id tv2 → tv1 = tv2)
  ∧ (∀ a b c v,
       get_program_id (mkToolVersion (a +:+ b) c v)
       = get_program_id (mkToolVersion a (b +:+ c) v)).
Proof.
  split.
  - intros [h1 t1 v1] [h2 t2 v2].
    cbn [host_arch target_arch vc_version]. intros <- <- Hv1 Hv2 H.
    unfold get_program_id in H.
    cbn [host_arch target_arch vc_version] in H.
    do 3 apply append_inj_l in H.
    apply (f_equal version_of_string) in H.
    rewrite !version_of_as_string in H by done. by injection H as ->.
  - intros a b c v. unfold get_program_id.
    cbn [host_arch target_arch vc_version]. by rewrite !app_assoc_str.
Qed.

Lemma X27_program_id_witness : tool_14_29 = tool_14_29.
Proof.
  apply (proj1 X27_program_id tool_14_29 tool_14_29); try reflexivity;
    unfold version_ok; cbn; lia.
Defined.

(** ** Repeating [filter_cache_hit] *)

Section FilterAgain.
Variable SIZE : nat.
Variable hash_file : string → option (hash_t SIZE).

Lemma filter_cache_hit_loop_again records :
  ∀ ledger : dependency_records_t SIZE,
  filter_cache_hit_loop SIZE hash_file records
    (filter_cache_hit_loop SIZE hash_file records ledger).2
  = filter_cache_hit_loop SIZE hash_file records ledger.
Proof.
  induction records as [|[include cached] more IH]; intros ledger; [done|].
  assert (∀ l : dependency_records_t SIZE,
            l !! include = Some cached →
            filter_cache_hit_loop SIZE hash_file ((include, cached) :: more)
              (filter_cache_hit_loop SIZE hash_file more l).2
            = filter_cache_hit_loop SIZE hash_file more l) as Hstep.
  { intros l Hl.
    destruct (filter_cache_hit_loop_spec SIZE hash_file more l)
      as (_ & _ & Hsub & _).
    rewrite (filter_step_ledger SIZE hash_file _ _ _ cached)
      by exact (lookup_weaken _ _ _ _ Hl Hsub).
    destruct (decide (cached ≠ cached)); [done|]. apply IH. }
  destruct (ledger !! include) as [digest|] eqn:Hl.
  - rewrite (filter_step_ledger SIZE hash_file _ _ _ _ ledger Hl).
    destruct (decide (digest ≠ cached)) as [Hne|Heq%dec_stable].
    + cbn [snd]. rewrite (filter_step_ledger SIZE hash_file _ _ _ _ ledger Hl).
      by destruct (decide (digest ≠ cached)).
    + subst digest. by apply Hstep.
  - destruct (hash_file include) as [digest|] eqn:Hh.
    + rewrite (filter_step_hash SIZE hash_file _ _ _ _ ledger Hl Hh).
      destruct (decide (digest ≠ cached)) as [Hne|Heq%dec_stable].
      * cbn [snd].
        rewrite (filter_step_ledger SIZE hash_file _ _ _ digest)
          by apply lookup_insert_eq.
        by destruct (decide (digest ≠ cached)).
      * subst digest. apply Hstep, lookup_insert_eq.
    + rewrite (filter_step_throw SIZE hash_file _ _ _ ledger Hl Hh). cbn [snd].
      by apply filter_step_throw.
Qed.
End FilterAgain.

(** X28.  The verdict of [filter_cache_hit] is stable: asking again with
    the ledger the first call left gives the same verdict and the same
    ledger, for a hit and for a miss, as long as the files hash as
    before. *)
Theorem X28_filter_cache_hit_again :
  ∀ SIZE hash_file (entry : cache_entry_t SIZE)
    (ledger : dependency_records_t SIZE),
    filter_cache_hit SIZE hash_file entry
      (filter_cache_hit SIZE hash_file entry ledger).2
    = filter_cache_hit SIZE hash_file entry ledger.
Proof.
  intros SIZE hash_file entry ledger. unfold filter_cache_hit.
  apply filter_cache_hit_loop_again.
Qed.
